(** * hook_extractor: the front-end over the extraction graph

    A shallow embedding of the TypeScript sources of the repository:

      - the [App] component (src/unnamed/part_000): [handleFileUpload], the
        upload filter in front of [setProject] and the re-parsing of [toJson];
      - the [MainView] component (src/unnamed/part_001): [findRoots],
        [convertEffectEdges], [convertPropEdges], [convertComponentToMark]
        and the component edges of the layout effect.

    [module/HookExtractor] ([visitDecendent], [countDecendent], [toJson], the
    graph builder) is not among the sources; what is needed of it is modelled
    from the specification and marked as such.

    JavaScript strings are modelled by [string], arrays by [list].  Objects
    with identity (the [ComponentNode]s, whose [children] arrays the layout
    sorts in place) live in an arena, a [list ComponentNode], and are named by
    references [loc] into it.  Numbers that count or index are [nat]; the
    comparator of [sort] is computed in [Z].  Loops that push onto an array
    are folds that append.  Recursion that the program does not bound takes a
    [fuel] argument and returns [None] when it runs out. *)

From Stdlib Require QArith.QArith_base.
From Stdlib Require Import Ascii.
From stdpp Require Import base gmap sets list strings sorting relations.

(* [set_solver] clears hypotheses it has already consumed. *)
#[local] Set Warnings "-clear-no-such-hyp".

(** ** JavaScript string primitives *)

Module JsString.

(** [s.startsWith(pat)] *)
Fixpoint startsWith (s pat : string) {struct pat} : bool :=
  match pat with
  | EmptyString => true
  | String a pat' =>
      match s with
      | EmptyString => false
      | String b s' => Ascii.eqb b a && startsWith s' pat'
      end
  end.

(** [s.endsWith(suf)] *)
Fixpoint endsWith (s suf : string) : bool :=
  String.eqb s suf ||
  match s with
  | EmptyString => false
  | String _ s' => endsWith s' suf
  end.

(** [s.includes(pat)] *)
Fixpoint includes (s pat : string) : bool :=
  startsWith s pat ||
  match s with
  | EmptyString => false
  | String _ s' => includes s' pat
  end.

(** [s.slice(n)] for [0 <= n] *)
Fixpoint slice (n : nat) (s : string) : string :=
  match n, s with
  | 0, _ => s
  | S _, EmptyString => EmptyString
  | S n', String _ s' => slice n' s'
  end.

(** [s.replace(pat, rep)] with a string pattern: only the first occurrence
    of [pat] is replaced.  The replacement strings used by the program
    contain no [$], so no replacement pattern is ever interpreted. *)
Fixpoint replace (s pat rep : string) : string :=
  if startsWith s pat then rep +:+ slice (String.length pat) s
  else
    match s with
    | EmptyString => EmptyString
    | String a s' => String a (replace s' pat rep)
    end.

End JsString.

Import JsString.

(** ** The data model

    [ComponentNode] and its parts are declared in [module/HookExtractor]; the
    fields below are the ones the front-end reads.  A component is an object
    with identity: it is referred to by a reference [loc] into the arena, and
    [children] / [falseChildren] hold references, as the arrays of the
    program hold objects. *)

Abbreviation loc := nat.

Record PropNode := {
  prop_id : string;
  prop_name : string;
  references : list string;
}.

Record StateNode := {
  state_id : string;
  state_name : string;
}.

Record EffectNode := {
  effect_id : string;
  dependencyIds : list string;
  handlingTargetIds : list string;
}.

Record ComponentNode := {
  comp_id : string;
  comp_name : string;
  props : list PropNode;
  states : list StateNode;
  effects : list EffectNode;
  children : list loc;
  falseChildren : list loc;
}.

Abbreviation heap := (list ComponentNode).

(** What a reference outside the arena reads as: a blank component.  The
    program never holds such a reference ([closed], below). *)
Global Instance ComponentNode_inhabited : Inhabited ComponentNode :=
  populate {| comp_id := ""; comp_name := ""; props := []; states := [];
              effects := []; children := []; falseChildren := [] |}.

(** [c.children] and [c.id] for a reference [c]. *)
Definition kids (h : heap) (c : loc) : list loc := children (h !!! c).
Definition idOf (h : heap) (c : loc) : string := comp_id (h !!! c).

(** *** Nodes and edges of the flow diagram ([@xyflow/react]) *)

Record XYPosition := { pos_x : Z; pos_y : Z }.

Record NodeData := {
  data_label : string;
  data_level : option nat;
  data_index : option nat;
  data_hasState : option bool;
  data_hasProps : option bool;
  data_component : option loc;
  data_baseWidth : option Z;
}.

Record Node := {
  node_id : string;
  node_type : string;
  node_parentId : option string;
  node_zIndex : Z;
  node_transition : string;
  node_data : NodeData;
  node_position : XYPosition;
}.

Inductive MarkerType := ArrowClosed.

Record EdgeStyle := {
  stroke : string;
  strokeWidth : option QArith_base.Q;
}.

Record EdgeMarker := {
  marker_type : MarkerType;
  marker_color : option string;
}.

Record EdgeData := {
  edata_component : option string;
  edata_refRoot : option string;
  edata_propRoot : option string;
}.

Record Edge := {
  edge_id : string;
  edge_source : string;
  edge_target : string;
  edge_style : option EdgeStyle;
  edge_animated : bool;
  edge_zIndex : Z;
  edge_markerEnd : EdgeMarker;
  edge_data : option EdgeData;
  edge_sourceHandle : option string;
  edge_selectable : option bool;
}.

Definition innerEdgeWidth : QArith_base.Q := QArith_base.Qmake 15 10.

Definition defaultAnimationStyle : string :=
  "width 100ms, height 100ms, transform 100ms".

(** ** [App.tsx]: the upload handler *)

Record File := {
  file_webkitRelativePath : string;
  file_name : string;
  file_text : string;
}.

Record SourceFile := {
  source : string;
  content : string;
}.

(** The condition of the [if] in the upload loop. *)
Definition inScope (f : File) : bool :=
  negb (includes (file_webkitRelativePath f) "node_modules") &&
  (endsWith (file_name f) ".js" || endsWith (file_name f) ".jsx").

(** What the promise pushed for [files[i]] resolves to. *)
Definition readFile (f : File) : SourceFile :=
  {| source := file_webkitRelativePath f; content := file_text f |}.

(** [for (let i = 0; i < files.length; i++) { ... promises.push(...) }];
    [n] counts the iterations that remain. *)
Fixpoint uploadLoop (files : list File) (n i : nat) (promises : list SourceFile)
  : list SourceFile :=
  match n with
  | 0 => promises
  | S n' =>
      match files !! i with
      | None => promises
      | Some f =>
          uploadLoop files n' (S i)
            (if inScope f then promises ++ [readFile f] else promises)
      end
  end.

(** The argument [results] of [hookExtractor.setProject]: [Promise.all]
    resolves to the results in the order of the pushed promises. *)
Definition handleFileUpload (files : list File) : list SourceFile :=
  uploadLoop files (length files) 0 [].

(** ** [MainView.tsx]: edges *)

(** The template literal [`${a}-${b}`]. *)
Definition dash (a b : string) : string := a +:+ "-" +:+ b.

Definition effectDepEdge (component : ComponentNode) (effect : EffectNode)
    (depId : string) : Edge :=
  {| edge_id := dash (effect_id effect) depId;
     edge_source := depId;
     edge_target := effect_id effect;
     edge_style :=
       Some (if startsWith depId "state"
             then {| stroke := "#FF3B30"; strokeWidth := Some innerEdgeWidth |}
             else {| stroke := "black"; strokeWidth := Some innerEdgeWidth |});
     edge_animated := if startsWith depId "state" then true else false;
     edge_zIndex := 50;
     edge_markerEnd :=
       {| marker_type := ArrowClosed;
          marker_color :=
            Some (if startsWith depId "state" then "#FF3B30" else "black") |};
     edge_data :=
       Some {| edata_component := Some (comp_id component);
               edata_refRoot := None; edata_propRoot := None |};
     edge_sourceHandle := None;
     edge_selectable := None |}.

Definition effectTargetEdge (component : ComponentNode) (effect : EffectNode)
    (targetId : string) : Edge :=
  {| edge_id := dash (effect_id effect) targetId;
     edge_source := effect_id effect;
     edge_target := targetId;
     edge_style :=
       Some (if startsWith targetId "prop"
             then {| stroke := "#FF3B30"; strokeWidth := Some innerEdgeWidth |}
             else {| stroke := "black"; strokeWidth := Some innerEdgeWidth |});
     edge_animated := if startsWith targetId "prop" then true else false;
     edge_zIndex := 50;
     edge_markerEnd :=
       {| marker_type := ArrowClosed;
          marker_color :=
            Some (if startsWith targetId "prop" then "#FF3B30" else "black") |};
     edge_data :=
       Some {| edata_component := Some (comp_id component);
               edata_refRoot := None; edata_propRoot := None |};
     edge_sourceHandle := None;
     edge_selectable := None |}.

(** [convertEffectEdges]: two [forEach] loops per effect, each pushing onto
    [edges]. *)
Definition convertEffectEdges (component : ComponentNode) : list Edge :=
  foldl (λ edges effect,
    let edges :=
      foldl (λ edges depId, edges ++ [effectDepEdge component effect depId])
        edges (dependencyIds effect) in
    foldl (λ edges targetId, edges ++ [effectTargetEdge component effect targetId])
      edges (handlingTargetIds effect))
    [] (effects component).

(** [ref.replace("setter", "state")]: the id of the state node a setter
    reference is attached to. *)
Definition setterNodeId (ref : string) : string := replace ref "setter" "state".

(** [nodes.find((target) => target.id === nid)] *)
Definition findNode (nodes : list Node) (nid : string) : option Node :=
  List.find (λ target, bool_decide (node_id target = nid)) nodes.

(** [edges.find((edge) => edge.id === eid)] *)
Definition findEdge (edges : list Edge) (eid : string) : option Edge :=
  List.find (λ edge, bool_decide (edge_id edge = eid)) edges.

Definition setterPropEdge (component : ComponentNode) (prop : PropNode)
    (ref nodeId : string) (target : Node) : Edge :=
  {| edge_id := dash ref (prop_id prop);
     edge_source := nodeId;
     edge_target := prop_id prop;
     edge_style := Some {| stroke := "#A2845E"; strokeWidth := None |};
     edge_animated := true;
     edge_zIndex := 50;
     edge_markerEnd :=
       {| marker_type := ArrowClosed; marker_color := Some "#A2845E" |};
     edge_data :=
       Some {| edata_component := None;
               edata_refRoot := Some (node_id target);
               edata_propRoot := Some (comp_id component) |};
     edge_sourceHandle := Some "setter";
     edge_selectable := None |}.

Definition valuePropEdge (component : ComponentNode) (prop : PropNode)
    (ref : string) (target : Node) : Edge :=
  {| edge_id := dash ref (prop_id prop);
     edge_source := ref;
     edge_target := prop_id prop;
     edge_style :=
       Some (if startsWith ref "prop"
             then {| stroke := "#FF3B30"; strokeWidth := Some innerEdgeWidth |}
             else {| stroke := "#34C759"; strokeWidth := None |});
     edge_animated := true;
     edge_zIndex := 50;
     edge_markerEnd :=
       {| marker_type := ArrowClosed;
          marker_color :=
            Some (if startsWith ref "prop" then "#FF3B30" else "#34C759") |};
     edge_data :=
       Some {| edata_component := None;
               edata_refRoot := Some (node_id target);
               edata_propRoot := Some (comp_id component) |};
     edge_sourceHandle := None;
     edge_selectable := None |}.

(** The body of [prop.references.forEach((ref) => ...)]: the edges pushed
    for one reference (none on either early [return]). *)
Definition propRefEdges (currentPropEdges : list Edge)
    (currentStateNodes currentPropNodes : list Node)
    (component : ComponentNode) (prop : PropNode) (ref : string) : list Edge :=
  let isSetter := startsWith ref "setter" in
  if isSetter then
    let nodeId := setterNodeId ref in
    match findNode currentStateNodes nodeId with
    | None => []
    | Some target =>
        match findEdge currentPropEdges (dash ref (prop_id prop)) with
        | Some _ => []
        | None => [setterPropEdge component prop ref nodeId target]
        end
    end
  else
    match
      match findNode currentStateNodes ref with
      | Some target => Some target
      | None => findNode currentPropNodes ref
      end
    with
    | None => []
    | Some target =>
        match findEdge currentPropEdges (dash ref (prop_id prop)) with
        | Some _ => []
        | None => [valuePropEdge component prop ref target]
        end
    end.

(** [convertPropEdges]: three nested [forEach] loops pushing onto
    [newPropEdges]; a node that is not expanded or carries no component is
    skipped. *)
Definition convertPropEdges (h : heap) (nodes : list Node)
    (currentPropEdges : list Edge)
    (currentStateNodes currentPropNodes : list Node) : list Edge :=
  foldl (λ newPropEdges node,
    if bool_decide (node_type node ≠ "expanded") then newPropEdges
    else
      match data_component (node_data node) with
      | None => newPropEdges
      | Some c =>
          let component := h !!! c in
          foldl (λ newPropEdges prop,
            foldl (λ newPropEdges ref,
              newPropEdges ++
                propRefEdges currentPropEdges currentStateNodes currentPropNodes
                  component prop ref)
              newPropEdges (references prop))
            newPropEdges (props component)
      end)
    [] nodes.

(** The first loop over [components] in the layout effect: one edge per
    [children] entry. *)
Definition childEdge (h : heap) (component child : loc) : Edge :=
  {| edge_id := dash (idOf h component) (idOf h child);
     edge_source := idOf h component;
     edge_target := idOf h child;
     edge_style := None;
     edge_animated := false;
     edge_zIndex := 50;
     edge_markerEnd := {| marker_type := ArrowClosed; marker_color := None |};
     edge_data := None;
     edge_sourceHandle := None;
     edge_selectable := Some false |}.

(** The second loop: one edge per [falseChildren] entry. *)
Definition falseChildEdge (h : heap) (component child : loc) : Edge :=
  {| edge_id := dash (idOf h component) (idOf h child);
     edge_source := idOf h component;
     edge_target := idOf h child;
     edge_style := None;
     edge_animated := true;
     edge_zIndex := 50;
     edge_markerEnd := {| marker_type := ArrowClosed; marker_color := None |};
     edge_data := None;
     edge_sourceHandle := None;
     edge_selectable := None |}.

Definition childEdges (h : heap) (components : list loc) (newEdges : list Edge)
  : list Edge :=
  foldl (λ newEdges component,
    foldl (λ newEdges child, newEdges ++ [childEdge h component child])
      newEdges (children (h !!! component)))
    newEdges components.

Definition falseChildEdges (h : heap) (components : list loc)
    (newEdges : list Edge) : list Edge :=
  foldl (λ newEdges component,
    foldl (λ newEdges child, newEdges ++ [falseChildEdge h component child])
      newEdges (falseChildren (h !!! component)))
    newEdges components.

(** The value passed to [setComponentEdges]. *)
Definition componentEdges (h : heap) (components : list loc) : list Edge :=
  falseChildEdges h components (childEdges h components []).

(** ** The traversal API of [HookExtractor] *)

(** A [forEach] whose body may fail to return: the loop stops at the first
    iteration that does not return. *)
Fixpoint forEachM {S A : Type} (body : S → A → option S) (s : S) (l : list A)
  : option S :=
  match l with
  | [] => Some s
  | x :: l' =>
      match body s x with
      | None => None
      | Some s' => forEachM body s' l'
      end
  end.

(** The state of one traversal call: the visited-id set and the components
    handed to [visitFn] so far, in call order. *)
Record VisitState := {
  visitedIds : gset string;
  calls : list loc;
}.

(** Modelled from the spec: [visitDecendent] of [module/HookExtractor] is
    not among the sources.  The spec (4.4) has it apply [visitFn] to every
    component reachable from [component] via [children], each once, keeping a
    visited-id set for the call: a child whose id is in the set is neither
    re-entered nor re-emitted, any other child is added to the set, emitted
    and entered.  The start component is not emitted for itself: what is
    visited are descendants ([countDecendent] counts them, [findRoots] takes
    the visited components for non-roots).  Nor is it marked beforehand: on
    the spec's cycle A <-> B, [visitFn] is called on A as well as on B, A
    being reached again through [children].  [fuel] bounds the depth of the
    recursion. *)
Fixpoint visit (fuel : nat) (h : heap) (st : VisitState) (component : loc)
  : option VisitState :=
  match fuel with
  | 0 => None
  | S fuel' =>
      forEachM (λ st child,
        if bool_decide (idOf h child ∈ visitedIds st) then Some st
        else
          visit fuel' h
            {| visitedIds := {[idOf h child]} ∪ visitedIds st;
               calls := calls st ++ [child] |}
            child)
        st (kids h component)
  end.

(** Enough fuel for any traversal of [h] (see [visit_terminates]). *)
Definition visitFuel (h : heap) : nat := S (S (length h)).

(** The arguments [visitFn] is called with by [visitDecendent(component,
    visitFn)], in call order. *)
Definition visitDecendent (h : heap) (component : loc) : list loc :=
  match visit (visitFuel h) h {| visitedIds := ∅; calls := [] |} component with
  | Some st => calls st
  | None => []
  end.

(** Modelled from the spec: [countDecendent] of [module/HookExtractor] is
    not among the sources.  The spec (4.4) has it return the number of
    distinct descendants reachable via [children], under the same rule:
    one count per call of [visitFn]. *)
Definition countDecendent (h : heap) (component : loc) : nat :=
  length (visitDecendent h component).

(** ** [MainView.tsx]: roots *)

(** The first loop of [findRoots], from an array [visited] of ids (tested
    with [includes]). *)
Definition markAll (h : heap) (visited : list string) (components : list loc)
  : list string :=
  foldl (λ (visited : list string) component,
    if bool_decide (idOf h component ∈ visited) then visited
    else
      foldl (λ visited child, visited ++ [idOf h child])
        visited (visitDecendent h component))
    visited components.

(** [findRoots]: the components whose id the first loop did not push. *)
Definition findRoots (h : heap) (components : list loc) : list loc :=
  let visited := markAll h [] components in
  foldl (λ roots component,
    if bool_decide (idOf h component ∉ visited) then roots ++ [component]
    else roots)
    [] components.

(** ** [MainView.tsx]: the layout effect *)

(** [Array.prototype.sort(compareFn)]: a stable sort; [x] moves behind [y]
    only when [compareFn(x, y) > 0]. *)
Fixpoint sortInsert {A : Type} (compareFn : A → A → Z) (x : A) (l : list A)
  : list A :=
  match l with
  | [] => [x]
  | y :: l' =>
      if (0 <? compareFn x y)%Z then y :: sortInsert compareFn x l'
      else x :: y :: l'
  end.

Definition sort {A : Type} (compareFn : A → A → Z) (l : list A) : list A :=
  foldr (sortInsert compareFn) [] l.

(** [(a, b) => extractor.countDecendent(b) - extractor.countDecendent(a)] *)
Definition byDecendents (h : heap) (a b : loc) : Z :=
  (Z.of_nat (countDecendent h b) - Z.of_nat (countDecendent h a))%Z.

Definition baseWidth : Z := 25.

(** What the closure of the effect assigns: the graph (whose [children]
    arrays [sort] reorders in place), [newNodes], [index] and [maxLevel]. *)
Record LayoutState := {
  graph : heap;
  newNodes : list Node;
  index : nat;
  maxLevel : nat;
}.

Definition componentMark (h : heap) (node : loc) (level index : nat) : Node :=
  {| node_id := idOf h node;
     node_type := "component";
     node_parentId := None;
     node_zIndex := -100;
     node_transition := defaultAnimationStyle;
     node_data :=
       {| data_label := comp_name (h !!! node);
          data_level := Some level;
          data_index := Some index;
          data_hasState := Some (bool_decide (0 < length (states (h !!! node))));
          data_hasProps := Some (bool_decide (0 < length (props (h !!! node))));
          data_component := Some node;
          data_baseWidth := Some baseWidth |};
     node_position := {| pos_x := 0; pos_y := 0 |} |}.

(** [target.data.level = Math.max(targetLevel, level)] *)
Definition raiseLevel (target : Node) (level : nat) : Node :=
  {| node_id := node_id target;
     node_type := node_type target;
     node_parentId := node_parentId target;
     node_zIndex := node_zIndex target;
     node_transition := node_transition target;
     node_data :=
       {| data_label := data_label (node_data target);
          data_level :=
            Some (Nat.max (default 0 (data_level (node_data target))) level);
          data_index := data_index (node_data target);
          data_hasState := data_hasState (node_data target);
          data_hasProps := data_hasProps (node_data target);
          data_component := data_component (node_data target);
          data_baseWidth := data_baseWidth (node_data target) |};
     node_position := node_position target |}.

(** [c.children = ks], every other field kept. *)
Definition withChildren (c : ComponentNode) (ks : list loc) : ComponentNode :=
  {| comp_id := comp_id c; comp_name := comp_name c; props := props c;
     states := states c; effects := effects c; children := ks;
     falseChildren := falseChildren c |}.

(** [node.children.sort(...)]: the array of the component is reordered in
    place. *)
Definition sortChildren (h : heap) (node : loc) : heap :=
  <[node := withChildren (h !!! node) (sort (byDecendents h) (kids h node))]> h.

(** The statements of [convertComponentToMark] before its [forEach]. *)
Definition enterMark (node : loc) (level : nat) (s : LayoutState) : LayoutState :=
  let h := graph s in
  let s1 :=
    match list_find (λ n, node_id n = idOf h node) (newNodes s) with
    | None =>
        {| graph := h;
           newNodes := newNodes s ++ [componentMark h node level (index s)];
           index := S (index s);
           maxLevel := maxLevel s |}
    | Some (i, target) =>
        {| graph := h;
           newNodes := <[i := raiseLevel target level]> (newNodes s);
           index := index s;
           maxLevel := maxLevel s |}
    end in
  {| graph := sortChildren h node;
     newNodes := newNodes s1;
     index := index s1;
     maxLevel := Nat.max (maxLevel s1) level |}.

(** [convertComponentToMark(node, level)].  The [forEach] walks the array
    [node.children] itself: index [k] is read from the graph as it is when
    the iteration reaches it.  The recursion has no visited check; [fuel]
    bounds its depth. *)
Fixpoint convertComponentToMark (fuel : nat) (node : loc) (level : nat)
    (s : LayoutState) : option LayoutState :=
  match fuel with
  | 0 => None
  | S fuel' =>
      let s1 := enterMark node level s in
      forEachM (λ s k,
        match kids (graph s) node !! k with
        | None => Some s
        | Some child => convertComponentToMark fuel' child (S level) s
        end)
        s1 (seq 0 (length (kids (graph s1) node)))
  end.

(** The first part of the layout effect: the roots are found, then
    converted in turn.  (The rest of the effect positions the marks and
    builds [componentEdges]; it assigns to the marks only.) *)
Definition layoutMarks (fuel : nat) (h : heap) (components : list loc)
  : option LayoutState :=
  let rootComponents := findRoots h components in
  forEachM (λ s root, convertComponentToMark fuel root 0 s)
    {| graph := h; newNodes := []; index := 0; maxLevel := 0 |}
    rootComponents.

(** ** Well-formed graphs *)

(** Every reference held by a component names an object of the arena. *)
Definition closed (h : heap) : Prop :=
  ∀ c child, child ∈ children (h !!! c) ++ falseChildren (h !!! c) →
    child < length h.

(** The spec's id uniqueness, for components. *)
Definition uniqueIds (h : heap) : Prop := NoDup (comp_id <$> h).

(** [child] is one of [parent.children]. *)
Definition childOf (h : heap) (parent child : loc) : Prop := child ∈ kids h parent.

(** [d] is reachable from [c] by one or more [children] steps. *)
Definition descendant (h : heap) (c d : loc) : Prop := tc (childOf h) c d.

(** ** The serializer *)

#[local] Unset Elimination Schemes.
(** JSON values of the shape the graph is rendered to. *)
Inductive Json :=
  | JString (s : string)
  | JArray (items : list Json)
  | JObject (fields : list (string * Json)).
#[local] Set Elimination Schemes.

(** Modelled from the spec: [DataProps] of [types/data] is not among the
    sources.  It is what [App.tsx] casts the parsed output to, the "graph of
    ids" of the spec (4.5, 6): a component with its [children] and
    [falseChildren] given as id references. *)
Record ComponentData := {
  data_id : string;
  data_name : string;
  data_children : list string;
  data_falseChildren : list string;
  data_props : list PropNode;
  data_states : list StateNode;
  data_effects : list EffectNode;
}.

Record DataProps := { componentList : list ComponentData }.

(** The graph of ids of the in-memory graph. *)
Definition componentData (h : heap) (c : loc) : ComponentData :=
  {| data_id := comp_id (h !!! c);
     data_name := comp_name (h !!! c);
     data_children := idOf h <$> children (h !!! c);
     data_falseChildren := idOf h <$> falseChildren (h !!! c);
     data_props := props (h !!! c);
     data_states := states (h !!! c);
     data_effects := effects (h !!! c) |}.

Definition dataOf (h : heap) (components : list loc) : DataProps :=
  {| componentList := componentData h <$> components |}.

Definition idsJson (ids : list string) : Json := JArray (JString <$> ids).

Definition propJson (p : PropNode) : Json :=
  JObject [ ("id", JString (prop_id p)); ("name", JString (prop_name p));
            ("references", idsJson (references p)) ].

Definition stateJson (st : StateNode) : Json :=
  JObject [ ("id", JString (state_id st)); ("name", JString (state_name st)) ].

Definition effectJson (e : EffectNode) : Json :=
  JObject [ ("id", JString (effect_id e));
            ("dependencyIds", idsJson (dependencyIds e));
            ("handlingTargetIds", idsJson (handlingTargetIds e)) ].

(** Modelled from the spec: [toJson] of [module/HookExtractor] is not among
    the sources.  The spec (4.5, 6) has it render [componentList] as the object
    [{ "componentList": [ { "id", "name", "children", "falseChildren",
    "props", "states", "effects" }, ... ] }] with [children] and
    [falseChildren] as arrays of ids.  The value below is the one whose
    [JSON.stringify] text [toJson] returns and which [JSON.parse] reads back
    from that text: it holds strings, arrays and objects with distinct keys
    only. *)
Definition componentJson (h : heap) (c : loc) : Json :=
  JObject [ ("id", JString (comp_id (h !!! c)));
            ("name", JString (comp_name (h !!! c)));
            ("children", idsJson (idOf h <$> children (h !!! c)));
            ("falseChildren", idsJson (idOf h <$> falseChildren (h !!! c)));
            ("props", JArray (propJson <$> props (h !!! c)));
            ("states", JArray (stateJson <$> states (h !!! c)));
            ("effects", JArray (effectJson <$> effects (h !!! c))) ].

Definition toJson (h : heap) (components : list loc) : Json :=
  JObject [ ("componentList", JArray (componentJson h <$> components)) ].

(** Re-serializing a graph of ids, in the same format. *)
Definition dataJson (d : DataProps) : Json :=
  JObject [ ("componentList",
             JArray ((λ c,
               JObject [ ("id", JString (data_id c));
                         ("name", JString (data_name c));
                         ("children", idsJson (data_children c));
                         ("falseChildren", idsJson (data_falseChildren c));
                         ("props", JArray (propJson <$> data_props c));
                         ("states", JArray (stateJson <$> data_states c));
                         ("effects", JArray (effectJson <$> data_effects c)) ])
               <$> componentList d)) ].

(** Reading a parsed value as [DataProps]: [o.key] is the value of the
    first field named [key]. *)
Definition getField (key : string) (j : Json) : option Json :=
  match j with
  | JObject fields =>
      snd <$> List.find (λ kv, bool_decide (fst kv = key)) fields
  | _ => None
  end.

Definition asString (j : Json) : option string :=
  match j with JString s => Some s | _ => None end.

Definition asArray (j : Json) : option (list Json) :=
  match j with JArray items => Some items | _ => None end.

Definition readString (key : string) (j : Json) : option string :=
  getField key j ≫= asString.

Definition readList {A : Type} (read : Json → option A) (key : string) (j : Json)
  : option (list A) :=
  items ← getField key j ≫= asArray;
  mapM read items.

Definition readProp (j : Json) : option PropNode :=
  i ← readString "id" j;
  n ← readString "name" j;
  r ← readList asString "references" j;
  Some {| prop_id := i; prop_name := n; references := r |}.

Definition readState (j : Json) : option StateNode :=
  i ← readString "id" j;
  n ← readString "name" j;
  Some {| state_id := i; state_name := n |}.

Definition readEffect (j : Json) : option EffectNode :=
  i ← readString "id" j;
  d ← readList asString "dependencyIds" j;
  t ← readList asString "handlingTargetIds" j;
  Some {| effect_id := i; dependencyIds := d; handlingTargetIds := t |}.

Definition readComponent (j : Json) : option ComponentData :=
  i ← readString "id" j;
  n ← readString "name" j;
  ks ← readList asString "children" j;
  fs ← readList asString "falseChildren" j;
  ps ← readList readProp "props" j;
  ss ← readList readState "states" j;
  es ← readList readEffect "effects" j;
  Some {| data_id := i; data_name := n; data_children := ks;
          data_falseChildren := fs; data_props := ps; data_states := ss;
          data_effects := es |}.

Definition fromJson (j : Json) : option DataProps :=
  cs ← readList readComponent "componentList" j;
  Some {| componentList := cs |}.

(** ** The id convention *)

(** The kind tag of an id [<kind>-<n>], and what follows it. *)
Fixpoint kindTag (s : string) : string :=
  match s with
  | EmptyString => EmptyString
  | String a s' => if Ascii.eqb a "-"%char then EmptyString else String a (kindTag s')
  end.

Fixpoint kindSuffix (s : string) : string :=
  match s with
  | EmptyString => EmptyString
  | String a s' => if Ascii.eqb a "-"%char then s else kindSuffix s'
  end.

(** Modelled from the spec: the reference to the setter paired with a state
    is built in [module/HookExtractor], not among the sources.  The spec (3)
    has it "addressable by substituting the id's kind tag with a setter tag
    while keeping the same suffix". *)
Definition setterOf (stateId : string) : string :=
  "setter" +:+ kindSuffix stateId.

Fixpoint digits (s : string) : bool :=
  match s with
  | EmptyString => true
  | String a s' => bool_decide (is_Some (Ascii.is_nat a)) && digits s'
  end.

(** [s] is [component-<n>] for a decimal numeral [<n>]. *)
Definition isComponentId (s : string) : bool :=
  startsWith s "component-" && digits (slice 10 s).

(** Modelled from the spec: the graph builder of [module/HookExtractor] is
    not among the sources; these are the invariants the spec states of the
    graph it hands to the front-end: references name components of the graph,
    ids are unique (8) and follow the convention [component-<n>] (6), and
    [children] and [falseChildren] of a component are disjoint (3, 8). *)
Record ExtractionGraph (h : heap) (components : list loc) : Prop := {
  eg_closed : closed h;
  eg_unique : uniqueIds h;
  eg_components : ∀ c, c ∈ components → c < length h;
  eg_ids : ∀ c, c < length h → isComponentId (idOf h c) = true;
  eg_disjoint : ∀ c, c < length h →
    ∀ x, x ∈ children (h !!! c) → x ∉ falseChildren (h !!! c);
}.

(** What a run [st ~> st'] of the traversal loop over the children [l] of
    [c] has done: [new] are the components emitted, in call order. *)
Record visited_by (h : heap) (c : loc) (l : list loc) (st st' : VisitState)
    (new : list loc) : Prop := {
  vb_calls : calls st' = calls st ++ new;
  vb_ids : visitedIds st' = visitedIds st ∪ list_to_set (idOf h <$> new);
  vb_nodup : NoDup (idOf h <$> new);
  vb_fresh : ∀ x, x ∈ new → idOf h x ∉ visitedIds st;
  vb_sound : ∀ x, x ∈ new → descendant h c x;
  vb_kids : ∀ k, k ∈ l → idOf h k ∈ visitedIds st';
  vb_closed : ∀ x, x ∈ new → ∀ k, k ∈ kids h x → idOf h k ∈ visitedIds st';
}.

(** The ids a traversal can meet: those of the arena, and the id of the
    blank component a reference outside the arena reads as. *)
Definition allIds (h : heap) : gset string :=
  list_to_set (comp_id <$> h) ∪ {[""]}.

(** [visited] holds, with the id of a component, the ids of all its
    descendants. *)
Definition downClosed (h : heap) (visited : list string) : Prop :=
  ∀ y x, y < length h → idOf h y ∈ visited → descendant h y x →
         idOf h x ∈ visited.

(** [h'] is [h] up to the order of the [children] arrays. *)
Record sameFrame (h h' : heap) : Prop := {
  sf_length : length h' = length h;
  sf_id : ∀ c, comp_id (h' !!! c) = comp_id (h !!! c);
  sf_name : ∀ c, comp_name (h' !!! c) = comp_name (h !!! c);
  sf_props : ∀ c, props (h' !!! c) = props (h !!! c);
  sf_states : ∀ c, states (h' !!! c) = states (h !!! c);
  sf_effects : ∀ c, effects (h' !!! c) = effects (h !!! c);
  sf_falseChildren : ∀ c, falseChildren (h' !!! c) = falseChildren (h !!! c);
  sf_children : ∀ c, children (h' !!! c) ≡ₚ children (h !!! c);
}.

(** The layout leaves the graph as it found it. *)
Definition layoutReadOnly (h : heap) (components : list loc) : Prop :=
  ∀ fuel s', layoutMarks fuel h components = Some s' → graph s' = h.

(** No cycle can be reached from [c]. *)
Definition noCycleBelow (h : heap) (c : loc) : Prop :=
  ∀ d, rtc (childOf h) c d → ¬ descendant h d d.

(** [ks] is in the order [sort] leaves [ks0] in: by the number of
    descendants, largest first, entries with equal numbers in the order
    they have in [ks0]. *)
Definition sortedFrom (h : heap) (ks0 ks : list loc) : Prop :=
  ks ≡ₚ ks0 ∧
  StronglySorted (λ a b, countDecendent h b ≤ countDecendent h a) ks ∧
  ∀ n, filter (λ x, countDecendent h x = n) ks =
       filter (λ x, countDecendent h x = n) ks0.

(** Relative to the graph [h0] the layout started on: the [children] of
    [c] are now in sorted order, and every [children] array of [h] is either
    untouched or in sorted order. *)
Definition settled (h0 h : heap) (c : loc) : Prop :=
  kids h c = sort (byDecendents h0) (kids h0 c).

Definition tidy (h0 h : heap) : Prop :=
  sameFrame h0 h ∧ ∀ c, kids h c = kids h0 c ∨ settled h0 h c.

(** A checker for [closed]. *)
Definition closedb (h : heap) : bool :=
  forallb (λ c, forallb (λ k, k <? length h) (children c ++ falseChildren c)) h.

(** A checker for [acyclic], below. *)
Definition acyclicb (h : heap) : bool :=
  forallb (λ c, negb (bool_decide (c ∈ visitDecendent h c))) (seq 0 (length h)).

(** No component is its own descendant. *)
Definition acyclic (h : heap) : Prop := ∀ c, ¬ descendant h c c.

(** Root completeness as the spec words it: every component of the list is
    a root or a descendant of a root, and not both. *)
Definition rootsComplete (h : heap) (components : list loc) : Prop :=
  ∀ c, c ∈ components →
    (c ∈ findRoots h components ∧
       ¬ ∃ r, r ∈ findRoots h components ∧ descendant h r c) ∨
    ((c ∉ findRoots h components) ∧
       ∃ r, r ∈ findRoots h components ∧ descendant h r c).

(** ** Sample inputs *)

Definition component (i n : string) (ks fs : list loc) : ComponentNode :=
  {| comp_id := i; comp_name := n; props := []; states := []; effects := [];
     children := ks; falseChildren := fs |}.

(** The spec's cycle: A is a child of B and B a child of A. *)
Definition cyclicGraph : heap :=
  [ component "component-0" "A" [1] [];
    component "component-1" "B" [0] [] ].

(** Root has the leaf A before B, and B has a child. *)
Definition reorderGraph : heap :=
  [ component "component-0" "Root" [1; 2] [];
    component "component-1" "A" [] [];
    component "component-2" "B" [3] [];
    component "component-3" "C" [] [] ].

(** A component that renders itself and is rendered by nobody else. *)
Definition selfLoopGraph : heap :=
  [ component "component-0" "Tree" [0] [] ].

(** Root renders A and B, which both render C. *)
Definition diamondGraph : heap :=
  [ component "component-0" "Root" [1; 2] [];
    component "component-1" "A" [3] [];
    component "component-2" "B" [3] [];
    component "component-3" "C" [] [] ].

(** Root renders A, and A and B render each other. *)
Definition lassoGraph : heap :=
  [ component "component-0" "Root" [1] [];
    component "component-1" "A" [2] [];
    component "component-2" "B" [1] [] ].

(** An effect that calls the callback prop it also lists as a dependency:
    [useEffect(() => { onChange(value) }, [onChange, value])]. *)
Definition callbackEffect : EffectNode :=
  {| effect_id := "effect-0";
     dependencyIds := ["prop-0"; "prop-1"];
     handlingTargetIds := ["prop-0"] |}.

Definition callbackComponent : ComponentNode :=
  {| comp_id := "component-0"; comp_name := "Field";
     props := [ {| prop_id := "prop-0"; prop_name := "onChange"; references := [] |};
                {| prop_id := "prop-1"; prop_name := "value"; references := [] |} ];
     states := []; effects := [callbackEffect];
     children := []; falseChildren := [] |}.

(** A component whose prop [onSave] is bound to the setter reference
    [ref], its expanded mark, and the node of the state [state-1]. *)
Definition setterGraph (ref : string) : heap :=
  [ {| comp_id := "component-0"; comp_name := "Form";
       props := [ {| prop_id := "prop-0"; prop_name := "onSave";
                     references := [ref] |} ];
       states := []; effects := []; children := []; falseChildren := [] |} ].

Definition expandedForm : Node :=
  {| node_id := "component-0"; node_type := "expanded"; node_parentId := None;
     node_zIndex := -100; node_transition := defaultAnimationStyle;
     node_data :=
       {| data_label := "Form"; data_level := Some 0; data_index := Some 0;
          data_hasState := Some false; data_hasProps := Some true;
          data_component := Some 0; data_baseWidth := Some baseWidth |};
     node_position := {| pos_x := 10; pos_y := 10 |} |}.

Definition stateNode1 : Node :=
  {| node_id := "state-1"; node_type := "state";
     node_parentId := Some "component-1";
     node_zIndex := -100; node_transition := defaultAnimationStyle;
     node_data :=
       {| data_label := "draft"; data_level := None; data_index := None;
          data_hasState := None; data_hasProps := None;
          data_component := None; data_baseWidth := None |};
     node_position := {| pos_x := 300; pos_y := 25 |} |}.

(** App renders Page and keeps Modal as a value. *)
Definition sampleGraph : heap :=
  [ component "component-0" "App" [1] [2];
    component "component-1" "Page" [] [];
    component "component-2" "Modal" [] [] ].

(** App renders Modal and also keeps it as a value. *)
Definition overlapGraph : heap :=
  [ component "component-0" "App" [1] [1];
    component "component-1" "Modal" [] [] ].

(** ** Statements about the component edges *)



(** ** Statements about the edges *)

(** No edge of the result of [convertEffectEdges]
    leaves an effect for one of its dependencies, and none enters an effect
    from one of its handling targets. *)
Definition noEdgeAgainstTheFlow (c : ComponentNode) : Prop :=
  ∀ E x, E ∈ effects c → x ∈ convertEffectEdges c →
    ¬ (edge_source x = effect_id E ∧ edge_target x ∈ dependencyIds E) ∧
    ¬ (edge_target x = effect_id E ∧ edge_source x ∈ handlingTargetIds E).

(** The target node of a prop reference is missing from the supplied
    lists: the state node of a setter reference, the state or prop node of
    any other reference. *)
Definition unresolvedRef (currentStateNodes currentPropNodes : list Node)
    (ref : string) : Prop :=
  if startsWith ref "setter"
  then (setterNodeId ref ∉ node_id <$> currentStateNodes)
  else (ref ∉ node_id <$> currentStateNodes) ∧ (ref ∉ node_id <$> currentPropNodes).

(** The edges [convertPropEdges] pushes for one node. *)
Definition nodePropEdges (h : heap) (currentPropEdges : list Edge)
    (currentStateNodes currentPropNodes : list Node) (node : Node) : list Edge :=
  if bool_decide (node_type node ≠ "expanded") then []
  else
    match data_component (node_data node) with
    | None => []
    | Some c =>
        props (h !!! c) ≫= (λ prop,
          references prop ≫=
            propRefEdges currentPropEdges currentStateNodes currentPropNodes
              (h !!! c) prop)
    end.

(** * The rest of [MainView]

    The nodes of the flow carry more than the fields read so far: an effect
    node has a [sourcePosition], and the layout adds [initialPosition],
    [translatedPosition] and [size] to the data of a component mark.  A
    [FlowNode] is a [Node] with these fields; a field the program has not
    assigned is [None]. *)

Inductive Position := PositionLeft | PositionTop | PositionRight | PositionBottom.

Record MarkSize := { size_width : Z; size_height : Z }.

Record FlowNode := {
  base : Node;
  sourcePosition : option Position;
  data_initialPosition : option XYPosition;
  data_translatedPosition : option XYPosition;
  data_size : option MarkSize;
}.

(** A node with none of the additional fields. *)
Definition plainNode (n : Node) : FlowNode :=
  {| base := n; sourcePosition := None; data_initialPosition := None;
     data_translatedPosition := None; data_size := None |}.

Definition topMargin : Z := 25.
Definition baseExpadnedWidth : Z := 325.
Definition innerMarkGap : Z := 45.

(** ** The nodes inside an expanded component *)

(** The data of a prop, state or effect node: [{ label }]. *)
Definition labelData (label : string) : NodeData :=
  {| data_label := label; data_level := None; data_index := None;
     data_hasState := None; data_hasProps := None; data_component := None;
     data_baseWidth := None |}.

Definition innerNode (type : string) (component : ComponentNode)
    (nid label : string) (x : Z) (i : nat) : Node :=
  {| node_id := nid;
     node_type := type;
     node_parentId := Some (comp_id component);
     node_zIndex := -100;
     node_transition := defaultAnimationStyle;
     node_data := labelData label;
     node_position := {| pos_x := x; pos_y := topMargin + Z.of_nat i * innerMarkGap |} |}.

(** [convertPropNodes]: [component.props.map((prop, i) => ...)] *)
Definition convertPropNodes (component : ComponentNode) : list FlowNode :=
  imap (λ i prop,
    plainNode (innerNode "prop" component (prop_id prop) (prop_name prop) 0 i))
    (props component).

(** [convertStateNodes] *)
Definition convertStateNodes (component : ComponentNode) : list FlowNode :=
  imap (λ i state,
    plainNode (innerNode "state" component (state_id state) (state_name state) 300 i))
    (states component).

(** [convertEffectNodes]: the label of an effect node is the effect id. *)
Definition convertEffectNodes (component : ComponentNode) : list FlowNode :=
  imap (λ i effect,
    {| base := innerNode "effect" component (effect_id effect) (effect_id effect) 125 i;
       sourcePosition := Some PositionRight;
       data_initialPosition := None; data_translatedPosition := None;
       data_size := None |})
    (effects component).

(** [removeEffectNodes]: a copy of every node whose id is the id of no
    effect of [component]. *)
Definition removeEffectNodes (component : ComponentNode)
    (currentEffectNodes : list FlowNode) : list FlowNode :=
  foldl (λ updateEffectNodes effect,
    match List.find (λ target, bool_decide (effect_id target = node_id (base effect)))
            (effects component) with
    | None => updateEffectNodes ++ [effect]
    | Some _ => updateEffectNodes
    end)
    [] currentEffectNodes.

(** [removePropNodes] *)
Definition removePropNodes (component : ComponentNode)
    (currentPropNodes : list FlowNode) : list FlowNode :=
  foldl (λ updatePropNodes n,
    match List.find (λ target, bool_decide (prop_id target = node_id (base n)))
            (props component) with
    | None => updatePropNodes ++ [n]
    | Some _ => updatePropNodes
    end)
    [] currentPropNodes.

(** [removeStateNodes] *)
Definition removeStateNodes (component : ComponentNode)
    (currentStateNodes : list FlowNode) : list FlowNode :=
  foldl (λ updateStateNodes state,
    match List.find (λ target, bool_decide (state_id target = node_id (base state)))
            (states component) with
    | None => updateStateNodes ++ [state]
    | Some _ => updateStateNodes
    end)
    [] currentStateNodes.

(** [edge.data?.component], [edge.data?.propRoot], [edge.data?.refRoot] *)
Definition edgeComponent (edge : Edge) : option string :=
  edge_data edge ≫= edata_component.
Definition edgePropRoot (edge : Edge) : option string :=
  edge_data edge ≫= edata_propRoot.
Definition edgeRefRoot (edge : Edge) : option string :=
  edge_data edge ≫= edata_refRoot.

(** [removeEffectEdges]: a copy of every edge whose [data.component] is not
    the id of [component]. *)
Definition removeEffectEdges (component : ComponentNode)
    (currentEffectEdges : list Edge) : list Edge :=
  foldl (λ updatedEffectEdges edge,
    if bool_decide (edgeComponent edge ≠ Some (comp_id component))
    then updatedEffectEdges ++ [edge]
    else updatedEffectEdges)
    [] currentEffectEdges.

(** [removePropEdges]: a copy of every edge of which neither [data.propRoot]
    nor [data.refRoot] is the id of [component]. *)
Definition removePropEdges (component : ComponentNode)
    (currentPropEdges : list Edge) : list Edge :=
  foldl (λ updatedPropEdges edge,
    if bool_decide (edgePropRoot edge ≠ Some (comp_id component)) &&
       bool_decide (edgeRefRoot edge ≠ Some (comp_id component))
    then updatedPropEdges ++ [edge]
    else updatedPropEdges)
    [] currentPropEdges.

(** The node is the mark of a component that has the id of [c]. *)
Definition markOf (h : heap) (c : ComponentNode) (node : Node) : bool :=
  match data_component (node_data node) with
  | Some k => bool_decide (comp_id (h !!! k) = comp_id c)
  | None => false
  end.

(** ** Positions of the component marks *)

Definition levelOf (n : FlowNode) : option nat := data_level (node_data (base n)).
Definition indexOf (n : FlowNode) : option nat := data_index (node_data (base n)).

(** [node.position = p] and [node.type = t], every other field kept. *)
Definition withPosition (n : Node) (p : XYPosition) : Node :=
  {| node_id := node_id n; node_type := node_type n;
     node_parentId := node_parentId n; node_zIndex := node_zIndex n;
     node_transition := node_transition n; node_data := node_data n;
     node_position := p |}.

Definition withType (n : Node) (t : string) : Node :=
  {| node_id := node_id n; node_type := t;
     node_parentId := node_parentId n; node_zIndex := node_zIndex n;
     node_transition := node_transition n; node_data := node_data n;
     node_position := node_position n |}.

(** The body of [levelNodes.forEach((node, i) => ...)] in the layout
    effect. *)
Definition placeMark (level i : nat) (n : FlowNode) : FlowNode :=
  let p := {| pos_x := 10 + 200 * Z.of_nat level;
              pos_y := 10 + 100 * Z.of_nat i |} in
  {| base := withPosition (base n) p;
     sourcePosition := sourcePosition n;
     data_initialPosition := Some p;
     data_translatedPosition := Some {| pos_x := 0; pos_y := 0 |};
     data_size := data_size n |}.

(** [newNodes.filter((node) => node.data.level === level).forEach(...)]:
    the marks of the level are updated where they stand in [newNodes]; [i]
    counts the marks of the level met so far. *)
Fixpoint placeLevel (level i : nat) (nodes : list FlowNode) : list FlowNode :=
  match nodes with
  | [] => []
  | n :: nodes' =>
      if bool_decide (levelOf n = Some level)
      then placeMark level i n :: placeLevel level (S i) nodes'
      else n :: placeLevel level i nodes'
  end.

(** [for (let level = 0; level <= maxLevel; level++) { ... }].  The counters
    [expandedLevels.current] are a map from levels to numbers; a level that was
    never assigned reads as [undefined]. *)
Definition placeLevels (maxLevel : nat) (nodes : list FlowNode)
    (expandedLevels : gmap nat Z) : list FlowNode * gmap nat Z :=
  foldl (λ acc level,
    (placeLevel level 0 acc.1, <[level := 0%Z]> acc.2))
    (nodes, expandedLevels) (seq 0 (S maxLevel)).

(** What the layout effect hands to [setComponentNodes] and
    [setComponentEdges], with the counters and the graph it leaves.  The
    component edges are built after the marks, from the [children] arrays as
    the conversion has sorted them. *)
Record Layout := {
  layout_nodes : list FlowNode;
  layout_levels : gmap nat Z;
  layout_edges : list Edge;
  layout_graph : heap;
}.

Definition layoutEffect (fuel : nat) (h : heap) (components : list loc)
    (expandedLevels : gmap nat Z) : option Layout :=
  s ← layoutMarks fuel h components;
  let placed := placeLevels (maxLevel s) (plainNode <$> newNodes s) expandedLevels in
  Some {| layout_nodes := placed.1;
          layout_levels := placed.2;
          layout_edges := componentEdges (graph s) components;
          layout_graph := graph s |}.

(** ** Expanding and shrinking a mark *)

(** [calcNewPosition]: reading [x] of a position that was never assigned
    throws. *)
Definition calcNewPosition (node : FlowNode) : option XYPosition :=
  initialPosition ← data_initialPosition node;
  translatedPosition ← data_translatedPosition node;
  Some {| pos_x := pos_x initialPosition + pos_x translatedPosition;
          pos_y := pos_y initialPosition + pos_y translatedPosition |}.

(** [a > b] and [expandedLevels.current[level] === 0] on values that may be
    [undefined]: a comparison with [undefined] is false. *)
Definition gtNumber (a b : option nat) : bool :=
  match a, b with
  | Some x, Some y => bool_decide (y < x)
  | _, _ => false
  end.

Definition levelIsZero (expandedLevels : gmap nat Z) (level : option nat) : bool :=
  bool_decide (level ≫= (expandedLevels !!.) = Some 0%Z).

(** The height given to the expanded mark of a component. *)
Definition expandedHeight (component : ComponentNode) : Z :=
  Z.max
    (Z.max (Z.max (Z.of_nat (length (props component)))
                  (Z.of_nat (length (effects component))))
           (Z.of_nat (length (states component)))
     * innerMarkGap + 20)
    baseWidth.

Definition withSize (n : FlowNode) (size : MarkSize) : FlowNode :=
  {| base := base n; sourcePosition := sourcePosition n;
     data_initialPosition := data_initialPosition n;
     data_translatedPosition := data_translatedPosition n;
     data_size := Some size |}.

Definition retype (n : FlowNode) (t : string) : FlowNode :=
  {| base := withType (base n) t; sourcePosition := sourcePosition n;
     data_initialPosition := data_initialPosition n;
     data_translatedPosition := data_translatedPosition n;
     data_size := data_size n |}.

(** [{ ...node, position: p }] *)
Definition moved (n : FlowNode) (p : XYPosition) : FlowNode :=
  {| base := withPosition (base n) p; sourcePosition := sourcePosition n;
     data_initialPosition := data_initialPosition n;
     data_translatedPosition := data_translatedPosition n;
     data_size := data_size n |}.

(** [node.data.translatedPosition.x += dx; ....y += dy], then
    [node.position = calcNewPosition(node)]. *)
Definition translate (n : FlowNode) (dx dy : Z) : option FlowNode :=
  initialPosition ← data_initialPosition n;
  translatedPosition ← data_translatedPosition n;
  let t := {| pos_x := pos_x translatedPosition + dx;
              pos_y := pos_y translatedPosition + dy |} in
  Some {| base := withPosition (base n)
                    {| pos_x := pos_x initialPosition + pos_x t;
                       pos_y := pos_y initialPosition + pos_y t |};
          sourcePosition := sourcePosition n;
          data_initialPosition := Some initialPosition;
          data_translatedPosition := Some t;
          data_size := data_size n |}.

(** The two [if]s of the [map] callback of [expandComponent] and
    [shrinkComponent]: how far a mark other than the target is moved, as a
    multiple [sign] of the growth of the target.  The second [if] reads
    [targetNode.data.size.height], which throws when the target has no
    size. *)
Definition shift (expandedLevels : gmap nat Z) (targetNode node : FlowNode)
    (sign : Z) : option (Z * Z) :=
  let dx :=
    if levelIsZero expandedLevels (levelOf targetNode) &&
       gtNumber (levelOf node) (levelOf targetNode)
    then (sign * (baseExpadnedWidth - baseWidth))%Z else 0%Z in
  if bool_decide (levelOf node = levelOf targetNode) &&
     gtNumber (indexOf node) (indexOf targetNode)
  then size ← data_size targetNode;
       Some (dx, (sign * (size_height size - baseWidth))%Z)
  else Some (dx, 0%Z).

(** [expandComponent(targetNode, currentNodes)].  The data objects of the
    nodes are shared with the nodes passed in; the model gives the nodes as
    they are returned.  [None] stands for a [TypeError]. *)
Definition expandComponent (h : heap) (expandedLevels : gmap nat Z)
    (targetNode : FlowNode) (currentNodes : list FlowNode)
  : option (list FlowNode) :=
  c ← data_component (node_data (base targetNode));
  let component := h !!! c in
  let targetNode :=
    withSize (retype targetNode "expanded")
      {| size_width := baseExpadnedWidth; size_height := expandedHeight component |} in
  mapM (λ node,
    if bool_decide (node_id (base node) = node_id (base targetNode))
    then moved targetNode <$> calcNewPosition targetNode
    else
      d ← shift expandedLevels targetNode node 1%Z;
      translate node d.1 d.2)
    currentNodes.

(** [shrinkComponent(targetNode, currentNodes)] *)
Definition shrinkComponent (expandedLevels : gmap nat Z)
    (targetNode : FlowNode) (currentNodes : list FlowNode)
  : option (list FlowNode) :=
  let targetNode := retype targetNode "component" in
  mapM (λ node,
    if bool_decide (node_id (base node) = node_id (base targetNode))
    then moved targetNode <$> calcNewPosition targetNode
    else
      d ← shift expandedLevels targetNode node (-1)%Z;
      translate node d.1 d.2)
    currentNodes.

(** ** Statements about the marks *)

(** The marks have distinct ids; the mark at place [i] of [newNodes] has
    index [i], and [index] is the number of marks; every mark has a level, at
    most [maxLevel]. *)
Definition marksOk (s : LayoutState) : Prop :=
  NoDup (node_id <$> newNodes s) ∧
  index s = length (newNodes s) ∧
  ∀ i n, newNodes s !! i = Some n →
    data_index (node_data n) = Some i ∧
    ∃ l, data_level (node_data n) = Some l ∧ l ≤ maxLevel s.

(** The level of the mark with id [i], if there is one ([undefined] read
    as 0, as [Math.max] does not: every mark is given a level when made). *)
Definition markLevel (nodes : list Node) (i : string) : option nat :=
  (λ found, default 0 (data_level (node_data found.2))) <$>
    list_find (λ n, node_id n = i) nodes.

(** If [c] has a mark, each of its children has one, at a greater level. *)
Definition levelsOk (h0 : heap) (s : LayoutState) (c : loc) : Prop :=
  ∀ lc, markLevel (newNodes s) (idOf h0 c) = Some lc →
  ∀ d, childOf h0 c d →
    ∃ ld, markLevel (newNodes s) (idOf h0 d) = Some ld ∧ lc < ld.

(** Every mark is the mark of a component in [R]. *)
Definition marksWithin (h0 : heap) (R : loc → Prop) (s : LayoutState) : Prop :=
  ∀ n, n ∈ newNodes s →
    ∃ c, R c ∧ data_component (node_data n) = Some c ∧ node_id n = idOf h0 c ∧
         data_label (node_data n) = comp_name (h0 !!! c).

(** Reachable from a root by zero or more [children] steps. *)
Definition belowRoots (h : heap) (components : list loc) (c : loc) : Prop :=
  ∃ r, r ∈ findRoots h components ∧ rtc (childOf h) r c.

(** The number of marks of level [l] before place [p]. *)
Definition levelRank (nodes : list FlowNode) (l p : nat) : nat :=
  length (filter (λ o, o = Some l) (take p (levelOf <$> nodes))).

(** The step of the loop of [placeLevels]. *)
Definition placeStep (acc : list FlowNode * gmap nat Z) (level : nat)
  : list FlowNode * gmap nat Z :=
  (placeLevel level 0 acc.1, <[level := 0%Z]> acc.2).

(** ** Statements about expanding and shrinking *)

(** The node stands where [calcNewPosition] puts it. *)
Definition inPlace (n : FlowNode) : Prop :=
  calcNewPosition n = Some (node_position (base n)).

(** The size [expandComponent] gives the mark of [component]. *)
Definition expandedSize (component : ComponentNode) : MarkSize :=
  {| size_width := baseExpadnedWidth; size_height := expandedHeight component |}.

(** The target as [expandComponent] returns it, and as [shrinkComponent]
    returns it after that. *)
Definition expandedMark (h : heap) (c : loc) (targetNode : FlowNode) : FlowNode :=
  moved (withSize (retype targetNode "expanded") (expandedSize (h !!! c)))
    (node_position (base targetNode)).

Definition shrunkMark (h : heap) (c : loc) (targetNode : FlowNode) : FlowNode :=
  withSize (retype targetNode "component") (expandedSize (h !!! c)).

(** ** Sample marks *)

(** The marks of [diamondGraph] as the layout effect places them: Root, A,
    C (reached first through A) and B. *)
Definition diamondMarks : list FlowNode :=
  [ placeMark 0 0 (plainNode (componentMark diamondGraph 0 0 0));
    placeMark 1 0 (plainNode (componentMark diamondGraph 1 1 1));
    placeMark 2 0 (plainNode (componentMark diamondGraph 3 2 2));
    placeMark 1 1 (plainNode (componentMark diamondGraph 2 1 3)) ].

Definition diamondLevels : gmap nat Z :=
  <[2 := 0%Z]> (<[1 := 0%Z]> (<[0 := 0%Z]> ∅)).

(** The node of the state [state-1] of another component. *)
Definition draftNode : FlowNode := plainNode stateNode1.

(** The first prop node and the effect node of [callbackComponent]. *)
Definition onChangeNode : FlowNode :=
  plainNode (innerNode "prop" callbackComponent "prop-0" "onChange" 0 0).

Definition callbackEffectNode : FlowNode :=
  {| base := innerNode "effect" callbackComponent "effect-0" "effect-0" 125 0;
     sourcePosition := Some PositionRight;
     data_initialPosition := None; data_translatedPosition := None;
     data_size := None |}.


(** * Properties *)

(** ** Strings *)

Section JsStringFacts.

Lemma append_cons (a : Ascii.ascii) (s t : string) :
String a s +:+ t = String a (s +:+ t).
Proof. reflexivity. Qed.

Lemma append_nil_l (s : string) : "" +:+ s = s.
Proof. reflexivity. Qed.

Lemma append_nil_r (s : string) : s +:+ "" = s.
Proof. induction s as [|a s IH]; [done | by rewrite append_cons, IH]. Qed.


Lemma startsWith_spec (s pat : string) :
startsWith s pat = true ↔ ∃ t, s = pat +:+ t.
Proof.
revert s. induction pat as [|a pat IH]; intros s; simpl.
- split; [intros _; by exists s | done].
- destruct s as [|b s].
  + split; [done | intros [t Ht]; discriminate].
  + rewrite andb_true_iff, Ascii.eqb_eq, IH. split.
    * intros [-> [t ->]]. by exists t.
    * intros [t Ht]. rewrite append_cons in Ht. injection Ht as -> ->.
      split; [done | by exists t].
Qed.

Lemma startsWith_append (pat t : string) : startsWith (pat +:+ t) pat = true.
Proof. apply startsWith_spec. by exists t. Qed.

Lemma slice_append (pat t : string) : slice (String.length pat) (pat +:+ t) = t.
Proof.
induction pat as [|a pat IH]; [by destruct t |].
rewrite append_cons. simpl. exact IH.
Qed.

Lemma endsWith_nil (suf : string) : endsWith "" suf = String.eqb "" suf.
Proof. unfold endsWith. apply orb_false_r. Qed.

Lemma endsWith_cons (a : Ascii.ascii) (s suf : string) :
endsWith (String a s) suf = String.eqb (String a s) suf || endsWith s suf.
Proof. reflexivity. Qed.

Lemma endsWith_spec (s suf : string) :
endsWith s suf = true ↔ ∃ p, s = p +:+ suf.
Proof.
induction s as [|a s IH].
- rewrite endsWith_nil, String.eqb_eq. split.
  + intros <-. by exists "".
  + intros [p Hp]. destruct p; [done | discriminate].
- rewrite endsWith_cons, orb_true_iff, String.eqb_eq, IH. split.
  + intros [<- | [p ->]]; [by exists "" | by exists (String a p)].
  + intros [p Hp]. destruct p as [|b p].
    * by left.
    * right. rewrite append_cons in Hp. injection Hp as _ ->. by exists p.
Qed.

Lemma includes_nil (pat : string) : includes "" pat = startsWith "" pat.
Proof. unfold includes. apply orb_false_r. Qed.

Lemma includes_cons (a : Ascii.ascii) (s pat : string) :
includes (String a s) pat = startsWith (String a s) pat || includes s pat.
Proof. reflexivity. Qed.

Lemma includes_spec (s pat : string) :
includes s pat = true ↔ ∃ p t, s = p +:+ pat +:+ t.
Proof.
induction s as [|a s IH].
- rewrite includes_nil, startsWith_spec. split.
  + intros [t Ht]. by exists "", t.
  + intros [p [t Ht]]. destruct p; [by exists t | discriminate].
- rewrite includes_cons, orb_true_iff, startsWith_spec, IH. split.
  + intros [[t Ht] | [p [t ->]]]; [by exists "", t | by exists (String a p), t].
  + intros [p [t Hp]]. destruct p as [|b p].
    * left. by exists t.
    * right. rewrite append_cons in Hp. injection Hp as _ ->. by exists p, t.
Qed.

Lemma replace_unfold (s pat rep : string) :
replace s pat rep =
  if startsWith s pat then rep +:+ slice (String.length pat) s
  else match s with
       | EmptyString => EmptyString
       | String a s' => String a (replace s' pat rep)
       end.
Proof. by destruct s. Qed.

(** Replacing a pattern that the string starts with rewrites that prefix. *)
Lemma replace_prefix (pat rep t : string) :
replace (pat +:+ t) pat rep = rep +:+ t.
Proof. by rewrite replace_unfold, startsWith_append, slice_append. Qed.

End JsStringFacts.

(** ** Loops that push *)

Section Push.
Context {A B : Type}.

(** A [forEach] that pushes [f x] for each [x] appends them in order. *)
Lemma foldl_push_list (f : A → list B) (l : list A) (acc : list B) :
  foldl (λ acc x, acc ++ f x) acc l = acc ++ (l ≫= f).
Proof.
  revert acc. induction l as [|x l IH]; intros acc; simpl.
  - by rewrite app_nil_r.
  - by rewrite IH, app_assoc.
Qed.

Lemma foldl_push (g : A → B) (l : list A) (acc : list B) :
  foldl (λ acc x, acc ++ [g x]) acc l = acc ++ (g <$> l).
Proof.
  revert acc. induction l as [|x l IH]; intros acc; simpl.
  - by rewrite app_nil_r.
  - by rewrite IH, <- app_assoc.
Qed.

(** The same for a loop whose body is itself a pushing loop. *)
Lemma foldl_push_nested (body : list B → A → list B) (f : A → list B)
    (l : list A) (acc : list B) :
  (∀ acc x, body acc x = acc ++ f x) →
  foldl body acc l = acc ++ (l ≫= f).
Proof.
  intros Hbody. revert acc. induction l as [|x l IH]; intros acc; simpl.
  - by rewrite app_nil_r.
  - by rewrite Hbody, IH, app_assoc.
Qed.
End Push.

(** ** The upload filter *)

Lemma uploadLoop_filter (files : list File) (n i : nat) (promises : list SourceFile) :
  uploadLoop files n i promises =
    promises ++ (readFile <$> filter (λ f, inScope f) (take n (drop i files))).
Proof.
  revert i promises. induction n as [|n IH]; intros i promises; simpl.
  - by rewrite app_nil_r.
  - destruct (files !! i) as [f|] eqn:Hi.
    + rewrite (drop_S _ _ _ Hi), firstn_cons, IH.
      destruct (inScope f) eqn:Hf.
      * rewrite filter_cons_True by (by rewrite Hf).
        by rewrite fmap_cons, <- app_assoc.
      * rewrite filter_cons_False; [done | rewrite Hf; exact id].
    + rewrite drop_ge by (by apply lookup_ge_None). simpl.
      by rewrite app_nil_r.
Qed.

Lemma inScope_spec (f : File) :
  inScope f = true ↔
    (¬ ∃ p t, file_webkitRelativePath f = p +:+ "node_modules" +:+ t) ∧
    ((∃ p, file_name f = p +:+ ".js") ∨ (∃ p, file_name f = p +:+ ".jsx")).
Proof.
  unfold inScope.
  rewrite andb_true_iff, negb_true_iff, orb_true_iff, !endsWith_spec.
  rewrite <- not_true_iff_false, includes_spec. done.
Qed.

(** C7. The list handed to [setProject] is the uploaded list, in order,
    restricted to the files that pass the test of the upload loop; a file
    passes exactly when its relative path does not contain "node_modules"
    and its name ends with ".js" or ".jsx". *)
Theorem handleFileUpload_filters (files : list File) :
  handleFileUpload files = readFile <$> filter (λ f, inScope f) files ∧
  (∀ f, f ∈ filter (λ f, inScope f) files ↔
     f ∈ files ∧
     (¬ ∃ p t, file_webkitRelativePath f = p +:+ "node_modules" +:+ t) ∧
     ((∃ p, file_name f = p +:+ ".js") ∨ (∃ p, file_name f = p +:+ ".jsx"))).
Proof.
  split.
  - unfold handleFileUpload.
    by rewrite uploadLoop_filter, drop_0, firstn_all.
  - intros f. rewrite list_elem_of_filter, <- inScope_spec.
    rewrite Is_true_true. tauto.
Qed.

(** ** Effect edges *)

Lemma convertEffectEdges_flat (c : ComponentNode) :
  convertEffectEdges c =
    effects c ≫= (λ E,
      (effectDepEdge c E <$> dependencyIds E) ++
      (effectTargetEdge c E <$> handlingTargetIds E)).
Proof.
  unfold convertEffectEdges.
  rewrite (foldl_push_nested _
    (λ E, (effectDepEdge c E <$> dependencyIds E) ++
          (effectTargetEdge c E <$> handlingTargetIds E))); [done |].
  intros acc E. simpl. by rewrite !foldl_push, <- app_assoc.
Qed.

Lemma convertEffectEdges_elem (c : ComponentNode) (x : Edge) :
  x ∈ convertEffectEdges c ↔
    ∃ E, E ∈ effects c ∧
      ((∃ d, d ∈ dependencyIds E ∧ x = effectDepEdge c E d) ∨
       (∃ t, t ∈ handlingTargetIds E ∧ x = effectTargetEdge c E t)).
Proof.
  rewrite convertEffectEdges_flat, list_elem_of_bind. split.
  - intros [E [Hx HE]]. exists E. split; [done |].
    apply elem_of_app in Hx as [Hx | Hx];
      apply list_elem_of_fmap in Hx as [y [-> Hy]]; eauto.
  - intros [E [HE Hx]]. exists E. split; [| done].
    apply elem_of_app. destruct Hx as [[d [Hd ->]] | [t [Ht ->]]];
      [left | right]; apply list_elem_of_fmap; eauto.
Qed.

Lemma length_bind_sum {A B : Type} (f : A → list B) (l : list A) :
  length (l ≫= f) = sum_list ((λ x, length (f x)) <$> l).
Proof.
  induction l as [|x l IH]; csimpl; [done |].
  by rewrite length_app, IH.
Qed.

(** C9, as stated, fails: an effect that lists a callback prop both as a
    dependency and as a handling target gets an edge from the effect to that
    dependency. *)
Lemma convertEffectEdges_callback_both_ways :
  ¬ noEdgeAgainstTheFlow callbackComponent.
Proof.
  intros H.
  destruct (H callbackEffect (effectTargetEdge callbackComponent callbackEffect "prop-0"))
    as [Hdep _].
  - apply list_elem_of_In. simpl. auto.
  - apply list_elem_of_In. vm_compute. auto.
  - apply Hdep. split; [done |]. apply list_elem_of_In. simpl. auto.
Qed.

(** C9 (amended). [convertEffectEdges] returns, effect by effect and in
    order, one edge [d -> E] per entry [d] of the effect's [dependencyIds]
    followed by one edge [E -> t] per entry [t] of its [handlingTargetIds]; so
    the number of edges is the sum of the lengths of those lists; all this
    for every component.  When the
    effects of the component have distinct ids and no effect id is used as a
    dependency or target id, an edge leaves an effect for one of its
    dependencies only if that id is also one of its handling targets, and an
    edge enters an effect from one of its handling targets only if that id is
    also one of its dependencies. *)
Theorem convertEffectEdges_edges (c : ComponentNode) :
  convertEffectEdges c =
    effects c ≫= (λ E,
      (effectDepEdge c E <$> dependencyIds E) ++
      (effectTargetEdge c E <$> handlingTargetIds E)) ∧
  (∀ E d, edge_source (effectDepEdge c E d) = d ∧
          edge_target (effectDepEdge c E d) = effect_id E) ∧
  (∀ E t, edge_source (effectTargetEdge c E t) = effect_id E ∧
          edge_target (effectTargetEdge c E t) = t) ∧
  length (convertEffectEdges c) =
    sum_list ((λ E, length (dependencyIds E) + length (handlingTargetIds E))
              <$> effects c) ∧
  (NoDup (effect_id <$> effects c) →
   (∀ E E', E ∈ effects c → E' ∈ effects c →
      effect_id E ∉ dependencyIds E' ++ handlingTargetIds E') →
   (∀ E x, E ∈ effects c → x ∈ convertEffectEdges c →
      edge_source x = effect_id E → edge_target x ∈ dependencyIds E →
      edge_target x ∈ handlingTargetIds E) ∧
   (∀ E x, E ∈ effects c → x ∈ convertEffectEdges c →
      edge_target x = effect_id E → edge_source x ∈ handlingTargetIds E →
      edge_source x ∈ dependencyIds E)).
Proof.
  split_and!.
  - apply convertEffectEdges_flat.
  - done.
  - done.
  - rewrite convertEffectEdges_flat, length_bind_sum. f_equal.
    apply list_fmap_ext. intros _ E _. by rewrite length_app, !length_fmap.
  - intros Hdistinct Hids.
    assert (Hsame : ∀ E E', E ∈ effects c → E' ∈ effects c →
              effect_id E = effect_id E' → E = E').
    { intros E E' HE HE' Heq.
      apply list_elem_of_lookup in HE as [i Hi], HE' as [j Hj].
      assert (i = j) as ->; [| congruence].
      eapply NoDup_lookup; [exact Hdistinct | |].
      - by rewrite list_lookup_fmap, Hi.
      - by rewrite list_lookup_fmap, Hj, Heq. }
    split; [intros E x HE Hx Hsrc Htgt | intros E x HE Hx Htgt Hsrc].
    + apply convertEffectEdges_elem in Hx as [E' [HE' [[d [Hd ->]] | [t [Ht ->]]]]];
        simpl in *.
      * destruct (Hids E E' HE HE'). apply elem_of_app. left. by rewrite <- Hsrc.
      * by rewrite <- (Hsame _ _ HE' HE Hsrc).
    + apply convertEffectEdges_elem in Hx as [E' [HE' [[d [Hd ->]] | [t [Ht ->]]]]];
        simpl in *.
      * by rewrite <- (Hsame _ _ HE' HE Htgt).
      * destruct (Hids E E' HE HE'). apply elem_of_app. right. by rewrite <- Htgt.
Qed.

Lemma convertEffectEdges_edges_witness :
  length (convertEffectEdges callbackComponent) = 3 ∧
  ∀ E x, E ∈ effects callbackComponent → x ∈ convertEffectEdges callbackComponent →
    edge_source x = effect_id E → edge_target x ∈ dependencyIds E →
    edge_target x ∈ handlingTargetIds E.
Proof.
  assert (Hd : NoDup (effect_id <$> effects callbackComponent)).
  { simpl. apply NoDup_singleton. }
  assert (Hi : ∀ E E', E ∈ effects callbackComponent → E' ∈ effects callbackComponent →
            effect_id E ∉ dependencyIds E' ++ handlingTargetIds E').
  { intros E E' HE HE'. simpl in HE, HE'.
    apply list_elem_of_singleton in HE as ->.
    apply list_elem_of_singleton in HE' as ->.
    simpl. rewrite !elem_of_cons, elem_of_nil. intros [?|[?|[?|[]]]]; discriminate. }
  destruct (convertEffectEdges_edges callbackComponent) as (_ & _ & _ & Hlen & Hflow).
  split; [rewrite Hlen; reflexivity | exact (proj1 (Hflow Hd Hi))].
Defined.

(** ** Prop edges *)

Lemma findNode_None (nodes : list Node) (nid : string) :
  findNode nodes nid = None ↔ nid ∉ node_id <$> nodes.
Proof.
  unfold findNode. induction nodes as [|n nodes IH]; simpl.
  - split; [intros _; apply not_elem_of_nil | done].
  - rewrite not_elem_of_cons. case_bool_decide as Hn.
    + split; [done | intros [Hne _]; by destruct Hne].
    + rewrite IH. split; [intros ?; split; [congruence | done] | by intros [_ ?]].
Qed.

Lemma findEdge_None (edges : list Edge) (eid : string) :
  findEdge edges eid = None ↔ eid ∉ edge_id <$> edges.
Proof.
  unfold findEdge. induction edges as [|e edges IH]; simpl.
  - split; [intros _; apply not_elem_of_nil | done].
  - rewrite not_elem_of_cons. case_bool_decide as He.
    + split; [done | intros [Hne _]; by destruct Hne].
    + rewrite IH. split; [intros ?; split; [congruence | done] | by intros [_ ?]].
Qed.

(** Whatever is pushed for a reference carries the id [`${ref}-${prop.id}`],
    and that id is not the id of a current prop edge. *)
Lemma propRefEdges_fresh (cur : list Edge) (sn pn : list Node)
    (c : ComponentNode) (prop : PropNode) (ref : string) (e : Edge) :
  e ∈ propRefEdges cur sn pn c prop ref →
  edge_id e = dash ref (prop_id prop) ∧ edge_id e ∉ edge_id <$> cur.
Proof.
  unfold propRefEdges.
  destruct (startsWith ref "setter").
  - destruct (findNode sn (setterNodeId ref)) as [target|]; [| by intros ?%elem_of_nil].
    destruct (findEdge cur (dash ref (prop_id prop))) eqn:Hfind;
      [by intros ?%elem_of_nil |].
    intros ->%list_elem_of_singleton. simpl. split; [done |].
    by apply findEdge_None.
  - destruct (match findNode sn ref with
              | Some target => Some target
              | None => findNode pn ref
              end) as [target|]; [| by intros ?%elem_of_nil].
    destruct (findEdge cur (dash ref (prop_id prop))) eqn:Hfind;
      [by intros ?%elem_of_nil |].
    intros ->%list_elem_of_singleton. simpl. split; [done |].
    by apply findEdge_None.
Qed.

Lemma propRefEdges_unresolved (cur : list Edge) (sn pn : list Node)
    (c : ComponentNode) (prop : PropNode) (ref : string) :
  unresolvedRef sn pn ref → propRefEdges cur sn pn c prop ref = [].
Proof.
  unfold unresolvedRef, propRefEdges.
  destruct (startsWith ref "setter").
  - intros H%findNode_None. by rewrite H.
  - intros [Hs%findNode_None Hp%findNode_None]. by rewrite Hs, Hp.
Qed.

Lemma convertPropEdges_flat (h : heap) (nodes : list Node) (cur : list Edge)
    (sn pn : list Node) :
  convertPropEdges h nodes cur sn pn = nodes ≫= nodePropEdges h cur sn pn.
Proof.
  unfold convertPropEdges.
  rewrite (foldl_push_nested _ (nodePropEdges h cur sn pn)); [done |].
  intros acc node. unfold nodePropEdges.
  case_bool_decide; [by rewrite app_nil_r |].
  destruct (data_component (node_data node)) as [c|]; [| by rewrite app_nil_r].
  simpl. apply foldl_push_nested.
  intros acc' prop. apply foldl_push_list.
Qed.

(** C10. No edge returned by [convertPropEdges] has the id of an edge of
    [currentPropEdges]; the result is the concatenation, over the expanded
    nodes, their props and the references of each prop, of what is pushed for
    that reference; and for a reference whose target node is missing from the
    supplied lists nothing is pushed.  The function is total: it returns a
    list on every input. *)
Theorem convertPropEdges_fresh_and_silent (h : heap) (nodes : list Node)
    (currentPropEdges : list Edge) (currentStateNodes currentPropNodes : list Node) :
  (∀ e, e ∈ convertPropEdges h nodes currentPropEdges currentStateNodes currentPropNodes →
        edge_id e ∉ edge_id <$> currentPropEdges) ∧
  convertPropEdges h nodes currentPropEdges currentStateNodes currentPropNodes =
    nodes ≫= nodePropEdges h currentPropEdges currentStateNodes currentPropNodes ∧
  (∀ c prop ref,
     unresolvedRef currentStateNodes currentPropNodes ref →
     propRefEdges currentPropEdges currentStateNodes currentPropNodes c prop ref = []).
Proof.
  split_and!.
  - intros e. rewrite convertPropEdges_flat, list_elem_of_bind.
    intros [node [He _]]. unfold nodePropEdges in He.
    case_bool_decide; [by apply elem_of_nil in He |].
    destruct (data_component (node_data node)) as [c|]; [| by apply elem_of_nil in He].
    apply list_elem_of_bind in He as [prop [He _]].
    apply list_elem_of_bind in He as [ref [He _]].
    by apply propRefEdges_fresh in He as [_ ?].
  - apply convertPropEdges_flat.
  - intros c prop ref. apply propRefEdges_unresolved.
Qed.

(** ** Setter references *)

Lemma setterOf_state (n : string) : setterOf ("state-" +:+ n) = "setter-" +:+ n.
Proof. reflexivity. Qed.

(** C2, as stated, fails: a reference written [setter-state-<n>] does not
    resolve to [state-<n>]; replacing "setter" by "state" leaves
    [state-state-<n>]. *)
Lemma setterNodeId_of_setter_state :
  ¬ (∀ n, setterNodeId ("setter-state-" +:+ n) = "state-" +:+ n).
Proof. intros H. specialize (H "1"). vm_compute in H. discriminate. Qed.

Example setterNodeId_setter_state_1 :
  setterNodeId "setter-state-1" = "state-state-1".
Proof. reflexivity. Qed.

(** In [convertPropEdges]: the reference [setter-1] is drawn from the node
    of [state-1]; the reference [setter-state-1] finds no node and is
    dropped. *)
Example convertPropEdges_setter :
  edge_source <$> convertPropEdges (setterGraph "setter-1") [expandedForm] []
                    [stateNode1] [] = ["state-1"] ∧
  convertPropEdges (setterGraph "setter-state-1") [expandedForm] []
    [stateNode1] [] = [].
Proof. split; reflexivity. Qed.

(** C2 (amended). The setter reference of [state-<n>], obtained by putting
    the tag "setter" in place of the kind tag and keeping the suffix, is
    [setter-<n>]; it starts with "setter", and [convertPropEdges] resolves it
    (replacing "setter" by "state") to [state-<n>]: derivation followed by
    resolution is the identity on state ids. *)
Theorem setter_reference_round_trip (n : string) :
  kindTag (setterOf ("state-" +:+ n)) = "setter" ∧
  kindSuffix (setterOf ("state-" +:+ n)) = kindSuffix ("state-" +:+ n) ∧
  setterOf ("state-" +:+ n) = "setter-" +:+ n ∧
  startsWith (setterOf ("state-" +:+ n)) "setter" = true ∧
  setterNodeId (setterOf ("state-" +:+ n)) = "state-" +:+ n.
Proof.
  rewrite setterOf_state. split_and!; [done | done | done | done |].
  unfold setterNodeId.
  change ("setter-" +:+ n) with ("setter" +:+ ("-" +:+ n)).
  by rewrite replace_prefix.
Qed.

(** ** Component ids *)

Lemma lookup_total_lt (h : heap) (c : loc) :
  c < length h → h !! c = Some (h !!! c).
Proof. intros Hc. by apply list_lookup_lookup_total_lt. Qed.

(** With unique ids, a component of the graph is determined by its id. *)
Lemma idOf_inj (h : heap) (c1 c2 : loc) :
  uniqueIds h → c1 < length h → c2 < length h →
  idOf h c1 = idOf h c2 → c1 = c2.
Proof.
  intros Hu H1 H2 Heq. unfold uniqueIds in Hu.
  apply (NoDup_lookup (comp_id <$> h) c1 c2 (idOf h c1) Hu).
  - by rewrite list_lookup_fmap, (lookup_total_lt h c1 H1).
  - by rewrite list_lookup_fmap, (lookup_total_lt h c2 H2), Heq.
Qed.



(** ** Component edges *)

Lemma childEdges_elem (h : heap) (components : list loc) (e : Edge) :
  e ∈ childEdges h components [] ↔
    ∃ c k, c ∈ components ∧ k ∈ children (h !!! c) ∧ e = childEdge h c k.
Proof.
  unfold childEdges.
  rewrite (foldl_push_nested _ (λ c, childEdge h c <$> children (h !!! c)))
    by (intros; apply foldl_push).
  rewrite app_nil_l, list_elem_of_bind. split.
  - intros [c [He Hc]]. apply list_elem_of_fmap in He as [k [-> Hk]]. eauto.
  - intros [c [k [Hc [Hk ->]]]]. exists c. split; [| done].
    apply list_elem_of_fmap. eauto.
Qed.

Lemma falseChildEdges_app (h : heap) (components : list loc) (acc : list Edge) :
  falseChildEdges h components acc = acc ++ falseChildEdges h components [].
Proof.
  unfold falseChildEdges.
  rewrite !(foldl_push_nested _ (λ c, falseChildEdge h c <$> falseChildren (h !!! c)))
    by (intros; apply foldl_push).
  done.
Qed.

Lemma falseChildEdges_elem (h : heap) (components : list loc) (e : Edge) :
  e ∈ falseChildEdges h components [] ↔
    ∃ c k, c ∈ components ∧ k ∈ falseChildren (h !!! c) ∧ e = falseChildEdge h c k.
Proof.
  unfold falseChildEdges.
  rewrite (foldl_push_nested _ (λ c, falseChildEdge h c <$> falseChildren (h !!! c)))
    by (intros; apply foldl_push).
  rewrite app_nil_l, list_elem_of_bind. split.
  - intros [c [He Hc]]. apply list_elem_of_fmap in He as [k [-> Hk]]. eauto.
  - intros [c [k [Hc [Hk ->]]]]. exists c. split; [| done].
    apply list_elem_of_fmap. eauto.
Qed.







Example componentEdges_overlapGraph :
  edge_id <$> componentEdges overlapGraph [0; 1] =
    ["component-0-component-1"; "component-0-component-1"].
Proof. reflexivity. Qed.


(** ** The traversal *)

Section Traversal.
Variable h : heap.

Lemma visited_by_mono c l st st' new :
  visited_by h c l st st' new → visitedIds st ⊆ visitedIds st'.
Proof. intros [_ Hids _ _ _ _ _]. rewrite Hids. set_solver. Qed.

Lemma visit_spec (fuel : nat) (st st' : VisitState) (c : loc) :
  visit fuel h st c = Some st' →
  ∃ new, visited_by h c (kids h c) st st' new.
Proof.
  revert st st' c. induction fuel as [|fuel IH]; intros st st' c; [done |].
  simpl.
  assert (Hloop : ∀ l st st',
    (∀ k, k ∈ l → childOf h c k) →
    forEachM (λ st child,
      if bool_decide (idOf h child ∈ visitedIds st) then Some st
      else visit fuel h
             {| visitedIds := {[idOf h child]} ∪ visitedIds st;
                calls := calls st ++ [child] |} child) st l = Some st' →
    ∃ new, visited_by h c l st st' new).
  { clear st st'. induction l as [|x l IHl]; intros st st' Hl; simpl.
    - intros [= <-]. exists []. split; simpl; try done.
      + by rewrite app_nil_r.
      + set_solver.
      + apply NoDup_nil_2.
      + intros ? ?%elem_of_nil. done.
      + intros ? ?%elem_of_nil. done.
      + intros ? ?%elem_of_nil. done.
      + intros ? ?%elem_of_nil. done.
    - case_bool_decide as Hx.
      + intros Hrun.
        destruct (IHl st st') as [new Hnew]; [set_solver | done |].
        exists new. destruct Hnew. split; try done.
        intros k [-> | Hk]%elem_of_cons; [| by auto].
        rewrite vb_ids0. set_solver.
      + destruct (visit fuel h _ x) as [st2|] eqn:Hvisit; [| done].
        intros Hrun.
        apply IH in Hvisit as [new1 H1].
        destruct (IHl st2 st') as [new2 H2]; [set_solver | done |].
        pose proof (visited_by_mono _ _ _ _ _ H1) as Hm1.
        pose proof (visited_by_mono _ _ _ _ _ H2) as Hm2.
        destruct H1 as [Hc1 Hi1 Hn1 Hf1 Hs1 Hk1 Hcl1].
        destruct H2 as [Hc2 Hi2 Hn2 Hf2 Hs2 Hk2 Hcl2].
        simpl in *.
        exists (x :: new1 ++ new2). split.
        * rewrite Hc2, Hc1. by rewrite <- !app_assoc.
        * rewrite Hi2, Hi1. rewrite fmap_cons, fmap_app.
          rewrite list_to_set_cons, list_to_set_app_L. set_solver.
        * rewrite fmap_cons, fmap_app. apply NoDup_cons. split.
          -- rewrite elem_of_app. intros [Hin | Hin];
               apply list_elem_of_fmap in Hin as [y [Hy Hin]].
             ++ apply Hf1 in Hin. rewrite <- Hy in Hin. set_solver.
             ++ apply Hf2 in Hin. rewrite <- Hy in Hin. set_solver.
          -- apply NoDup_app. split_and!; [done | | done].
             intros i Hin1 Hin2.
             apply list_elem_of_fmap in Hin2 as [y [-> Hin2]].
             apply Hf2 in Hin2. apply Hin2. rewrite Hi1.
             apply elem_of_union_r, elem_of_list_to_set. done.
        * intros y [-> | [Hy | Hy]%elem_of_app]%elem_of_cons; [done | |].
          -- apply Hf1 in Hy. set_solver.
          -- apply Hf2 in Hy. set_solver.
        * intros y [-> | [Hy | Hy]%elem_of_app]%elem_of_cons.
          -- apply tc_once, Hl. set_solver.
          -- apply (tc_l _ c x y); [apply Hl; set_solver | by apply Hs1].
          -- by apply Hs2.
        * intros k [-> | Hk]%elem_of_cons; [| by auto].
          apply Hm2, Hm1. set_solver.
        * intros y [-> | [Hy | Hy]%elem_of_app]%elem_of_cons k Hk.
          -- apply Hm2. by apply Hk1.
          -- apply Hm2. by apply (Hcl1 y).
          -- by apply (Hcl2 y). }
  intros Hrun. apply (Hloop (kids h c)); [done | exact Hrun].
Qed.

Lemma idOf_allIds (c : loc) : idOf h c ∈ allIds h.
Proof.
  unfold allIds, idOf. destruct (decide (c < length h)) as [Hc | Hc].
  - apply elem_of_union_l, elem_of_list_to_set, list_elem_of_fmap.
    exists (h !!! c). split; [done |].
    apply list_elem_of_lookup. exists c. by apply lookup_total_lt.
  - apply elem_of_union_r, elem_of_singleton.
    rewrite list_lookup_total_alt, lookup_ge_None_2 by lia. done.
Qed.

Lemma size_list_to_set_le (l : list string) :
  size (list_to_set (C := gset string) l) ≤ length l.
Proof.
  induction l as [|x l IHl].
  - rewrite list_to_set_nil, size_empty. simpl; lia.
  - rewrite list_to_set_cons, size_union_alt, size_singleton. simpl.
    assert (size (list_to_set (C := gset string) l ∖ {[x]})
            ≤ size (list_to_set (C := gset string) l))
      by (apply subseteq_size; set_solver).
    lia.
Qed.

Lemma size_allIds : size (allIds h) ≤ S (length h).
Proof.
  unfold allIds. rewrite size_union_alt.
  pose proof (size_list_to_set_le (comp_id <$> h)) as Hle.
  rewrite length_fmap in Hle.
  assert (size (({[""]} : gset string) ∖ list_to_set (comp_id <$> h)) ≤ 1).
  { etrans; [apply (subseteq_size _ {[""]}); set_solver |].
    by rewrite size_singleton. }
  lia.
Qed.

(** Termination: the depth of the recursion is bounded by the number of
    ids not yet visited. *)
Lemma visit_terminates (fuel : nat) (st : VisitState) (c : loc) :
  size (allIds h ∖ visitedIds st) < fuel → is_Some (visit fuel h st c).
Proof.
  revert st c. induction fuel as [|fuel IH]; intros st c Hfuel; [lia |].
  simpl. generalize (kids h c). intros l. revert st Hfuel.
  induction l as [|x l IHl]; intros st Hfuel; simpl; [by eexists |].
  case_bool_decide as Hx; [by apply IHl |].
  destruct (IH {| visitedIds := {[idOf h x]} ∪ visitedIds st;
                  calls := calls st ++ [x] |} x) as [st2 Hst2].
  { simpl.
    assert (allIds h ∖ ({[idOf h x]} ∪ visitedIds st) ⊂ allIds h ∖ visitedIds st) as Hsub.
    { split; [set_solver |]. intros Hs. specialize (Hs (idOf h x)).
      pose proof (idOf_allIds x). set_solver. }
    apply subset_size in Hsub. lia. }
  rewrite Hst2. apply IHl.
  apply visit_spec in Hst2 as [new Hnew].
  apply visited_by_mono in Hnew. simpl in Hnew.
  assert (size (allIds h ∖ visitedIds st2) ≤ size (allIds h ∖ visitedIds st))
    by (apply subseteq_size; set_solver).
  lia.
Qed.

(** [visitDecendent] never runs out of fuel. *)
Lemma visitDecendent_runs (c : loc) :
  ∃ st, visit (visitFuel h) h {| visitedIds := ∅; calls := [] |} c = Some st ∧
        visitDecendent h c = calls st.
Proof.
  destruct (visit_terminates (visitFuel h) {| visitedIds := ∅; calls := [] |} c)
    as [st Hst].
  { simpl. unfold visitFuel. pose proof size_allIds.
    assert (size (allIds h ∖ ∅) ≤ size (allIds h)) by (apply subseteq_size; set_solver).
    lia. }
  exists st. split; [done |]. unfold visitDecendent. by rewrite Hst.
Qed.

Lemma visitDecendent_NoDup (c : loc) : NoDup (visitDecendent h c).
Proof.
  destruct (visitDecendent_runs c) as [st [Hst ->]].
  apply visit_spec in Hst as [new [Hc _ Hn _ _ _ _]]. simpl in Hc.
  rewrite Hc. by apply NoDup_fmap_1 in Hn.
Qed.

Lemma visitDecendent_sound (c x : loc) :
  x ∈ visitDecendent h c → descendant h c x.
Proof.
  destruct (visitDecendent_runs c) as [st [Hst ->]].
  apply visit_spec in Hst as [new [Hc _ _ _ Hs _ _]]. simpl in Hc.
  rewrite Hc. apply Hs.
Qed.

Lemma descendant_lt (c x : loc) : closed h → descendant h c x → x < length h.
Proof.
  intros Hcl Hd. induction Hd as [a b Hab | a b d Hab _ IH]; [| done].
  apply (Hcl a). apply elem_of_app. by left.
Qed.

Lemma visitDecendent_complete (c x : loc) :
  closed h → uniqueIds h → descendant h c x → x ∈ visitDecendent h c.
Proof.
  intros Hcl Hu Hd.
  destruct (visitDecendent_runs c) as [st [Hst ->]].
  apply visit_spec in Hst as [new [Hc Hi _ _ Hs Hk Hclo]]. simpl in Hc, Hi.
  rewrite Hc.
  assert (Hmark : ∀ y, y < length h → idOf h y ∈ visitedIds st → y ∈ new).
  { intros y Hy. rewrite Hi, elem_of_union, elem_of_list_to_set, list_elem_of_fmap.
    intros [[]%not_elem_of_empty | [z [Hz Hin]]].
    assert (y = z) as ->; [| done].
    apply (idOf_inj h); [done | done | | done].
    eapply descendant_lt; [done | by apply Hs]. }
  unfold descendant in Hd. revert x Hd. apply (tc_ind_r (λ x, x ∈ new) c).
  - intros y Hy. apply Hmark; [| by apply Hk].
    apply (Hcl c). apply elem_of_app. by left.
  - intros y z _ Hyz Hy. apply Hmark; [| by apply (Hclo y)].
    apply (Hcl y). apply elem_of_app. by left.
Qed.

End Traversal.

Lemma closedb_closed (h : heap) : closedb h = true → closed h.
Proof.
  unfold closedb, closed. intros Hb c child Hin.
  destruct (decide (c < length h)) as [Hc | Hc].
  - rewrite forallb_forall in Hb.
    specialize (Hb (h !!! c)). rewrite forallb_forall in Hb.
    apply Nat.ltb_lt, Hb; [| by apply list_elem_of_In].
    apply list_elem_of_In, list_elem_of_lookup. exists c. by apply lookup_total_lt.
  - rewrite list_lookup_total_alt, lookup_ge_None_2 in Hin by lia.
    by apply elem_of_nil in Hin.
Qed.

(** C4. With enough fuel for the arena the traversal returns: it
    terminates on every graph, cyclic or not.  [visitFn] is called with no
    component twice, and with exactly the components reachable from the start
    by one or more [children] steps ([falseChildren] play no part), however
    many parents a component has. *)
Theorem visitDecendent_once_each (h : heap) (c : loc)
    (Hclosed : closed h) (Hunique : uniqueIds h) :
  (∃ st, visit (visitFuel h) h {| visitedIds := ∅; calls := [] |} c = Some st ∧
         visitDecendent h c = calls st) ∧
  NoDup (visitDecendent h c) ∧
  (∀ x, x ∈ visitDecendent h c ↔ descendant h c x).
Proof.
  split_and!.
  - apply visitDecendent_runs.
  - apply visitDecendent_NoDup.
  - intros x. split.
    + apply visitDecendent_sound.
    + by apply visitDecendent_complete.
Qed.

Example visitDecendent_cycle :
  visitDecendent cyclicGraph 0 = [1; 0] ∧ visitDecendent cyclicGraph 1 = [0; 1].
Proof. split; reflexivity. Qed.

Example visitDecendent_diamond : visitDecendent diamondGraph 0 = [1; 3; 2].
Proof. reflexivity. Qed.

(** ** Counting descendants *)

Lemma countDecendent_le (h : heap) (c : loc) :
  closed h → countDecendent h c ≤ length h.
Proof.
  intros Hcl. unfold countDecendent.
  trans (length (seq 0 (length h))); [| by rewrite length_seq].
  apply submseteq_length, NoDup_submseteq; [apply visitDecendent_NoDup |].
  intros x Hx%visitDecendent_sound. apply elem_of_seq.
  pose proof (descendant_lt h c x Hcl Hx). lia.
Qed.

(** A descendant that lies on no cycle has fewer descendants. *)
Lemma countDecendent_lt (h : heap) (c d : loc) :
  closed h → uniqueIds h → ¬ descendant h d d →
  descendant h c d → countDecendent h d < countDecendent h c.
Proof.
  intros Hcl Hu Hac Hd. unfold countDecendent.
  change (length (d :: visitDecendent h d) ≤ length (visitDecendent h c)).
  apply submseteq_length, NoDup_submseteq.
  - apply NoDup_cons. split; [| apply visitDecendent_NoDup].
    intros Hin%visitDecendent_sound. by apply Hac.
  - intros x [-> | Hx%visitDecendent_sound]%elem_of_cons;
      apply visitDecendent_complete; try done.
    by apply (tc_trans c d x).
Qed.

(** ** Roots *)

Section Roots.
Variable h : heap.
Hypothesis Hclosed : closed h.
Hypothesis Hunique : uniqueIds h.

Lemma markAll_spec (components : list loc) (visited : list string) :
  (∀ c, c ∈ components → c < length h) →
  downClosed h visited →
  downClosed h (markAll h visited components) ∧
  ∀ i, i ∈ markAll h visited components ↔
       i ∈ visited ∨ ∃ c x, c ∈ components ∧ descendant h c x ∧ idOf h x = i.
Proof.
  revert visited.
  induction components as [|c components IH]; intros visited Hvalid Hdown.
  - split; [done |]. intros i. split; [by left |].
    intros [? | (c & x & []%elem_of_nil & _)]. done.
  - unfold markAll. simpl. fold (markAll h
      (if bool_decide (idOf h c ∈ visited) then visited
       else foldl (λ visited child, visited ++ [idOf h child]) visited
              (visitDecendent h c)) components).
    assert (Hc : c < length h) by (apply Hvalid; left).
    assert (Hvalid' : ∀ c', c' ∈ components → c' < length h)
      by (intros; apply Hvalid; by right).
    case_bool_decide as Hin.
    + destruct (IH visited Hvalid' Hdown) as [Hd' Hiff]. split; [done |].
      intros i. rewrite Hiff. split.
      * intros [? | (c' & x & Hc' & Hx & Hi)]; [by left |].
        right. exists c', x. split; [by right | done].
      * intros [? | (c' & x & [-> | Hc']%elem_of_cons & Hx & Hi)]; [by left | |].
        -- left. rewrite <- Hi. by apply (Hdown c x).
        -- right. by exists c', x.
    + rewrite foldl_push.
      assert (Hdown' : downClosed h (visited ++ (idOf h <$> visitDecendent h c))).
      { intros y x Hy Hiny Hyx. apply elem_of_app in Hiny as [Hiny | Hiny].
        - apply elem_of_app. left. by apply (Hdown y x).
        - apply elem_of_app. right.
          apply list_elem_of_fmap in Hiny as [z [Hz Hinz]].
          apply visitDecendent_sound in Hinz.
          assert (y = z) as ->.
          { apply (idOf_inj h); [done | done | | done].
            by apply (descendant_lt h c). }
          apply list_elem_of_fmap. exists x. split; [done |].
          apply visitDecendent_complete; [done | done |].
          by apply (tc_trans c z x). }
      destruct (IH _ Hvalid' Hdown') as [Hd' Hiff]. split; [done |].
      intros i. rewrite Hiff, elem_of_app, list_elem_of_fmap. split.
      * intros [[? | (x & -> & Hx%visitDecendent_sound)] | (c' & x & Hc' & Hx & Hi)].
        -- by left.
        -- right. exists c, x. split; [by left | done].
        -- right. exists c', x. split; [by right | done].
      * intros [? | (c' & x & [-> | Hc']%elem_of_cons & Hx & Hi)].
        -- by left; left.
        -- left; right. exists x. split; [done |].
           by apply visitDecendent_complete.
        -- right. by exists c', x.
Qed.

(** The second loop of [findRoots] keeps the components whose id was not
    marked. *)
Lemma keepUnmarked_elem (visited : list string) (components : list loc) (c : loc) :
  c ∈ foldl (λ roots component,
               if bool_decide (idOf h component ∉ visited)
               then roots ++ [component] else roots) [] components ↔
  c ∈ components ∧ idOf h c ∉ visited.
Proof.
  rewrite (foldl_push_nested _
    (λ c, if bool_decide (idOf h c ∉ visited) then [c] else [])).
  - rewrite app_nil_l, list_elem_of_bind. split.
    + intros [y [Hy Hin]]. case_bool_decide; [| by apply elem_of_nil in Hy].
      by apply list_elem_of_singleton in Hy as ->.
    + intros [Hin Hnot]. exists c. split; [| done].
      rewrite bool_decide_eq_true_2 by done. by apply list_elem_of_singleton.
  - intros acc x. case_bool_decide; [done | by rewrite app_nil_r].
Qed.

Lemma findRoots_marked (components : list loc) (c : loc) :
  (∀ c, c ∈ components → c < length h) →
  c ∈ components →
  idOf h c ∈ markAll h [] components ↔ ∃ d, d ∈ components ∧ descendant h d c.
Proof.
  intros Hvalid Hc.
  destruct (markAll_spec components [] Hvalid) as [_ Hiff].
  { intros y x _ []%elem_of_nil. }
  rewrite Hiff. split.
  - intros [[]%elem_of_nil | (d & x & Hd & Hx & Hi)].
    exists d. split; [done |].
    assert (x = c) as <-; [| done].
    apply (idOf_inj h); [done | | by apply Hvalid | done].
    by apply (descendant_lt h d).
  - intros (d & Hd & Hx). right. by exists d, c.
Qed.

Lemma findRoots_elem (components : list loc) (c : loc) :
  (∀ c, c ∈ components → c < length h) →
  c ∈ findRoots h components ↔
    c ∈ components ∧ ∀ d, d ∈ components → ¬ descendant h d c.
Proof.
  intros Hvalid. unfold findRoots. fold (markAll h [] components).
  rewrite keepUnmarked_elem. split.
  - intros [Hc Hnot]. split; [done |]. intros d Hd Hdc. apply Hnot.
    apply findRoots_marked; [done | done |]. by exists d.
  - intros [Hc Hnone]. split; [done |].
    intros (d & Hd & Hdc)%findRoots_marked; [| done | done].
    by apply (Hnone d).
Qed.

(** In an acyclic graph every component that is not a root descends from
    a root: climb from the component; each step up strictly increases the
    number of descendants, which the size of the arena bounds. *)
Lemma findRoots_cover (components : list loc) :
  (∀ c, c ∈ components → c < length h) →
  acyclic h →
  ∀ c, c ∈ components → c ∉ findRoots h components →
       ∃ r, r ∈ findRoots h components ∧ descendant h r c.
Proof.
  intros Hvalid Hac.
  assert (Hind : ∀ n c, length h - countDecendent h c ≤ n →
            c ∈ components → c ∉ findRoots h components →
            ∃ r, r ∈ findRoots h components ∧ descendant h r c).
  { induction n as [|n IH]; intros c Hn Hc Hnot.
    - assert (Hmarked : idOf h c ∈ markAll h [] components).
      { destruct (decide (idOf h c ∈ markAll h [] components)); [done |].
        destruct Hnot. unfold findRoots. fold (markAll h [] components).
        by apply keepUnmarked_elem. }
      apply findRoots_marked in Hmarked as (d & Hd & Hdc); [| done | done].
      pose proof (countDecendent_lt h d c Hclosed Hunique (Hac c) Hdc).
      pose proof (countDecendent_le h d Hclosed). lia.
    - assert (Hmarked : idOf h c ∈ markAll h [] components).
      { destruct (decide (idOf h c ∈ markAll h [] components)); [done |].
        destruct Hnot. unfold findRoots. fold (markAll h [] components).
        by apply keepUnmarked_elem. }
      apply findRoots_marked in Hmarked as (d & Hd & Hdc); [| done | done].
      destruct (decide (d ∈ findRoots h components)) as [Hroot | Hroot].
      + by exists d.
      + pose proof (countDecendent_lt h d c Hclosed Hunique (Hac c) Hdc).
        pose proof (countDecendent_le h d Hclosed).
        destruct (IH d) as (r & Hr & Hrd); [lia | done | done |].
        exists r. split; [done |]. by apply (tc_trans r d c). }
  intros c. apply (Hind (length h)). lia.
Qed.

End Roots.

(** C1, as stated, fails: on the spec's cycle no component is listed as a
    root, so each one is neither a root nor a descendant of a root. *)
Lemma findRoots_cycle_has_no_root : ¬ rootsComplete cyclicGraph [0; 1].
Proof.
  intros H. destruct (H 0) as [[Hroot _] | [_ (r & Hr & _)]].
  - by left.
  - vm_compute in Hroot. by apply elem_of_nil in Hroot.
  - vm_compute in Hr. by apply elem_of_nil in Hr.
Qed.

Example findRoots_self_loop : findRoots selfLoopGraph [0] = [].
Proof. reflexivity. Qed.

Example findRoots_diamond : findRoots diamondGraph [0; 1; 2; 3] = [0].
Proof. reflexivity. Qed.

(** C1 (amended). [findRoots] lists a component of [componentList] exactly
    when it is a [children]-descendant of no component of the list, itself
    included; no component is both a root and a descendant of a root; and in
    an acyclic graph every component of the list that is not a root is a
    descendant of some root. *)
Theorem findRoots_roots (h : heap) (components : list loc)
    (Hclosed : closed h) (Hunique : uniqueIds h)
    (Hvalid : ∀ c, c ∈ components → c < length h) :
  (∀ c, c ∈ findRoots h components ↔
        c ∈ components ∧ ∀ d, d ∈ components → ¬ descendant h d c) ∧
  (∀ r c, r ∈ findRoots h components → c ∈ findRoots h components →
          ¬ descendant h r c) ∧
  (acyclic h →
   ∀ c, c ∈ components → c ∉ findRoots h components →
        ∃ r, r ∈ findRoots h components ∧ descendant h r c).
Proof.
  split_and!.
  - intros c. by apply findRoots_elem.
  - intros r c Hr Hc.
    apply findRoots_elem in Hr as [Hr _]; [| done ..].
    apply findRoots_elem in Hc as [_ Hc]; [| done ..].
    by apply Hc.
  - intros Hac. by apply findRoots_cover.
Qed.

(** ** Sorting *)

Section Sort.
Context {A : Type}.

Lemma sortInsert_perm (compareFn : A → A → Z) (x : A) (l : list A) :
  sortInsert compareFn x l ≡ₚ x :: l.
Proof.
  induction l as [|y l IH]; simpl; [done |].
  destruct (0 <? compareFn x y)%Z; [| done].
  rewrite IH. apply Permutation_swap.
Qed.

Lemma sort_perm (compareFn : A → A → Z) (l : list A) :
  sort compareFn l ≡ₚ l.
Proof.
  induction l as [|x l IH]; simpl; [done |].
  fold (sort compareFn l). by rewrite sortInsert_perm, IH.
Qed.

Lemma sort_ext (f g : A → A → Z) (l : list A) :
  (∀ a b, f a b = g a b) → sort f l = sort g l.
Proof.
  intros Hfg. induction l as [|x l IH]; simpl; [done |].
  fold (sort f l) (sort g l). rewrite IH. generalize (sort g l). intros k.
  induction k as [|y k IHk]; simpl; [done |]. by rewrite Hfg, IHk.
Qed.

(** Comparators of the shape [(a, b) => key(b) - key(a)]. *)
Variable key : A → nat.
Let byKey (a b : A) : Z := (Z.of_nat (key b) - Z.of_nat (key a))%Z.
Let above (a b : A) : Prop := key b ≤ key a.

Lemma sortInsert_sorted (x : A) (l : list A) :
  StronglySorted above l → StronglySorted above (sortInsert byKey x l).
Proof.
  induction l as [|y l IH]; intros Hl; simpl.
  - repeat constructor.
  - apply StronglySorted_inv in Hl as [Hl Hy].
    destruct (0 <? byKey x y)%Z eqn:Hcmp.
    + apply Z.ltb_lt in Hcmp. constructor; [by apply IH |].
      rewrite sortInsert_perm. constructor; [| done].
      unfold above, byKey in *. lia.
    + apply Z.ltb_ge in Hcmp. constructor; [by constructor |].
      assert (Hxy : above x y) by (unfold above, byKey in *; lia).
      constructor; [done |].
      eapply Forall_impl; [exact Hy |].
      intros z Hz. unfold above in *. lia.
Qed.

Lemma sort_sorted (l : list A) : StronglySorted above (sort byKey l).
Proof.
  induction l as [|x l IH]; simpl; [constructor |].
  by apply sortInsert_sorted.
Qed.

(** A list already in order is left as it is. *)
Lemma sort_fixed (l : list A) : StronglySorted above l → sort byKey l = l.
Proof.
  induction l as [|x l IH]; intros Hl; simpl; [done |].
  apply StronglySorted_inv in Hl as [Hl Hx].
  fold (sort byKey l). rewrite (IH Hl).
  destruct l as [|y l]; simpl; [done |].
  apply Forall_cons in Hx as [Hxy _].
  assert (Hcmp : (0 <? byKey x y)%Z = false)
    by (apply Z.ltb_ge; unfold above, byKey in *; lia).
  by rewrite Hcmp.
Qed.

Lemma sort_idemp (l : list A) : sort byKey (sort byKey l) = sort byKey l.
Proof. apply sort_fixed, sort_sorted. Qed.

(** Stability: entries with the same key keep their order. *)
Lemma sortInsert_stable (n : nat) (x : A) (l : list A) :
  filter (λ y, key y = n) (sortInsert byKey x l) =
  filter (λ y, key y = n) (x :: l).
Proof.
  induction l as [|y l IH]; simpl; [done |].
  destruct (0 <? byKey x y)%Z eqn:Hcmp; [| done].
  apply Z.ltb_lt in Hcmp.
  rewrite (filter_cons _ y), IH, !(filter_cons _ x), (filter_cons _ y).
  repeat case_decide; try done.
  unfold byKey in Hcmp. lia.
Qed.

Lemma sort_stable (n : nat) (l : list A) :
  filter (λ y, key y = n) (sort byKey l) = filter (λ y, key y = n) l.
Proof.
  induction l as [|x l IH]; simpl; [done |].
  fold (sort byKey l).
  by rewrite sortInsert_stable, !(filter_cons _ x), IH.
Qed.

End Sort.

(** ** The layout *)

Section ForEach.
Context {S A : Type}.

(** A property established step by step holds when the loop returns. *)
Lemma forEachM_prefix (body : S → A → option S) (P : list A → S → Prop)
    (l : list A) (s s' : S) :
  P [] s →
  (∀ pre x s s', x ∈ l → P pre s → body s x = Some s' → P (pre ++ [x]) s') →
  forEachM body s l = Some s' → P l s'.
Proof.
  revert P s. induction l as [|x l IH]; intros P s H0 Hstep; simpl.
  - by intros [= <-].
  - destruct (body s x) as [s1|] eqn:Hb; [| done]. intros Hrun.
    apply (IH (λ pre, P (x :: pre)) s1); [| | done].
    + apply (Hstep [] x s s1); [by left | done | done].
    + intros pre y t t' Hy HP Hbody.
      apply (Hstep (x :: pre) y t t'); [by right | done | done].
Qed.

(** A loop whose every iteration returns, returns. *)
Lemma forEachM_total (body : S → A → option S) (P : S → Prop)
    (l : list A) (s : S) :
  P s →
  (∀ x s, x ∈ l → P s → ∃ s', body s x = Some s' ∧ P s') →
  ∃ s', forEachM body s l = Some s' ∧ P s'.
Proof.
  revert s. induction l as [|x l IH]; intros s HP Hstep; simpl.
  - by exists s.
  - destruct (Hstep x s) as (s1 & -> & HP1); [by left | done |].
    apply IH; [done |]. intros y t Hy. apply Hstep. by right.
Qed.
End ForEach.

Lemma sameFrame_refl (h : heap) : sameFrame h h.
Proof. by split. Qed.

Lemma sameFrame_trans (h1 h2 h3 : heap) :
  sameFrame h1 h2 → sameFrame h2 h3 → sameFrame h1 h3.
Proof.
  intros [L1 I1 N1 P1 S1 E1 F1 C1] [L2 I2 N2 P2 S2 E2 F2 C2].
  split; intros; try congruence.
  by rewrite C2, C1.
Qed.

Lemma lookup_total_ge (h : heap) (c : loc) : length h ≤ c → h !!! c = inhabitant.
Proof. intros Hc. by rewrite list_lookup_total_alt, lookup_ge_None_2. Qed.

(** Reading the graph after [node.children.sort(...)]. *)
Lemma sortChildren_lookup (h : heap) (node c : loc) :
  sortChildren h node !!! c =
    if decide (c = node)
    then withChildren (h !!! node) (sort (byDecendents h) (kids h node))
    else h !!! c.
Proof.
  unfold sortChildren. destruct (decide (c = node)) as [-> | Hne].
  - destruct (decide (node < length h)) as [Hlt | Hge].
    + by rewrite list_lookup_total_insert_eq.
    + rewrite list_insert_ge by lia.
      unfold kids. rewrite (lookup_total_ge h node) by lia. done.
  - by rewrite list_lookup_total_insert_ne.
Qed.

Lemma sortChildren_kids (h : heap) (node c : loc) :
  kids (sortChildren h node) c =
    if decide (c = node) then sort (byDecendents h) (kids h node) else kids h c.
Proof. unfold kids at 1. rewrite sortChildren_lookup. by case_decide. Qed.

Lemma sortChildren_frame (h : heap) (node : loc) : sameFrame h (sortChildren h node).
Proof.
  split; [apply length_insert | intros c; rewrite sortChildren_lookup;
                                 case_decide; subst; simpl; try done ..].
  apply sort_perm.
Qed.

Lemma enterMark_graph (node : loc) (level : nat) (s : LayoutState) :
  graph (enterMark node level s) = sortChildren (graph s) node.
Proof. unfold enterMark. by destruct (list_find _ _) as [[i target]|]. Qed.

(** Whenever the conversion returns, the graph it leaves differs from the
    one it started on in the order of [children] arrays only. *)
Lemma convertComponentToMark_frame (fuel : nat) (node : loc) (level : nat)
    (s s' : LayoutState) :
  convertComponentToMark fuel node level s = Some s' →
  sameFrame (graph s) (graph s').
Proof.
  revert node level s s'. induction fuel as [|fuel IH]; intros node level s s'; [done |].
  simpl. intros Hrun.
  apply (forEachM_prefix _ (λ _ t, sameFrame (graph s) (graph t))) in Hrun; [done | |].
  - rewrite enterMark_graph. apply sortChildren_frame.
  - intros _ k t t' _ Ht Hbody.
    destruct (kids (graph t) node !! k) as [child|]; [| by injection Hbody as <-].
    apply IH in Hbody. by apply (sameFrame_trans _ (graph t)).
Qed.

Lemma layoutMarks_frame (fuel : nat) (h : heap) (components : list loc)
    (s' : LayoutState) :
  layoutMarks fuel h components = Some s' → sameFrame h (graph s').
Proof.
  unfold layoutMarks. intros Hrun.
  apply (forEachM_prefix _ (λ _ t, sameFrame h (graph t))) in Hrun; [done | |].
  - apply sameFrame_refl.
  - intros _ r t t' _ Ht Hbody. apply convertComponentToMark_frame in Hbody.
    by apply (sameFrame_trans _ (graph t)).
Qed.

(** *** Graphs that differ in the order of children *)

Section Frame.
Variables h h' : heap.
Hypothesis Hframe : sameFrame h h'.

Lemma sameFrame_sym : sameFrame h' h.
Proof. destruct Hframe. by split. Qed.

Lemma sameFrame_idOf (c : loc) : idOf h' c = idOf h c.
Proof. apply (sf_id _ _ Hframe). Qed.

Lemma sameFrame_kids (c : loc) : kids h' c ≡ₚ kids h c.
Proof. apply (sf_children _ _ Hframe). Qed.

Lemma sameFrame_childOf (c d : loc) : childOf h c d → childOf h' c d.
Proof. unfold childOf. by rewrite sameFrame_kids. Qed.

Lemma sameFrame_descendant (c d : loc) : descendant h c d → descendant h' c d.
Proof.
  intros Hd. induction Hd as [a b Hab | a b e Hab _ IH].
  - by apply tc_once, sameFrame_childOf.
  - apply (tc_l _ a b e); [by apply sameFrame_childOf | done].
Qed.

Lemma sameFrame_closed : closed h → closed h'.
Proof.
  intros Hcl c child. rewrite (sf_falseChildren _ _ Hframe), (sf_children _ _ Hframe).
  rewrite (sf_length _ _ Hframe). apply Hcl.
Qed.

Lemma sameFrame_ids : comp_id <$> h' = comp_id <$> h.
Proof.
  apply list_eq. intros i. rewrite !list_lookup_fmap.
  destruct (decide (i < length h)) as [Hi | Hi].
  - rewrite (lookup_total_lt h i Hi), (lookup_total_lt h' i).
    + simpl. by rewrite (sf_id _ _ Hframe).
    + by rewrite (sf_length _ _ Hframe).
  - rewrite !lookup_ge_None_2; [done | lia |].
    rewrite (sf_length _ _ Hframe). lia.
Qed.

Lemma sameFrame_unique : uniqueIds h → uniqueIds h'.
Proof. unfold uniqueIds. by rewrite sameFrame_ids. Qed.
End Frame.

(** The number of descendants does not depend on the order of children. *)
Lemma sameFrame_count (h h' : heap) (c : loc) :
  closed h → uniqueIds h → sameFrame h h' →
  countDecendent h' c = countDecendent h c.
Proof.
  intros Hcl Hu Hf. unfold countDecendent. apply Permutation_length.
  pose proof (sameFrame_closed h h' Hf Hcl) as Hcl'.
  pose proof (sameFrame_unique h h' Hf Hu) as Hu'.
  apply NoDup_Permutation; [apply visitDecendent_NoDup .. |].
  intros x. split; intros Hx%visitDecendent_sound;
    apply visitDecendent_complete; try done.
  - by apply (sameFrame_descendant h' h (sameFrame_sym h h' Hf)).
  - by apply (sameFrame_descendant h h' Hf).
Qed.

(** *** The conversion returns *)

Section Returns.
Variable h0 : heap.
Hypothesis Hclosed : closed h0.
Hypothesis Hunique : uniqueIds h0.

Lemma noCycleBelow_child (c d : loc) :
  noCycleBelow h0 c → childOf h0 c d → noCycleBelow h0 d.
Proof.
  intros Hc Hcd e He. apply Hc. by apply (rtc_l _ c d e).
Qed.

Lemma convertComponentToMark_returns (fuel : nat) (node : loc) (level : nat)
    (s : LayoutState) :
  sameFrame h0 (graph s) → noCycleBelow h0 node →
  countDecendent h0 node < fuel →
  ∃ s', convertComponentToMark fuel node level s = Some s' ∧
        sameFrame h0 (graph s').
Proof.
  revert node level s.
  induction fuel as [|fuel IH]; intros node level s Hf Hnc Hfuel; [lia |].
  simpl. apply (forEachM_total _ (λ t, sameFrame h0 (graph t))).
  - rewrite enterMark_graph.
    apply (sameFrame_trans _ (graph s)); [done | apply sortChildren_frame].
  - intros k t _ Ht.
    destruct (kids (graph t) node !! k) as [child|] eqn:Hk; [| by exists t].
    assert (Hchild : childOf h0 node child).
    { apply (sameFrame_childOf _ _ (sameFrame_sym _ _ Ht)).
      apply list_elem_of_lookup. by exists k. }
    apply IH; [done | by apply (noCycleBelow_child node) |].
    assert (countDecendent h0 child < countDecendent h0 node); [| lia].
    apply countDecendent_lt; [done | done | | by apply tc_once].
    apply Hnc. by apply rtc_once.
Qed.

Lemma layoutMarks_returns (components : list loc) :
  (∀ r, r ∈ findRoots h0 components → noCycleBelow h0 r) →
  ∃ s', layoutMarks (visitFuel h0) h0 components = Some s' ∧
        sameFrame h0 (graph s').
Proof.
  intros Hnc. unfold layoutMarks.
  apply (forEachM_total _ (λ t, sameFrame h0 (graph t))).
  - apply sameFrame_refl.
  - intros r t Hr Ht. apply convertComponentToMark_returns; [done | by apply Hnc |].
    pose proof (countDecendent_le h0 r Hclosed). unfold visitFuel. lia.
Qed.
End Returns.

(** *** The children end up sorted *)

Section Settles.
Variable h0 : heap.
Hypothesis Hclosed : closed h0.
Hypothesis Hunique : uniqueIds h0.

Lemma byDecendents_frame (h : heap) (a b : loc) :
  sameFrame h0 h → byDecendents h a b = byDecendents h0 a b.
Proof.
  intros Hf. unfold byDecendents.
  by rewrite !(sameFrame_count h0 h _ Hclosed Hunique Hf).
Qed.

Lemma sort_settled (l : list loc) :
  sort (byDecendents h0) (sort (byDecendents h0) l) = sort (byDecendents h0) l.
Proof. apply (sort_idemp (countDecendent h0)). Qed.

(** One [sort]: the array of [node] is settled, settled arrays stay so. *)
Lemma sortChildren_tidy (h : heap) (node : loc) :
  tidy h0 h →
  tidy h0 (sortChildren h node) ∧
  settled h0 (sortChildren h node) node ∧
  ∀ c, settled h0 h c → settled h0 (sortChildren h node) c.
Proof.
  intros [Hf Hk].
  assert (Hnode : settled h0 (sortChildren h node) node).
  { unfold settled. rewrite sortChildren_kids, decide_True by done.
    rewrite (sort_ext _ (byDecendents h0)) by (intros; by apply byDecendents_frame).
    destruct (Hk node) as [-> | ->]; [done | apply sort_settled]. }
  assert (Hmono : ∀ c, settled h0 h c → settled h0 (sortChildren h node) c).
  { intros c Hc. destruct (decide (c = node)) as [-> | Hne]; [done |].
    unfold settled. by rewrite sortChildren_kids, decide_False. }
  split_and!; [| done | done]. split.
  - apply (sameFrame_trans _ h); [done | apply sortChildren_frame].
  - intros c. destruct (decide (c = node)) as [-> | Hne]; [by right |].
    rewrite sortChildren_kids, decide_False by done.
    destruct (Hk c) as [? | Hc]; [by left | right].
    unfold settled. by rewrite sortChildren_kids, decide_False.
Qed.

Lemma convertComponentToMark_settles (fuel : nat) (node : loc) (level : nat)
    (s s' : LayoutState) :
  tidy h0 (graph s) →
  convertComponentToMark fuel node level s = Some s' →
  tidy h0 (graph s') ∧
  (∀ c, settled h0 (graph s) c → settled h0 (graph s') c) ∧
  (∀ c, rtc (childOf h0) node c → settled h0 (graph s') c).
Proof.
  revert node level s s'.
  induction fuel as [|fuel IH]; intros node level s s' Htidy; [done |].
  simpl.
  destruct (sortChildren_tidy (graph s) node Htidy) as (T1 & Snode & Mono1).
  set (sorted0 := sort (byDecendents h0) (kids h0 node)).
  assert (Hlen : length (kids (sortChildren (graph s) node) node) = length sorted0)
    by (by rewrite Snode).
  rewrite Hlen.
  rewrite <- (enterMark_graph node level s) in T1, Snode, Mono1.
  set (s1 := enterMark node level s) in *.
  intros Hrun.
  apply (forEachM_prefix _ (λ pre t,
    tidy h0 (graph t) ∧
    (∀ c, settled h0 (graph s1) c → settled h0 (graph t) c) ∧
    (∀ k child c, k ∈ pre → sorted0 !! k = Some child →
                  rtc (childOf h0) child c → settled h0 (graph t) c)))
    in Hrun.
  - destruct Hrun as (T' & M' & D'). split_and!; [done | by auto |].
    intros c [-> | (y & Hy & Hyc)]%rtc_inv; [by apply M' |].
    assert (Hin : y ∈ sorted0) by (unfold sorted0; by rewrite sort_perm).
    apply list_elem_of_lookup in Hin as [k Hk].
    apply (D' k y c); [| done | done].
    apply elem_of_seq. apply lookup_lt_Some in Hk. lia.
  - split_and!; [done | done |]. by intros k child c ?%elem_of_nil.
  - intros pre k t t' _ (Tt & Mt & Dt) Hbody.
    rewrite (Mt node Snode) in Hbody. fold sorted0 in Hbody.
    destruct (sorted0 !! k) as [child|] eqn:Hk.
    + apply IH in Hbody as (Tt' & Mt' & Dt'); [| done].
      split_and!; [done | by auto |].
      intros k' child' c [Hk' | ->%list_elem_of_singleton]%elem_of_app Hlook Hreach.
      * apply Mt'. by apply (Dt k' child' c).
      * rewrite Hk in Hlook. injection Hlook as <-. by apply Dt'.
    + injection Hbody as <-. split_and!; [done | done |].
      intros k' child' c [Hk' | ->%list_elem_of_singleton]%elem_of_app Hlook Hreach.
      * by apply (Dt k' child' c).
      * by rewrite Hk in Hlook.
Qed.

Lemma layoutMarks_settles (fuel : nat) (components : list loc) (s' : LayoutState) :
  layoutMarks fuel h0 components = Some s' →
  ∀ r c, r ∈ findRoots h0 components → rtc (childOf h0) r c →
         settled h0 (graph s') c.
Proof.
  unfold layoutMarks. intros Hrun.
  apply (forEachM_prefix _ (λ pre t,
    tidy h0 (graph t) ∧
    ∀ r c, r ∈ pre → rtc (childOf h0) r c → settled h0 (graph t) c)) in Hrun.
  - by destruct Hrun.
  - split; [| by intros r c ?%elem_of_nil].
    split; [apply sameFrame_refl | by left].
  - intros pre r t t' _ (Tt & Dt) Hbody.
    apply convertComponentToMark_settles in Hbody as (Tt' & Mt' & Dt'); [| done].
    split; [done |].
    intros r' c [Hr' | ->%list_elem_of_singleton]%elem_of_app Hreach.
    + apply Mt'. by apply (Dt r' c).
    + by apply Dt'.
Qed.

(** What being settled says of the order. *)
Lemma settled_sortedFrom (h : heap) (c : loc) :
  settled h0 h c → sortedFrom h0 (kids h0 c) (kids h c).
Proof.
  unfold settled, sortedFrom. intros ->. split_and!.
  - apply sort_perm.
  - apply (sort_sorted (countDecendent h0)).
  - intros n. apply (sort_stable (countDecendent h0)).
Qed.
End Settles.

(** C3, as stated, fails: converting [reorderGraph] to marks leaves the
    children of Root in the order B, A; they were A, B. *)
Lemma layoutMarks_reorders : ¬ layoutReadOnly reorderGraph [0; 1; 2; 3].
Proof.
  intros H.
  assert (Hrun : ∃ s', layoutMarks 4 reorderGraph [0; 1; 2; 3] = Some s' ∧
                       kids (graph s') 0 = [2; 1]).
  { vm_compute. eexists. split; reflexivity. }
  destruct Hrun as (s' & Hs' & Hkids).
  apply H in Hs'. rewrite Hs' in Hkids. discriminate.
Qed.

(** C3 (amended). The conversion to marks changes the graph in the order
    of [children] arrays only: whenever it returns, every component has the id,
    name, props, states, effects and [falseChildren] it had, and its [children]
    are a permutation of what they were.  It returns whenever no cycle can be
    reached from a root. *)
Theorem layoutMarks_reorders_children_only (h : heap) (components : list loc)
    (Hclosed : closed h) (Hunique : uniqueIds h) :
  (∀ fuel s', layoutMarks fuel h components = Some s' → sameFrame h (graph s')) ∧
  ((∀ r, r ∈ findRoots h components → noCycleBelow h r) →
   ∃ s', layoutMarks (visitFuel h) h components = Some s').
Proof.
  split.
  - intros fuel s'. apply layoutMarks_frame.
  - intros Hnocycle.
    destruct (layoutMarks_returns h Hclosed Hunique components Hnocycle)
      as (s' & Hrun & _).
    by exists s'.
Qed.

(** C5. [countDecendent] is the number of distinct components reachable by
    one or more [children] steps.  Whenever the layout returns, the [children]
    of every component it processed (every component reachable from a root)
    are the original children ordered by [countDecendent], largest first,
    children with equal counts in their original order; [countDecendent]
    itself is unchanged by the reordering.  The layout returns whenever no
    cycle can be reached from a root. *)
Theorem layoutMarks_sorts_children (h : heap) (components : list loc)
    (Hclosed : closed h) (Hunique : uniqueIds h) :
  (∀ c, ∃ ds, NoDup ds ∧ (∀ x, x ∈ ds ↔ descendant h c x) ∧
              countDecendent h c = length ds) ∧
  (∀ fuel s', layoutMarks fuel h components = Some s' →
     (∀ x, countDecendent (graph s') x = countDecendent h x) ∧
     (∀ r c, r ∈ findRoots h components → rtc (childOf h) r c →
             sortedFrom h (kids h c) (kids (graph s') c))) ∧
  ((∀ r, r ∈ findRoots h components → noCycleBelow h r) →
   ∃ s', layoutMarks (visitFuel h) h components = Some s').
Proof.
  split_and!.
  - intros c. exists (visitDecendent h c). split_and!.
    + apply visitDecendent_NoDup.
    + intros x. split; [apply visitDecendent_sound |].
      by apply visitDecendent_complete.
    + done.
  - intros fuel s' Hrun. split.
    + intros x. apply sameFrame_count; [done | done |].
      by apply (layoutMarks_frame fuel _ components).
    + intros r c Hr Hreach. apply settled_sortedFrom.
      by apply (layoutMarks_settles h Hclosed Hunique fuel components s' Hrun r c).
  - intros Hnocycle.
    destruct (layoutMarks_returns h Hclosed Hunique components Hnocycle)
      as (s' & Hrun & _).
    by exists s'.
Qed.

(** ** Serialization *)

Lemma mapM_decode {A B : Type} (enc : A → B) (dec : B → option A) (l : list A) :
  (∀ x, dec (enc x) = Some x) → mapM dec (enc <$> l) = Some l.
Proof.
  intros Hdec. apply mapM_Some. induction l as [|x l IH]; simpl.
  - constructor.
  - constructor; [apply Hdec | exact IH].
Qed.

Lemma readIds (ids : list string) : mapM asString (JString <$> ids) = Some ids.
Proof. by apply mapM_decode. Qed.

Lemma readProp_propJson (p : PropNode) : readProp (propJson p) = Some p.
Proof.
  destruct p as [i n r]. unfold readProp, propJson, readString, readList, idsJson.
  simpl. by rewrite readIds.
Qed.

Lemma readState_stateJson (st : StateNode) : readState (stateJson st) = Some st.
Proof. by destruct st. Qed.

Lemma readEffect_effectJson (e : EffectNode) : readEffect (effectJson e) = Some e.
Proof.
  destruct e as [i d t]. unfold readEffect, effectJson, readString, readList, idsJson.
  simpl. by rewrite !readIds.
Qed.

Lemma toJson_dataJson (h : heap) (components : list loc) :
  dataJson (dataOf h components) = toJson h components.
Proof.
  unfold dataJson, toJson, dataOf. simpl. by rewrite <- list_fmap_compose.
Qed.

Lemma fromJson_dataJson (d : DataProps) : fromJson (dataJson d) = Some d.
Proof.
  destruct d as [cs]. unfold fromJson, dataJson, readList. simpl.
  rewrite mapM_decode; [done |].
  intros [i n ks fs ps ss es].
  unfold readComponent, readString, readList, idsJson. simpl.
  rewrite !readIds. simpl.
  rewrite (mapM_decode propJson readProp) by apply readProp_propJson.
  rewrite (mapM_decode stateJson readState) by apply readState_stateJson.
  rewrite (mapM_decode effectJson readEffect) by apply readEffect_effectJson.
  done.
Qed.

(** With unique ids, a list of references into the graph is determined by
    the list of their ids. *)
Lemma idOf_fmap_inj (h : heap) (ks ks' : list loc) :
  uniqueIds h →
  (∀ k, k ∈ ks ++ ks' → k < length h) →
  idOf h <$> ks = idOf h <$> ks' → ks = ks'.
Proof.
  intros Hu. revert ks'.
  induction ks as [|k ks IH]; intros [|k' ks'] Hvalid Heq; try done.
  injection Heq as Hk Hks. f_equal.
  - apply (idOf_inj h); [done | | | done]; apply Hvalid; set_solver.
  - apply IH; [| done]. intros x Hx. apply Hvalid. set_solver.
Qed.

(** C8. Read back, the output of [toJson] is the graph of ids of the
    in-memory graph: the same components in the same order, each with its id,
    name, props, states and effects and with its [children] and
    [falseChildren] as the lists of their ids; re-serializing what was read
    gives the output of [toJson] again, as it does for every graph of ids; and
    when ids are unique the id lists determine the reference lists they were
    made from. *)
Theorem toJson_round_trip (h : heap) (components : list loc) :
  fromJson (toJson h components) = Some (dataOf h components) ∧
  (∀ d, fromJson (toJson h components) = Some d →
        dataJson d = toJson h components) ∧
  (∀ d, fromJson (dataJson d) = Some d) ∧
  (uniqueIds h →
   ∀ ks ks', (∀ k, k ∈ ks ++ ks' → k < length h) →
             idOf h <$> ks = idOf h <$> ks' → ks = ks').
Proof.
  assert (Hread : fromJson (toJson h components) = Some (dataOf h components)).
  { rewrite <- toJson_dataJson. apply fromJson_dataJson. }
  split_and!.
  - exact Hread.
  - intros d Hd. rewrite Hread in Hd. injection Hd as <-. apply toJson_dataJson.
  - apply fromJson_dataJson.
  - intros Hu ks ks'. by apply idOf_fmap_inj.
Qed.

Example toJson_sampleGraph :
  fromJson (toJson sampleGraph [0; 1; 2]) =
    Some {| componentList :=
      [ {| data_id := "component-0"; data_name := "App";
           data_children := ["component-1"];
           data_falseChildren := ["component-2"];
           data_props := []; data_states := []; data_effects := [] |};
        {| data_id := "component-1"; data_name := "Page";
           data_children := []; data_falseChildren := [];
           data_props := []; data_states := []; data_effects := [] |};
        {| data_id := "component-2"; data_name := "Modal";
           data_children := []; data_falseChildren := [];
           data_props := []; data_states := []; data_effects := [] |} ] |}.
Proof. reflexivity. Qed.

(** ** The sample graphs *)

Lemma acyclicb_acyclic (h : heap) :
  closed h → uniqueIds h → acyclicb h = true → acyclic h.
Proof.
  unfold acyclicb. intros Hcl Hu Hb c Hd.
  destruct (decide (c < length h)) as [Hc | Hc].
  - rewrite forallb_forall in Hb. specialize (Hb c).
    rewrite negb_true_iff, bool_decide_eq_false in Hb.
    apply Hb; [| by apply visitDecendent_complete].
    apply list_elem_of_In, elem_of_seq. lia.
  - assert (Hkid : ∃ x, childOf h c x) by (inversion Hd; eauto).
    destruct Hkid as [x Hx]. unfold childOf, kids in Hx.
    rewrite lookup_total_ge in Hx by lia. by apply elem_of_nil in Hx.
Qed.

Lemma acyclic_noCycleBelow (h : heap) (c : loc) : acyclic h → noCycleBelow h c.
Proof. intros Hac d _. apply Hac. Qed.

Lemma cyclicGraph_closed : closed cyclicGraph.
Proof. apply closedb_closed. reflexivity. Qed.

Lemma cyclicGraph_unique : uniqueIds cyclicGraph.
Proof. apply (bool_decide_unpack _). vm_compute. exact I. Qed.

Lemma reorderGraph_closed : closed reorderGraph.
Proof. apply closedb_closed. reflexivity. Qed.

Lemma reorderGraph_unique : uniqueIds reorderGraph.
Proof. apply (bool_decide_unpack _). vm_compute. exact I. Qed.

Lemma reorderGraph_acyclic : acyclic reorderGraph.
Proof.
  apply acyclicb_acyclic;
    [apply reorderGraph_closed | apply reorderGraph_unique | reflexivity].
Qed.

Lemma sampleGraph_extraction : ExtractionGraph sampleGraph [0; 1; 2].
Proof.
  split.
  - apply closedb_closed. reflexivity.
  - apply (bool_decide_unpack _). vm_compute. exact I.
  - intros c Hc. apply elem_of_seq with (j := 0) (n := 3). exact Hc.
  - intros [|[|[|c]]] Hc; [reflexivity .. | simpl in Hc; lia].
  - intros [|[|[|c]]] Hc x; simpl; try (intros []%elem_of_nil).
    intros ->%list_elem_of_singleton [= ]%list_elem_of_singleton.
Qed.

Lemma visitDecendent_once_each_witness :
  NoDup (visitDecendent cyclicGraph 0) ∧
  ∀ x, x ∈ visitDecendent cyclicGraph 0 ↔ descendant cyclicGraph 0 x.
Proof.
  destruct (visitDecendent_once_each cyclicGraph 0
              cyclicGraph_closed cyclicGraph_unique) as (_ & Hn & Hiff).
  by split.
Defined.

Lemma findRoots_roots_witness :
  0 ∈ findRoots reorderGraph [0; 1; 2; 3] ↔
  0 ∈ [0; 1; 2; 3] ∧ ∀ d, d ∈ [0; 1; 2; 3] → ¬ descendant reorderGraph d 0.
Proof.
  assert (Hvalid : ∀ c, c ∈ [0; 1; 2; 3] → c < length reorderGraph).
  { intros c Hc. apply elem_of_seq with (j := 0) (n := 4). exact Hc. }
  destruct (findRoots_roots reorderGraph [0; 1; 2; 3]
              reorderGraph_closed reorderGraph_unique Hvalid) as (Hiff & _ & _).
  exact (Hiff 0).
Defined.

Lemma layoutMarks_reorders_children_only_witness :
  ∃ s', layoutMarks (visitFuel reorderGraph) reorderGraph [0; 1; 2; 3] = Some s' ∧
        sameFrame reorderGraph (graph s').
Proof.
  destruct (layoutMarks_reorders_children_only reorderGraph [0; 1; 2; 3]
              reorderGraph_closed reorderGraph_unique) as [Hframe Hrun].
  destruct Hrun as [s' Hs'].
  - intros r _. apply acyclic_noCycleBelow, reorderGraph_acyclic.
  - exists s'. split; [exact Hs' | exact (Hframe _ _ Hs')].
Defined.

Lemma layoutMarks_sorts_children_witness :
  ∃ s', layoutMarks (visitFuel reorderGraph) reorderGraph [0; 1; 2; 3] = Some s' ∧
        sortedFrom reorderGraph [1; 2] (kids (graph s') 0).
Proof.
  destruct (layoutMarks_sorts_children reorderGraph [0; 1; 2; 3]
              reorderGraph_closed reorderGraph_unique) as (_ & Hsorted & Hrun).
  destruct Hrun as [s' Hs'].
  - intros r _. apply acyclic_noCycleBelow, reorderGraph_acyclic.
  - exists s'. split; [exact Hs' |].
    destruct (Hsorted _ _ Hs') as [_ Hall].
    apply (Hall 0 0); [| apply rtc_refl].
    apply list_elem_of_In. vm_compute. auto.
Defined.

(** With a cycle below a root the conversion does not return. *)
Example layoutMarks_lasso :
  findRoots lassoGraph [0; 1; 2] = [0] ∧
  layoutMarks (visitFuel lassoGraph) lassoGraph [0; 1; 2] = None ∧
  layoutMarks 100 lassoGraph [0; 1; 2] = None.
Proof. split_and!; vm_compute; reflexivity. Qed.

Example layoutMarks_reorderGraph :
  (λ s, kids (graph s) 0) <$> layoutMarks (visitFuel reorderGraph) reorderGraph [0; 1; 2; 3]
  = Some [2; 1].
Proof. vm_compute. reflexivity. Qed.


(** * Properties of the rest of [MainView] *)

(** ** Loops that keep *)

Lemma foldl_keep {A : Type} (body : list A → A → list A) (keep : A → bool)
    (l acc : list A) :
  (∀ acc x, body acc x = if keep x then acc ++ [x] else acc) →
  foldl body acc l = acc ++ filter (λ x, keep x) l.
Proof.
  intros Hbody. revert acc. induction l as [|x l IH]; intros acc; simpl.
  - by rewrite app_nil_r.
  - rewrite Hbody, IH. destruct (keep x) eqn:Hx.
    + rewrite filter_cons_True by (by rewrite Hx). by rewrite <- app_assoc.
    + rewrite filter_cons_False; [done | rewrite Hx; exact id].
Qed.

Lemma find_None_ids {A : Type} (ident : A → string) (l : list A) (i : string) :
  List.find (λ target, bool_decide (ident target = i)) l = None ↔ i ∉ ident <$> l.
Proof.
  induction l as [|x l IH]; simpl.
  - split; [intros _; apply not_elem_of_nil | done].
  - rewrite not_elem_of_cons. case_bool_decide as Hx.
    + split; [done | intros [Hne _]; by destruct Hne].
    + rewrite IH. split; [intros ?; split; [congruence | done] | by intros [_ ?]].
Qed.

(** What the three [remove...Nodes] functions compute. *)
Lemma removeNodes_filter {A : Type} (ident : A → string) (owned : list A)
    (current : list FlowNode) :
  foldl (λ acc n,
    match List.find (λ target, bool_decide (ident target = node_id (base n))) owned with
    | None => acc ++ [n]
    | Some _ => acc
    end) [] current =
  filter (λ n, node_id (base n) ∉ ident <$> owned) current.
Proof.
  rewrite (foldl_keep _
    (λ n, bool_decide (node_id (base n) ∉ ident <$> owned))).
  - rewrite app_nil_l. apply list_filter_iff. intros n.
    by rewrite bool_decide_spec.
  - intros acc n.
    destruct (List.find _ owned) eqn:Hfind.
    + rewrite bool_decide_eq_false_2; [done |].
      intros Hn%find_None_ids. congruence.
    + rewrite bool_decide_eq_true_2; [done |]. by apply find_None_ids.
Qed.

Lemma filter_all {A : Type} (P : A → Prop) `{∀ x, Decision (P x)} (l : list A) :
  (∀ x, x ∈ l → P x) → filter P l = l.
Proof.
  induction l as [|x l IH]; intros Hall; [done |].
  rewrite filter_cons_True by (apply Hall; left).
  f_equal. apply IH. intros y Hy. apply Hall. by right.
Qed.

Lemma filter_none {A : Type} (P : A → Prop) `{∀ x, Decision (P x)} (l : list A) :
  (∀ x, x ∈ l → ¬ P x) → filter P l = [].
Proof.
  induction l as [|x l IH]; intros Hall; [done |].
  rewrite filter_cons_False by (apply Hall; left).
  apply IH. intros y Hy. apply Hall. by right.
Qed.

(** ** Inner nodes *)

Lemma convertPropNodes_ids (c : ComponentNode) :
  (λ n, node_id (base n)) <$> convertPropNodes c = prop_id <$> props c.
Proof.
  unfold convertPropNodes. rewrite fmap_imap.
  generalize (props c). intros l. apply list_eq. intros i.
  rewrite list_lookup_imap, list_lookup_fmap. by destruct (l !! i).
Qed.

Lemma convertStateNodes_ids (c : ComponentNode) :
  (λ n, node_id (base n)) <$> convertStateNodes c = state_id <$> states c.
Proof.
  unfold convertStateNodes. rewrite fmap_imap.
  generalize (states c). intros l. apply list_eq. intros i.
  rewrite list_lookup_imap, list_lookup_fmap. by destruct (l !! i).
Qed.

Lemma convertEffectNodes_ids (c : ComponentNode) :
  (λ n, node_id (base n)) <$> convertEffectNodes c = effect_id <$> effects c.
Proof.
  unfold convertEffectNodes. rewrite fmap_imap.
  generalize (effects c). intros l. apply list_eq. intros i.
  rewrite list_lookup_imap, list_lookup_fmap. by destruct (l !! i).
Qed.

(** Removing the nodes of a component from a list they were appended to
    gives the list back, when no node of the list carried one of their ids. *)
Lemma remove_appended (current added : list FlowNode) (ids : list string) :
  (λ n, node_id (base n)) <$> added = ids →
  (∀ n, n ∈ current → node_id (base n) ∉ ids) →
  filter (λ n, node_id (base n) ∉ ids) (current ++ added) = current.
Proof.
  intros Hids Hfresh. rewrite filter_app.
  rewrite (filter_all _ current) by done.
  rewrite (filter_none _ added); [by rewrite app_nil_r |].
  intros n Hn Hnot. apply Hnot. rewrite <- Hids.
  apply list_elem_of_fmap. by exists n.
Qed.

(** X1. Collapsing after expanding restores the inner nodes: removing the
    prop, state and effect nodes of a component from the lists its nodes were
    appended to gives those lists back, provided no node already in a list
    carried the id of one of the component's props, states or effects. *)
Theorem remove_undoes_convert_nodes (c : ComponentNode)
    (propNodes stateNodes effectNodes : list FlowNode)
    (Hprops : ∀ n, n ∈ propNodes → node_id (base n) ∉ prop_id <$> props c)
    (Hstates : ∀ n, n ∈ stateNodes → node_id (base n) ∉ state_id <$> states c)
    (Heffects : ∀ n, n ∈ effectNodes → node_id (base n) ∉ effect_id <$> effects c) :
  removePropNodes c (propNodes ++ convertPropNodes c) = propNodes ∧
  removeStateNodes c (stateNodes ++ convertStateNodes c) = stateNodes ∧
  removeEffectNodes c (effectNodes ++ convertEffectNodes c) = effectNodes.
Proof.
  unfold removePropNodes, removeStateNodes, removeEffectNodes.
  rewrite !removeNodes_filter. split_and!.
  - apply remove_appended; [apply convertPropNodes_ids | done].
  - apply remove_appended; [apply convertStateNodes_ids | done].
  - apply remove_appended; [apply convertEffectNodes_ids | done].
Qed.

Lemma convertPropNodes_lookup (c : ComponentNode) (i : nat) (n : FlowNode) :
  convertPropNodes c !! i = Some n →
  node_parentId (base n) = Some (comp_id c) ∧
  node_position (base n) = {| pos_x := 0; pos_y := 25 + Z.of_nat i * 45 |}.
Proof.
  unfold convertPropNodes. rewrite list_lookup_imap.
  destruct (props c !! i); [| done]. by intros [= <-].
Qed.

Lemma convertStateNodes_lookup (c : ComponentNode) (i : nat) (n : FlowNode) :
  convertStateNodes c !! i = Some n →
  node_parentId (base n) = Some (comp_id c) ∧
  node_position (base n) = {| pos_x := 300; pos_y := 25 + Z.of_nat i * 45 |}.
Proof.
  unfold convertStateNodes. rewrite list_lookup_imap.
  destruct (states c !! i); [| done]. by intros [= <-].
Qed.

Lemma convertEffectNodes_lookup (c : ComponentNode) (i : nat) (n : FlowNode) :
  convertEffectNodes c !! i = Some n →
  node_parentId (base n) = Some (comp_id c) ∧
  node_position (base n) = {| pos_x := 125; pos_y := 25 + Z.of_nat i * 45 |}.
Proof.
  unfold convertEffectNodes. rewrite list_lookup_imap.
  destruct (effects c !! i); [| done]. by intros [= <-].
Qed.

(** The column and the row of the [i]-th inner node of a component, props
    first, then states, then effects. *)
Lemma innerNodes_lookup (c : ComponentNode) (i : nat) (n : FlowNode) :
  (convertPropNodes c ++ convertStateNodes c ++ convertEffectNodes c) !! i = Some n →
  node_parentId (base n) = Some (comp_id c) ∧
  ((i < length (convertPropNodes c) ∧
    node_position (base n) = {| pos_x := 0; pos_y := 25 + Z.of_nat i * 45 |}) ∨
   (∃ j, i = length (convertPropNodes c) + j ∧ j < length (convertStateNodes c) ∧
    node_position (base n) = {| pos_x := 300; pos_y := 25 + Z.of_nat j * 45 |}) ∨
   (∃ j, i = length (convertPropNodes c) + length (convertStateNodes c) + j ∧
    node_position (base n) = {| pos_x := 125; pos_y := 25 + Z.of_nat j * 45 |})).
Proof.
  intros [Hp | [Hlen Hrest]]%lookup_app_Some.
  { pose proof (lookup_lt_Some _ _ _ Hp).
    apply convertPropNodes_lookup in Hp as [? ?]. split; [done |]. by left. }
  apply lookup_app_Some in Hrest as [Hs | [Hlen' He]].
  - pose proof (lookup_lt_Some _ _ _ Hs).
    apply convertStateNodes_lookup in Hs as [? ?]. split; [done |]. right; left.
    exists (i - length (convertPropNodes c)). split_and!; [lia | done | done].
  - apply convertEffectNodes_lookup in He as [? ?]. split; [done |]. right; right.
    exists (i - length (convertPropNodes c) - length (convertStateNodes c)).
    split; [lia | done].
Qed.

(** X2. The inner nodes of an expanded component (its prop, state and
    effect nodes) all have the component as parent, and no two of them are
    placed at the same point: props, states and effects have a column each, and
    the nodes of a column are 45 apart. *)
Theorem innerNodes_apart (c : ComponentNode) (i j : nat) (n m : FlowNode) :
  let inner := convertPropNodes c ++ convertStateNodes c ++ convertEffectNodes c in
  inner !! i = Some n → inner !! j = Some m →
  node_parentId (base n) = Some (comp_id c) ∧
  (node_position (base n) = node_position (base m) → i = j).
Proof.
  intros inner Hn Hm.
  apply innerNodes_lookup in Hn as [Hpar Hn].
  apply innerNodes_lookup in Hm as [_ Hm].
  split; [done |]. intros Heq.
  destruct Hn as [[Hi Hn] | [(a & -> & Ha & Hn) | (a & -> & Hn)]];
    destruct Hm as [[Hj Hm] | [(b & -> & Hb & Hm) | (b & -> & Hm)]];
    rewrite Hn, Hm in Heq; try discriminate;
    pose proof (f_equal pos_y Heq) as Hy; simpl in Hy; lia.
Qed.

(** ** Removing edges *)

Lemma removeEffectEdges_filter (c : ComponentNode) (edges : list Edge) :
  removeEffectEdges c edges =
    filter (λ e, edgeComponent e ≠ Some (comp_id c)) edges.
Proof.
  unfold removeEffectEdges.
  rewrite (foldl_keep _ (λ e, bool_decide (edgeComponent e ≠ Some (comp_id c))))
    by done.
  rewrite app_nil_l. apply list_filter_iff. intros e. by rewrite bool_decide_spec.
Qed.

Lemma removePropEdges_filter (c : ComponentNode) (edges : list Edge) :
  removePropEdges c edges =
    filter (λ e, edgePropRoot e ≠ Some (comp_id c) ∧
                 edgeRefRoot e ≠ Some (comp_id c)) edges.
Proof.
  unfold removePropEdges.
  rewrite (foldl_keep _
    (λ e, bool_decide (edgePropRoot e ≠ Some (comp_id c)) &&
          bool_decide (edgeRefRoot e ≠ Some (comp_id c)))) by done.
  rewrite app_nil_l. apply list_filter_iff. intros e.
  by rewrite andb_True, !bool_decide_spec.
Qed.

Lemma convertEffectEdges_component (c : ComponentNode) (e : Edge) :
  e ∈ convertEffectEdges c → edgeComponent e = Some (comp_id c).
Proof.
  intros (E & _ & [(d & _ & ->) | (t & _ & ->)])%convertEffectEdges_elem; done.
Qed.

(** X3. Removing the effect edges of a component from a list that ends
    with the effect edges of a component [c'] removes those of [c'] exactly
    when [c'] has the id of the component, and treats the front of the list as
    it would alone.  So collapsing after expanding gives the effect edges back,
    when no edge of the list was tagged with the component's id. *)
Theorem removeEffectEdges_convert (c c' : ComponentNode) (edges : list Edge) :
  removeEffectEdges c (edges ++ convertEffectEdges c') =
    removeEffectEdges c edges ++
    (if bool_decide (comp_id c' = comp_id c) then [] else convertEffectEdges c') ∧
  ((∀ e, e ∈ edges → edgeComponent e ≠ Some (comp_id c)) →
   removeEffectEdges c (edges ++ convertEffectEdges c) = edges).
Proof.
  assert (Hown : ∀ c1 c2,
    filter (λ e, edgeComponent e ≠ Some (comp_id c1)) (convertEffectEdges c2) =
    if bool_decide (comp_id c2 = comp_id c1) then [] else convertEffectEdges c2).
  { intros c1 c2. case_bool_decide as Hid.
    - apply filter_none. intros e He%convertEffectEdges_component Hne.
      apply Hne. by rewrite He, Hid.
    - apply filter_all. intros e He%convertEffectEdges_component.
      rewrite He. congruence. }
  split.
  - by rewrite !removeEffectEdges_filter, filter_app, Hown.
  - intros Hfresh. rewrite removeEffectEdges_filter, filter_app, Hown.
    rewrite bool_decide_eq_true_2 by done.
    rewrite app_nil_r. by apply filter_all.
Qed.

Lemma propRefEdges_roots (cur : list Edge) (sn pn : list Node)
    (c : ComponentNode) (prop : PropNode) (ref : string) (e : Edge) :
  e ∈ propRefEdges cur sn pn c prop ref →
  edgePropRoot e = Some (comp_id c) ∧
  ∃ target, target ∈ sn ++ pn ∧ edgeRefRoot e = Some (node_id target).
Proof.
  unfold propRefEdges, findNode.
  destruct (startsWith ref "setter").
  - destruct (List.find _ sn) as [target|] eqn:Hfind; [| by intros ?%elem_of_nil].
    destruct (findEdge cur _); [by intros ?%elem_of_nil |].
    intros ->%list_elem_of_singleton. split; [done |].
    exists target. split; [| done].
    apply find_some in Hfind as [Hin _]. apply elem_of_app. left.
    by apply list_elem_of_In.
  - destruct (List.find _ sn) as [target|] eqn:Hs.
    + destruct (findEdge cur _); [by intros ?%elem_of_nil |].
      intros ->%list_elem_of_singleton. split; [done |].
      exists target. split; [| done].
      apply find_some in Hs as [Hin _]. apply elem_of_app. left.
      by apply list_elem_of_In.
    + destruct (List.find _ pn) as [target|] eqn:Hp; [| by intros ?%elem_of_nil].
      destruct (findEdge cur _); [by intros ?%elem_of_nil |].
      intros ->%list_elem_of_singleton. split; [done |].
      exists target. split; [| done].
      apply find_some in Hp as [Hin _]. apply elem_of_app. right.
      by apply list_elem_of_In.
Qed.

Lemma filter_bind {A B : Type} (P : B → Prop) `{∀ x, Decision (P x)}
    (f : A → list B) (l : list A) :
  filter P (l ≫= f) = l ≫= (λ x, filter P (f x)).
Proof.
  induction l as [|x l IH]; csimpl; [done |].
  by rewrite filter_app, IH.
Qed.

Lemma bind_filter {A B : Type} (Q : A → Prop) `{∀ x, Decision (Q x)}
    (f : A → list B) (l : list A) :
  filter Q l ≫= f = l ≫= (λ x, if decide (Q x) then f x else []).
Proof.
  induction l as [|x l IH]; [done |].
  destruct (decide (Q x)) as [Hx | Hx].
  - rewrite filter_cons_True by done. csimpl.
    by rewrite IH, decide_True.
  - rewrite filter_cons_False by done. csimpl.
    by rewrite IH, decide_False.
Qed.

(** The prop edges of one node, after the prop edges of [c] are removed:
    none when the node is the mark of [c], all of them otherwise. *)
Lemma removePropEdges_node (h : heap) (c : ComponentNode) (cur : list Edge)
    (sn pn : list Node) (node : Node) :
  (∀ n, n ∈ sn ++ pn → node_id n ≠ comp_id c) →
  filter (λ e, edgePropRoot e ≠ Some (comp_id c) ∧ edgeRefRoot e ≠ Some (comp_id c))
    (nodePropEdges h cur sn pn node) =
  if markOf h c node then [] else nodePropEdges h cur sn pn node.
Proof.
  intros Hids. unfold nodePropEdges, markOf.
  case_bool_decide as Htype; [by destruct (match _ with Some _ => _ | None => _ end) |].
  destruct (data_component (node_data node)) as [k|]; [| done].
  case_bool_decide as Hid.
  - apply filter_none. intros e He.
    apply list_elem_of_bind in He as [prop [He _]].
    apply list_elem_of_bind in He as [ref [He _]].
    apply propRefEdges_roots in He as [Hroot _].
    intros [Hne _]. apply Hne. by rewrite Hroot, Hid.
  - apply filter_all. intros e He.
    apply list_elem_of_bind in He as [prop [He _]].
    apply list_elem_of_bind in He as [ref [He _]].
    apply propRefEdges_roots in He as [Hroot (target & Htarget & Href)].
    split.
    + rewrite Hroot. congruence.
    + rewrite Href. intros [= Heq]. by apply (Hids target).
Qed.

(** X4. When no state or prop node carries the id of a component, removing
    the component's prop edges from what [convertPropEdges] returns leaves
    what [convertPropEdges] returns without the component's mark: exactly the
    edges that end at the component's own props go.  An edge that starts at one
    of its states and ends at a prop of another component stays. *)
Theorem removePropEdges_convert (h : heap) (c : ComponentNode) (nodes : list Node)
    (currentPropEdges : list Edge) (currentStateNodes currentPropNodes : list Node)
    (Hids : ∀ n, n ∈ currentStateNodes ++ currentPropNodes → node_id n ≠ comp_id c) :
  removePropEdges c
    (convertPropEdges h nodes currentPropEdges currentStateNodes currentPropNodes) =
  convertPropEdges h (filter (λ node, ¬ markOf h c node) nodes)
    currentPropEdges currentStateNodes currentPropNodes.
Proof.
  rewrite removePropEdges_filter, !convertPropEdges_flat, filter_bind, bind_filter.
  apply list_bind_ext; [| done]. intros node.
  rewrite removePropEdges_node by done.
  destruct (markOf h c node).
  - by rewrite decide_False by (intros Hn; by apply Hn).
  - by rewrite decide_True by (intros []).
Qed.

(** ** The marks of the layout *)

Lemma enterMark_marksOk (node : loc) (level : nat) (s : LayoutState) :
  marksOk s → marksOk (enterMark node level s).
Proof.
  intros (Hnd & Hidx & Hall). unfold enterMark.
  destruct (list_find _ (newNodes s)) as [[i target]|] eqn:Hfind;
    unfold marksOk; cbn [newNodes index maxLevel graph].
  - apply list_find_Some in Hfind as (Hi & Hid & _).
    split_and!.
    + rewrite list_fmap_insert. simpl.
      rewrite list_insert_id; [done |]. by rewrite list_lookup_fmap, Hi.
    + by rewrite length_insert.
    + intros j n Hj. destruct (decide (j = i)) as [-> | Hne].
      * rewrite list_lookup_insert_eq in Hj by (by eapply lookup_lt_Some).
        injection Hj as <-. simpl.
        destruct (Hall i target Hi) as (Hix & l & Hl & Hle).
        split; [done |]. rewrite Hl. simpl. eexists. split; [done | lia].
      * rewrite list_lookup_insert_ne in Hj by done.
        destruct (Hall j n Hj) as (Hix & l & Hl & Hle).
        split; [done |]. exists l. split; [done | lia].
  - apply list_find_None in Hfind. split_and!.
    + rewrite fmap_app. simpl. apply NoDup_app. split_and!; [done | |].
      * intros i Hi ->%list_elem_of_singleton.
        apply list_elem_of_fmap in Hi as (n & Hn & Hin).
        rewrite Forall_forall in Hfind. by apply (Hfind n).
      * apply NoDup_singleton.
    + rewrite length_app. simpl. lia.
    + intros j n [Hj | [Hlen Hj]]%lookup_app_Some.
      * destruct (Hall j n Hj) as (Hix & l & Hl & Hle).
        split; [done |]. exists l. split; [done | lia].
      * destruct (j - length (newNodes s)) as [|k] eqn:Hk; [| done].
        injection Hj as <-. simpl. split.
        -- f_equal. lia.
        -- exists level. split; [done | lia].
Qed.

Lemma convertComponentToMark_marksOk (fuel : nat) (node : loc) (level : nat)
    (s s' : LayoutState) :
  marksOk s → convertComponentToMark fuel node level s = Some s' → marksOk s'.
Proof.
  revert node level s s'.
  induction fuel as [|fuel IH]; intros node level s s' Hok; [done |].
  simpl. intros Hrun.
  apply (forEachM_prefix _ (λ _ t, marksOk t)) in Hrun; [done | |].
  - by apply enterMark_marksOk.
  - intros _ k t t' _ Ht Hbody.
    destruct (kids (graph t) node !! k) as [child|]; [| by injection Hbody as <-].
    by apply IH in Hbody.
Qed.

Lemma layoutMarks_ok (fuel : nat) (h : heap) (components : list loc)
    (s' : LayoutState) :
  layoutMarks fuel h components = Some s' → marksOk s'.
Proof.
  unfold layoutMarks. intros Hrun.
  apply (forEachM_prefix _ (λ _ t, marksOk t)) in Hrun; [done | |].
  - split_and!; [apply NoDup_nil_2 | done | done].
  - intros _ r t t' _ Ht Hbody.
    by apply convertComponentToMark_marksOk in Hbody.
Qed.

(** X5. Whenever the conversion of the roots returns, the marks it has
    made have pairwise distinct ids, the mark at place [i] carries the index
    [i] (and [index] counts the marks), and every mark has a level, at most
    [maxLevel]. *)
Theorem layoutMarks_marksOk (fuel : nat) (h : heap) (components : list loc)
    (s' : LayoutState) (Hrun : layoutMarks fuel h components = Some s') :
  NoDup (node_id <$> newNodes s') ∧
  index s' = length (newNodes s') ∧
  ∀ i n, newNodes s' !! i = Some n →
    data_index (node_data n) = Some i ∧
    ∃ l, data_level (node_data n) = Some l ∧ l ≤ maxLevel s'.
Proof. exact (layoutMarks_ok fuel h components s' Hrun). Qed.

(** *** The loop over [node.children] walks the sorted children *)

Lemma forEachM_live {S A : Type} (read : S → nat → option A)
    (body : S → A → option S) (I : S → Prop) (l : list A) :
  (∀ s k, I s → read s k = l !! k) →
  (∀ s x s', x ∈ l → I s → body s x = Some s' → I s') →
  ∀ n j s, I s → n = length l - j →
    forEachM (λ s k, match read s k with
                     | None => Some s
                     | Some x => body s x
                     end) s (seq j n) =
    forEachM body s (drop j l).
Proof.
  intros Hread Hbody. induction n as [|n IH]; intros j s Hs Hn.
  - rewrite drop_ge by lia. done.
  - assert (Hj : j < length l) by lia.
    destruct (lookup_lt_is_Some_2 l j Hj) as [x Hx].
    rewrite (drop_S _ _ _ Hx). simpl. rewrite Hread, Hx by done.
    destruct (body s x) as [s'|] eqn:Hb; [| done].
    apply IH; [| lia]. apply (Hbody s x); [| done | done].
    apply list_elem_of_lookup. by exists j.
Qed.

Section Unfold.
Variable h0 : heap.
Hypothesis Hclosed : closed h0.
Hypothesis Hunique : uniqueIds h0.

(** On a graph that is the original up to settled [children] arrays, the
    conversion of a node enters its mark and then converts its children in
    sorted order. *)
Lemma convertComponentToMark_unfold (fuel : nat) (node : loc) (level : nat)
    (s : LayoutState) :
  tidy h0 (graph s) →
  convertComponentToMark (S fuel) node level s =
    forEachM (λ s child, convertComponentToMark fuel child (S level) s)
      (enterMark node level s) (sort (byDecendents h0) (kids h0 node)).
Proof.
  intros Htidy. simpl.
  destruct (sortChildren_tidy h0 Hclosed Hunique (graph s) node Htidy)
    as (T1 & Snode & _).
  rewrite <- (enterMark_graph node level s) in T1, Snode.
  set (sorted0 := sort (byDecendents h0) (kids h0 node)).
  assert (Hlen : length (kids (sortChildren (graph s) node) node) = length sorted0).
  { rewrite <- (enterMark_graph node level s). by rewrite Snode. }
  rewrite Hlen.
  rewrite <- (drop_0 sorted0) at 2.
  apply (forEachM_live (λ t k, kids (graph t) node !! k) _
           (λ t, tidy h0 (graph t) ∧ settled h0 (graph t) node)); [| | done | lia].
  - intros t k [_ Hsettled]. by rewrite Hsettled.
  - intros t x t' _ [Ht Hsettled] Hbody.
    apply (convertComponentToMark_settles h0 Hclosed Hunique) in Hbody
      as (Ht' & Hmono & _); [| done].
    split; [done | by apply Hmono].
Qed.

Lemma sorted_kids (node d : loc) :
  d ∈ sort (byDecendents h0) (kids h0 node) ↔ childOf h0 node d.
Proof. unfold childOf. by rewrite sort_perm. Qed.

(** *** Which components get a mark *)

Lemma enterMark_ids (node : loc) (level : nat) (s : LayoutState) (i : string) :
  i ∈ node_id <$> newNodes (enterMark node level s) ↔
  i ∈ node_id <$> newNodes s ∨ i = idOf (graph s) node.
Proof.
  unfold enterMark.
  destruct (list_find _ (newNodes s)) as [[j target]|] eqn:Hfind;
    cbn [newNodes].
  - apply list_find_Some in Hfind as (Hj & Hid & _).
    rewrite list_fmap_insert. simpl.
    rewrite list_insert_id by (by rewrite list_lookup_fmap, Hj).
    split; [by left |]. intros [? | ->]; [done |].
    rewrite <- Hid. apply list_elem_of_fmap. exists target. split; [done |].
    apply list_elem_of_lookup. by exists j.
  - rewrite fmap_app, elem_of_app. simpl. by rewrite list_elem_of_singleton.
Qed.

Lemma enterMark_within (R : loc → Prop) (node : loc) (level : nat) (s : LayoutState) :
  sameFrame h0 (graph s) → R node →
  marksWithin h0 R s → marksWithin h0 R (enterMark node level s).
Proof.
  intros Hf HR Hin n. unfold enterMark.
  destruct (list_find _ (newNodes s)) as [[j target]|] eqn:Hfind;
    cbn [newNodes].
  - apply list_find_Some in Hfind as (Hj & Hid & _).
    intros Hn. apply list_elem_of_lookup in Hn as [k Hk].
    destruct (decide (k = j)) as [-> | Hne].
    + rewrite list_lookup_insert_eq in Hk by (by eapply lookup_lt_Some).
      injection Hk as <-. simpl. apply Hin.
      apply list_elem_of_lookup. by exists j.
    + rewrite list_lookup_insert_ne in Hk by done. apply Hin.
      apply list_elem_of_lookup. by exists k.
  - intros [Hn | ->%list_elem_of_singleton]%elem_of_app; [by apply Hin |].
    exists node. simpl. split_and!; [done | done | |].
    + apply (sameFrame_idOf _ _ Hf).
    + apply (sf_name _ _ Hf).
Qed.

Lemma convertComponentToMark_covers (R : loc → Prop) (fuel : nat) (node : loc)
    (level : nat) (s s' : LayoutState) :
  (∀ c d, R c → childOf h0 c d → R d) → R node →
  tidy h0 (graph s) → marksWithin h0 R s →
  convertComponentToMark fuel node level s = Some s' →
  tidy h0 (graph s') ∧ marksWithin h0 R s' ∧
  (∀ i, i ∈ node_id <$> newNodes s → i ∈ node_id <$> newNodes s') ∧
  (∀ c, rtc (childOf h0) node c → idOf h0 c ∈ node_id <$> newNodes s').
Proof.
  intros HR. revert node level s s'.
  induction fuel as [|fuel IH]; intros node level s s' Hnode Htidy Hin; [done |].
  rewrite convertComponentToMark_unfold by done. intros Hrun.
  set (s1 := enterMark node level s) in *.
  assert (Hf : sameFrame h0 (graph s)) by (by destruct Htidy).
  assert (Htidy1 : tidy h0 (graph s1)).
  { unfold s1. rewrite enterMark_graph.
    by destruct (sortChildren_tidy h0 Hclosed Hunique (graph s) node Htidy). }
  apply (forEachM_prefix _ (λ pre t,
    tidy h0 (graph t) ∧ marksWithin h0 R t ∧
    (∀ i, i ∈ node_id <$> newNodes s1 → i ∈ node_id <$> newNodes t) ∧
    (∀ d c, d ∈ pre → rtc (childOf h0) d c → idOf h0 c ∈ node_id <$> newNodes t)))
    in Hrun.
  - destruct Hrun as (T' & W' & M' & D'). split_and!; [done | done | |].
    + intros i Hi. apply M', enterMark_ids. by left.
    + intros c [-> | (d & Hd & Hdc)]%rtc_inv.
      * apply M', enterMark_ids. right. symmetry. apply (sameFrame_idOf _ _ Hf).
      * apply (D' d c); [by apply sorted_kids | done].
  - split_and!; [done | by apply enterMark_within | done |].
    by intros d c ?%elem_of_nil.
  - intros pre d t t' Hd (Tt & Wt & Mt & Dt) Hbody.
    apply IH in Hbody as (Tt' & Wt' & Mt' & Dt'); [| | done | done].
    + split_and!; [done | done | by auto |].
      intros d' c [Hd' | ->%list_elem_of_singleton]%elem_of_app Hreach.
      * apply Mt'. by apply (Dt d' c).
      * by apply Dt'.
    + apply (HR node); [done | by apply sorted_kids].
Qed.

End Unfold.

Lemma belowRoots_valid (h : heap) (components : list loc) (c : loc) :
  closed h → uniqueIds h → (∀ c, c ∈ components → c < length h) →
  belowRoots h components c → c < length h.
Proof.
  intros Hcl Hu Hvalid (r & Hr & Hrc).
  apply rtc_tc in Hrc as [<- | Hd].
  - apply Hvalid. by apply (findRoots_elem h Hcl Hu components r Hvalid).
  - by apply (descendant_lt h r).
Qed.

Lemma layoutMarks_covers (h : heap) (components : list loc) (fuel : nat)
    (s' : LayoutState) :
  closed h → uniqueIds h →
  layoutMarks fuel h components = Some s' →
  marksWithin h (belowRoots h components) s' ∧
  (∀ c, belowRoots h components c → idOf h c ∈ node_id <$> newNodes s').
Proof.
  intros Hcl Hu Hrun. unfold layoutMarks in Hrun.
  apply (forEachM_prefix _ (λ pre t,
    tidy h (graph t) ∧ marksWithin h (belowRoots h components) t ∧
    (∀ r c, r ∈ pre → rtc (childOf h) r c → idOf h c ∈ node_id <$> newNodes t)))
    in Hrun.
  - destruct Hrun as (_ & W & D). split; [done |].
    intros c (r & Hr & Hrc). by apply (D r c).
  - split_and!.
    + split; [apply sameFrame_refl | by left].
    + by intros n ?%elem_of_nil.
    + by intros r c ?%elem_of_nil.
  - intros pre r t t' Hr (Tt & Wt & Dt) Hbody.
    apply (convertComponentToMark_covers h Hcl Hu (belowRoots h components))
      in Hbody as (Tt' & Wt' & Mt' & Dt'); [| | | done | done].
    + split_and!; [done | done |].
      intros r' c [Hr' | ->%list_elem_of_singleton]%elem_of_app Hreach.
      * apply Mt'. by apply (Dt r' c).
      * by apply Dt'.
    + intros c d (r0 & Hr0 & Hc) Hcd. exists r0. split; [done |].
      by apply (rtc_r _ c).
    + exists r. split; [done | apply rtc_refl].
Qed.

(** X6. Whenever the conversion of the roots returns, every mark is the
    mark of a component reachable from a root (it carries that component, its
    id and its name), and every component reachable from a root has exactly one
    mark.  In an acyclic graph that is every component of [componentList]. *)
Theorem layoutMarks_one_mark_each (h : heap) (components : list loc) (fuel : nat)
    (s' : LayoutState)
    (Hclosed : closed h) (Hunique : uniqueIds h)
    (Hvalid : ∀ c, c ∈ components → c < length h)
    (Hrun : layoutMarks fuel h components = Some s') :
  (∀ n, n ∈ newNodes s' →
     ∃ c, belowRoots h components c ∧ data_component (node_data n) = Some c ∧
          node_id n = idOf h c ∧ data_label (node_data n) = comp_name (h !!! c)) ∧
  (∀ c, belowRoots h components c →
     ∃ i n, newNodes s' !! i = Some n ∧ data_component (node_data n) = Some c ∧
       ∀ j m, newNodes s' !! j = Some m →
              data_component (node_data m) = Some c → j = i) ∧
  (acyclic h → ∀ c, c ∈ components → belowRoots h components c).
Proof.
  destruct (layoutMarks_covers h components fuel s' Hclosed Hunique Hrun)
    as [Hwithin Hcover].
  destruct (layoutMarks_ok fuel h components s' Hrun) as (Hnodup & _ & _).
  split_and!.
  - exact Hwithin.
  - intros c Hc.
    pose proof (belowRoots_valid h components c Hclosed Hunique Hvalid Hc) as Hcv.
    destruct (proj1 (list_elem_of_fmap _ _ _) (Hcover c Hc)) as (n & Hid & Hn).
    apply list_elem_of_lookup in Hn as [i Hi].
    assert (Hown : ∀ j m, newNodes s' !! j = Some m →
              data_component (node_data m) = Some c → node_id m = idOf h c).
    { intros j m Hj Hm.
      destruct (Hwithin m) as (c' & _ & Hc' & Hid' & _).
      { apply list_elem_of_lookup. by exists j. }
      congruence. }
    exists i, n. split_and!; [done | |].
    + destruct (Hwithin n) as (c' & Hb' & Hc' & Hid' & _).
      { apply list_elem_of_lookup. by exists i. }
      rewrite Hc'. f_equal. apply (idOf_inj h); [done | | done | congruence].
      by apply (belowRoots_valid h components).
    + intros j m Hj Hm.
      apply (NoDup_lookup (node_id <$> newNodes s') j i (idOf h c) Hnodup).
      * rewrite list_lookup_fmap, Hj. simpl. by rewrite (Hown j m Hj Hm).
      * rewrite list_lookup_fmap, Hi. simpl. by rewrite Hid.
  - intros Hac c Hc.
    destruct (decide (c ∈ findRoots h components)) as [Hroot | Hroot].
    + exists c. split; [done | apply rtc_refl].
    + destruct (findRoots_cover h Hclosed Hunique components Hvalid Hac c Hc Hroot)
        as (r & Hr & Hd).
      exists r. split; [done | by apply tc_rtc].
Qed.

(** *** Finding a mark *)

Section Find.
Context {A : Type} (P : A → Prop) `{∀ x, Decision (P x)}.

Lemma list_find_snoc_miss (l : list A) (x : A) :
  ¬ P x → list_find P (l ++ [x]) = list_find P l.
Proof.
  intros Hx. induction l as [|y l IH]; simpl.
  - by rewrite decide_False.
  - destruct (decide (P y)); [done |]. by rewrite IH.
Qed.

Lemma list_find_snoc_new (l : list A) (x : A) :
  list_find P l = None → P x → list_find P (l ++ [x]) = Some (length l, x).
Proof.
  intros Hl Hx. induction l as [|y l IH]; simpl in *.
  - by rewrite decide_True.
  - destruct (decide (P y)); [done |].
    destruct (list_find P l); [done |]. by rewrite IH.
Qed.

Lemma list_find_insert_hit (l : list A) (j : nat) (x y : A) :
  list_find P l = Some (j, x) → P y → list_find P (<[j:=y]> l) = Some (j, y).
Proof.
  revert j. induction l as [|z l IH]; intros j Hl Hy; simpl in *; [done |].
  destruct (decide (P z)) as [Hz | Hz].
  - injection Hl as <- <-. simpl. by rewrite decide_True.
  - destruct (list_find P l) as [[k w]|] eqn:Hfind; [| done].
    injection Hl as <- <-. simpl. rewrite decide_False by done.
    by rewrite (IH k).
Qed.

Lemma list_find_insert_miss (l : list A) (j : nat) (x y : A) :
  l !! j = Some x → ¬ P x → ¬ P y → list_find P (<[j:=y]> l) = list_find P l.
Proof.
  revert j. induction l as [|z l IH]; intros j Hj Hx Hy; [done |].
  destruct j as [|j]; simpl in *.
  - injection Hj as ->. by rewrite !decide_False.
  - destruct (decide (P z)); [done |]. by rewrite (IH j).
Qed.
End Find.

Lemma markLevel_enter (node : loc) (level : nat) (s : LayoutState) :
  markLevel (newNodes (enterMark node level s)) (idOf (graph s) node) =
    Some (match markLevel (newNodes s) (idOf (graph s) node) with
          | Some old => Nat.max old level
          | None => level
          end).
Proof.
  unfold markLevel, enterMark.
  destruct (list_find _ (newNodes s)) as [[j target]|] eqn:Hfind;
    cbn [newNodes].
  - pose proof Hfind as (_ & Hid & _)%list_find_Some.
    rewrite (list_find_insert_hit _ _ j target (raiseLevel target level))
      by done.
    done.
  - rewrite (list_find_snoc_new _ _ _ Hfind) by done. done.
Qed.

Lemma markLevel_enter_other (node : loc) (level : nat) (s : LayoutState) (i : string) :
  i ≠ idOf (graph s) node →
  markLevel (newNodes (enterMark node level s)) i = markLevel (newNodes s) i.
Proof.
  intros Hne. unfold markLevel, enterMark.
  destruct (list_find (λ n, node_id n = idOf (graph s) node) (newNodes s))
    as [[j target]|] eqn:Hfind; cbn [newNodes].
  - apply list_find_Some in Hfind as (Hj & Hid & _).
    rewrite (list_find_insert_miss _ _ j target); [done | done | |];
      simpl; congruence.
  - rewrite list_find_snoc_miss; [done |]. simpl. congruence.
Qed.

(** *** Children are marked at greater levels *)

Section Levels.
Variable h0 : heap.
Hypothesis Hclosed : closed h0.
Hypothesis Hunique : uniqueIds h0.

Lemma kid_facts (node d : loc) :
  noCycleBelow h0 node → childOf h0 node d →
  d < length h0 ∧ noCycleBelow h0 d ∧ ¬ rtc (childOf h0) d node.
Proof.
  intros Hnc Hd. split_and!.
  - apply (Hclosed node). apply elem_of_app. by left.
  - by apply (noCycleBelow_child h0 node).
  - intros Hback. apply (Hnc node); [apply rtc_refl |].
    by apply (tc_rtc_r node d node); [apply tc_once |].
Qed.

Lemma convertComponentToMark_levels (fuel : nat) :
  ∀ (node level : nat) (s s' : LayoutState) (P : loc → Prop),
  tidy h0 (graph s) → node < length h0 → noCycleBelow h0 node →
  (∀ p, P p → ¬ rtc (childOf h0) node p) →
  (∀ c, c < length h0 → ¬ P c → levelsOk h0 s c) →
  convertComponentToMark fuel node level s = Some s' →
  (∀ i l, markLevel (newNodes s) i = Some l →
          ∃ l', markLevel (newNodes s') i = Some l' ∧ l ≤ l') ∧
  (∀ c, c < length h0 → ¬ rtc (childOf h0) node c →
        markLevel (newNodes s') (idOf h0 c) = markLevel (newNodes s) (idOf h0 c)) ∧
  (∃ l', markLevel (newNodes s') (idOf h0 node) = Some l' ∧ level ≤ l') ∧
  (∀ c, c < length h0 → ¬ P c → levelsOk h0 s' c).
Proof.
  induction fuel as [|fuel IH];
    intros node level s s' P Htidy Hnode Hnc HP Hok; [done |].
  rewrite (convertComponentToMark_unfold h0 Hclosed Hunique) by done.
  intros Hrun.
  assert (Hf : sameFrame h0 (graph s)) by (by destruct Htidy).
  pose proof (sameFrame_idOf _ _ Hf node) as Hid.
  pose proof (markLevel_enter node level s) as E1. rewrite Hid in E1.
  assert (E2 : ∀ i, i ≠ idOf h0 node →
            markLevel (newNodes (enterMark node level s)) i = markLevel (newNodes s) i).
  { intros i Hi. apply markLevel_enter_other. by rewrite Hid. }
  assert (Htidy1 : tidy h0 (graph (enterMark node level s))).
  { rewrite enterMark_graph.
    by destruct (sortChildren_tidy h0 Hclosed Hunique (graph s) node Htidy). }
  set (s1 := enterMark node level s) in *.
  set (ln := match markLevel (newNodes s) (idOf h0 node) with
             | Some old => Nat.max old level
             | None => level
             end) in *.
  assert (Mono1 : ∀ i l, markLevel (newNodes s) i = Some l →
            ∃ l', markLevel (newNodes s1) i = Some l' ∧ l ≤ l').
  { intros i l Hl. destruct (decide (i = idOf h0 node)) as [-> | Hne].
    - exists ln. split; [done |]. unfold ln. rewrite Hl. lia.
    - exists l. by rewrite E2. }
  assert (Hother : ∀ c, c < length h0 → c ≠ node → idOf h0 c ≠ idOf h0 node).
  { intros c Hc Hne Heq. apply Hne. by apply (idOf_inj h0). }
  assert (HnotP : ¬ P node) by (intros HPn; apply (HP node HPn), rtc_refl).
  apply (forEachM_prefix _ (λ pre t,
    tidy h0 (graph t) ∧
    (∀ i l, markLevel (newNodes s1) i = Some l →
            ∃ l', markLevel (newNodes t) i = Some l' ∧ l ≤ l') ∧
    (∀ c, c < length h0 → ¬ rtc (childOf h0) node c →
          markLevel (newNodes t) (idOf h0 c) = markLevel (newNodes s1) (idOf h0 c)) ∧
    markLevel (newNodes t) (idOf h0 node) = Some ln ∧
    (∀ c, c < length h0 → ¬ P c → c ≠ node → levelsOk h0 t c) ∧
    (∀ d, d ∈ pre →
          ∃ ld, markLevel (newNodes t) (idOf h0 d) = Some ld ∧ S level ≤ ld)))
    in Hrun.
  - destruct Hrun as (T' & M' & F' & N' & O' & D').
    assert (Mono : ∀ i l, markLevel (newNodes s) i = Some l →
              ∃ l', markLevel (newNodes s') i = Some l' ∧ l ≤ l').
    { intros i l Hl. destruct (Mono1 i l Hl) as (l1 & Hl1 & Hle1).
      destruct (M' i l1 Hl1) as (l' & Hl' & Hle'). exists l'. split; [done | lia]. }
    split_and!.
    + exact Mono.
    + intros c Hc Hnr. rewrite (F' c Hc Hnr). apply E2, Hother; [done |].
      intros ->. apply Hnr, rtc_refl.
    + exists ln. split; [done |]. unfold ln.
      destruct (markLevel (newNodes s) (idOf h0 node)); lia.
    + intros c Hc HPc. destruct (decide (c = node)) as [-> | Hne]; [| by apply O'].
      intros lc Hlc d Hd. rewrite N' in Hlc. injection Hlc as <-.
      destruct (markLevel (newNodes s) (idOf h0 node)) as [old|] eqn:Hold.
      * destruct (decide (level ≤ old)) as [Hle | Hgt].
        -- destruct (Hok node Hnode HnotP old Hold d Hd) as (ld0 & Hld0 & Hlt).
           destruct (Mono _ _ Hld0) as (ld & Hld & Hge).
           exists ld. split; [done |]. unfold ln. lia.
        -- destruct (D' d) as (ld & Hld & Hge); [by apply sorted_kids |].
           exists ld. split; [done |]. unfold ln. lia.
      * destruct (D' d) as (ld & Hld & Hge); [by apply sorted_kids |].
        exists ld. split; [done |]. unfold ln. lia.
  - split_and!; [done | by eauto | done | done | | by intros d ?%elem_of_nil].
    intros c Hc HPc Hne lc Hlc d Hd.
    rewrite (E2 _ (Hother c Hc Hne)) in Hlc.
    destruct (Hok c Hc HPc lc Hlc d Hd) as (ld0 & Hld0 & Hlt).
    destruct (Mono1 _ _ Hld0) as (ld & Hld & Hge).
    exists ld. split; [done | lia].
  - intros pre d t t' Hd%sorted_kids (Tt & Mt & Ft & Nt & Ot & Dt) Hbody.
    destruct (kid_facts node d Hnc Hd) as (Hdv & Hdnc & Hback).
    pose proof Hbody as Hsettle.
    apply (convertComponentToMark_settles h0 Hclosed Hunique) in Hsettle
      as (Tt' & _ & _); [| done].
    apply (IH d (S level) t t' (λ x, P x ∨ x = node)) in Hbody
      as (Mt' & Ft' & (ld & Hld & Hge) & Ot'); [| done | done | done | |].
    + split_and!.
      * done.
      * intros i l Hl. destruct (Mt i l Hl) as (l1 & Hl1 & Hle1).
        destruct (Mt' i l1 Hl1) as (l' & Hl' & Hle'). exists l'. split; [done | lia].
      * intros c Hc Hnr. rewrite <- (Ft c Hc Hnr). apply Ft'; [done |].
        intros Hdc. apply Hnr. by apply (rtc_l _ node d c).
      * rewrite <- Nt. by apply Ft'.
      * intros c Hc HPc Hne. apply Ot'; [done |]. by intros [? | ?].
      * intros d' [Hd' | ->%list_elem_of_singleton]%elem_of_app.
        -- destruct (Dt d' Hd') as (l1 & Hl1 & Hge1).
           destruct (Mt' _ _ Hl1) as (l' & Hl' & Hle'). exists l'. split; [done | lia].
        -- by exists ld.
    + intros p [HPp | ->]; [| done].
      intros Hdp. apply (HP p HPp). by apply (rtc_l _ node d p).
    + intros c Hc HPc. apply Ot; [done | |]; intros ?; apply HPc; auto.
Qed.

Lemma layoutMarks_levels (components : list loc) (fuel : nat) (s' : LayoutState) :
  (∀ c, c ∈ components → c < length h0) →
  (∀ r, r ∈ findRoots h0 components → noCycleBelow h0 r) →
  layoutMarks fuel h0 components = Some s' →
  ∀ c, c < length h0 → levelsOk h0 s' c.
Proof.
  intros Hvalid Hnc Hrun. unfold layoutMarks in Hrun.
  apply (forEachM_prefix _ (λ _ t,
    tidy h0 (graph t) ∧ ∀ c, c < length h0 → levelsOk h0 t c)) in Hrun.
  - by destruct Hrun.
  - split; [split; [apply sameFrame_refl | by left] |].
    intros c _ lc Hlc. by vm_compute in Hlc.
  - intros _ r t t' Hr (Tt & Ot) Hbody.
    pose proof Hbody as Hsettle.
    apply (convertComponentToMark_settles h0 Hclosed Hunique) in Hsettle
      as (Tt' & _ & _); [| done].
    apply (convertComponentToMark_levels fuel r 0 t t' (λ _, False)) in Hbody
      as (_ & _ & _ & Ot'); [| done | | by apply Hnc | done | by auto].
    + split; [done |]. intros c Hc. apply Ot'; [done | by intros []].
    + apply Hvalid. by apply (findRoots_elem h0 Hclosed Hunique components r Hvalid).
Qed.

End Levels.

Lemma markLevel_of_mark (nodes : list Node) (n : Node) :
  NoDup (node_id <$> nodes) → n ∈ nodes →
  markLevel nodes (node_id n) = Some (default 0 (data_level (node_data n))).
Proof.
  intros Hnd [i Hi]%list_elem_of_lookup. unfold markLevel.
  destruct (list_find (λ m, node_id m = node_id n) nodes) as [[j m]|] eqn:Hfind.
  - apply list_find_Some in Hfind as (Hj & Hid & _).
    assert (j = i) as ->; [| by simplify_eq].
    apply (NoDup_lookup (node_id <$> nodes) j i (node_id n) Hnd).
    + rewrite list_lookup_fmap, Hj. simpl. by rewrite Hid.
    + by rewrite list_lookup_fmap, Hi.
  - apply list_find_None in Hfind. rewrite Forall_forall in Hfind.
    destruct (Hfind n); [| done]. apply list_elem_of_lookup. by exists i.
Qed.

Lemma markLevel_Some (nodes : list Node) (i : string) (l : nat) :
  markLevel nodes i = Some l →
  ∃ m, m ∈ nodes ∧ node_id m = i ∧ default 0 (data_level (node_data m)) = l.
Proof.
  unfold markLevel.
  destruct (list_find _ nodes) as [[j m]|] eqn:Hfind; [| done].
  intros [= <-]. apply list_find_Some in Hfind as (Hj & Hid & _).
  exists m. split_and!; [| done | done].
  apply list_elem_of_lookup. by exists j.
Qed.

Lemma layoutMarks_deeper (h : heap) (components : list loc) (fuel : nat)
    (s' : LayoutState) :
  closed h → uniqueIds h →
  (∀ c, c ∈ components → c < length h) →
  (∀ r, r ∈ findRoots h components → noCycleBelow h r) →
  layoutMarks fuel h components = Some s' →
  ∀ n c d ln,
    n ∈ newNodes s' → data_component (node_data n) = Some c →
    data_level (node_data n) = Some ln → childOf h c d →
    ∃ m lm, m ∈ newNodes s' ∧ data_component (node_data m) = Some d ∧
            data_level (node_data m) = Some lm ∧ ln < lm.
Proof.
  intros Hclosed Hunique Hvalid Hnocycle Hrun n c d ln Hn Hc Hln Hd.
  destruct (layoutMarks_covers h components fuel s' Hclosed Hunique Hrun)
    as [Hwithin _].
  destruct (layoutMarks_ok fuel h components s' Hrun) as (Hnodup & _ & Hall).
  destruct (Hwithin n Hn) as (c' & Hbelow & Hc' & Hid & _).
  assert (c' = c) as -> by congruence.
  pose proof (belowRoots_valid h components c Hclosed Hunique Hvalid Hbelow) as Hcv.
  pose proof (layoutMarks_levels h Hclosed Hunique components fuel s'
                Hvalid Hnocycle Hrun c Hcv) as Hok.
  destruct (Hok ln) with (d := d) as (ld & Hld & Hlt); [| done |].
  { rewrite <- Hid, (markLevel_of_mark _ n Hnodup Hn), Hln. done. }
  apply markLevel_Some in Hld as (m & Hm & Hmid & Hml).
  destruct (Hwithin m Hm) as (d' & Hbelow' & Hd' & Hid' & _).
  assert (d' = d) as ->.
  { apply (idOf_inj h); [done | | | congruence].
    - by apply (belowRoots_valid h components).
    - apply (Hclosed c). apply elem_of_app. by left. }
  apply list_elem_of_lookup in Hm as [j Hj].
  destruct (Hall j m Hj) as (_ & lm & Hlm & _).
  exists m, lm. split_and!; [| done | done |].
  - apply list_elem_of_lookup. by exists j.
  - rewrite Hlm in Hml. simpl in Hml. lia.
Qed.

(** X7. When no cycle can be reached from a root and the conversion of the
    roots returns, every child of a marked component is marked at a greater
    level than the component: the layout puts each component in a column to
    the left of all its children, also when a component is reached along
    several paths of different lengths. *)
Theorem layoutMarks_children_deeper (h : heap) (components : list loc) (fuel : nat)
    (s' : LayoutState)
    (Hclosed : closed h) (Hunique : uniqueIds h)
    (Hvalid : ∀ c, c ∈ components → c < length h)
    (Hnocycle : ∀ r, r ∈ findRoots h components → noCycleBelow h r)
    (Hrun : layoutMarks fuel h components = Some s') :
  ∀ n c d ln,
    n ∈ newNodes s' → data_component (node_data n) = Some c →
    data_level (node_data n) = Some ln → childOf h c d →
    ∃ m lm, m ∈ newNodes s' ∧ data_component (node_data m) = Some d ∧
            data_level (node_data m) = Some lm ∧ ln < lm.
Proof.
  exact (layoutMarks_deeper h components fuel s' Hclosed Hunique Hvalid Hnocycle Hrun).
Qed.

(** ** Positions *)

Lemma levelRank_0 (nodes : list FlowNode) (l : nat) : levelRank nodes l 0 = 0.
Proof. done. Qed.

Lemma levelRank_S (n : FlowNode) (nodes : list FlowNode) (l p : nat) :
  levelRank (n :: nodes) l (S p) =
    (if decide (levelOf n = Some l) then 1 else 0) + levelRank nodes l p.
Proof.
  unfold levelRank. rewrite fmap_cons, firstn_cons, filter_cons.
  by destruct (decide (levelOf n = Some l)).
Qed.

Lemma levelRank_lt (nodes : list FlowNode) (l p q : nat) (n : FlowNode) :
  nodes !! p = Some n → levelOf n = Some l → p < q →
  levelRank nodes l p < levelRank nodes l q.
Proof.
  revert p q. induction nodes as [|x nodes IH]; intros p q Hp Hl Hpq; [done |].
  destruct q as [|q]; [lia |]. destruct p as [|p].
  - injection Hp as ->. rewrite levelRank_0, levelRank_S, decide_True by done. lia.
  - rewrite !levelRank_S. simpl in Hp.
    pose proof (IH p q Hp Hl ltac:(lia)). lia.
Qed.

Lemma placeMark_levelOf (l i : nat) (n : FlowNode) :
  levelOf (placeMark l i n) = levelOf n.
Proof. done. Qed.

Lemma placeLevel_levels (l i : nat) (nodes : list FlowNode) :
  levelOf <$> placeLevel l i nodes = levelOf <$> nodes.
Proof.
  revert i. induction nodes as [|n nodes IH]; intros i; simpl; [done |].
  case_bool_decide; rewrite !fmap_cons, IH; done.
Qed.

Lemma levelRank_placeLevel (l' i : nat) (nodes : list FlowNode) (l p : nat) :
  levelRank (placeLevel l' i nodes) l p = levelRank nodes l p.
Proof. unfold levelRank. by rewrite placeLevel_levels. Qed.

Lemma placeLevel_lookup (l i p : nat) (nodes : list FlowNode) (n : FlowNode) :
  nodes !! p = Some n →
  placeLevel l i nodes !! p =
    Some (if decide (levelOf n = Some l)
          then placeMark l (i + levelRank nodes l p) n else n).
Proof.
  revert i p. induction nodes as [|x nodes IH]; intros i p Hp; [done |].
  destruct p as [|p]; simpl in *.
  - injection Hp as ->. rewrite levelRank_0, Nat.add_0_r.
    case_bool_decide; [by rewrite decide_True | by rewrite decide_False].
  - rewrite levelRank_S.
    destruct (decide (levelOf x = Some l)) as [Hx | Hx].
    + rewrite bool_decide_eq_true_2 by done. simpl. rewrite (IH (S i) p Hp).
      by replace (S i + levelRank nodes l p) with (i + (1 + levelRank nodes l p)) by lia.
    + rewrite bool_decide_eq_false_2 by done. simpl. by rewrite (IH i p Hp).
Qed.

Lemma placeLevels_lookup (ls : list nat) (nodes : list FlowNode)
    (E : gmap nat Z) (p : nat) (n : FlowNode) :
  NoDup ls → nodes !! p = Some n →
  (foldl placeStep (nodes, E) ls).1 !! p =
    Some (match levelOf n with
          | Some l =>
              if decide (l ∈ ls) then placeMark l (levelRank nodes l p) n else n
          | None => n
          end).
Proof.
  revert nodes E n. induction ls as [|l ls IH]; intros nodes E n Hnd Hp.
  - simpl. rewrite Hp. f_equal. by destruct (levelOf n).
  - apply NoDup_cons in Hnd as [Hl Hnd]. simpl. unfold placeStep at 2. simpl.
    pose proof (placeLevel_lookup l 0 p nodes n Hp) as Hp'.
    rewrite (IH _ _ _ Hnd Hp'). f_equal.
    destruct (decide (levelOf n = Some l)) as [Hn | Hn].
    + rewrite placeMark_levelOf, Hn.
      rewrite decide_False by done.
      by rewrite decide_True by (by left).
    + destruct (levelOf n) as [l'|]; [| done].
      rewrite levelRank_placeLevel.
      destruct (decide (l' ∈ ls)) as [Hin | Hin].
      * by rewrite decide_True by (by right).
      * rewrite decide_False; [done |].
        intros [-> | ?]%elem_of_cons; [by destruct Hn | done].
Qed.

Lemma placeLevels_length (ls : list nat) (nodes : list FlowNode) (E : gmap nat Z) :
  length (foldl placeStep (nodes, E) ls).1 = length nodes.
Proof.
  revert nodes E. induction ls as [|l ls IH]; intros nodes E; [done |].
  simpl. unfold placeStep at 2. simpl. rewrite IH.
  rewrite <- (length_fmap levelOf), placeLevel_levels. apply length_fmap.
Qed.

Lemma placeLevels_counters (ls : list nat) (nodes : list FlowNode)
    (E : gmap nat Z) (l : nat) :
  (foldl placeStep (nodes, E) ls).2 !! l =
    if decide (l ∈ ls) then Some 0%Z else E !! l.
Proof.
  revert nodes E. induction ls as [|l' ls IH]; intros nodes E.
  - done.
  - simpl. unfold placeStep at 2. simpl. rewrite IH.
    destruct (decide (l ∈ ls)) as [Hin | Hin].
    + by rewrite decide_True by (by right).
    + destruct (decide (l = l')) as [-> | Hne].
      * rewrite lookup_insert_eq. by rewrite decide_True by (by left).
      * rewrite lookup_insert_ne by done.
        rewrite decide_False; [done |]. by intros [? | ?]%elem_of_cons.
Qed.

Lemma placeLevels_fold (maxLevel : nat) (nodes : list FlowNode) (E : gmap nat Z) :
  placeLevels maxLevel nodes E = foldl placeStep (nodes, E) (seq 0 (S maxLevel)).
Proof. done. Qed.

Lemma placeLevels_levels (ls : list nat) (nodes : list FlowNode) (E : gmap nat Z) :
  levelOf <$> (foldl placeStep (nodes, E) ls).1 = levelOf <$> nodes.
Proof.
  revert nodes E. induction ls as [|l ls IH]; intros nodes E; [done |].
  simpl. unfold placeStep at 2. simpl. rewrite IH. apply placeLevel_levels.
Qed.

(** What the layout effect returns, mark by mark: the mark at place [p] is
    the mark the conversion made, placed in the column of its level at the row
    of its rank among the marks of that level. *)
Lemma layoutEffect_marks (fuel : nat) (h : heap) (components : list loc)
    (E : gmap nat Z) (L : Layout) :
  layoutEffect fuel h components E = Some L →
  ∃ s, layoutMarks fuel h components = Some s ∧
    length (layout_nodes L) = length (newNodes s) ∧
    ∀ p n0, newNodes s !! p = Some n0 →
      ∃ l, data_level (node_data n0) = Some l ∧
        layout_nodes L !! p =
          Some (placeMark l (levelRank (layout_nodes L) l p) (plainNode n0)) ∧
        layout_levels L !! l = Some 0%Z.
Proof.
  unfold layoutEffect. intros Hrun.
  destruct (layoutMarks fuel h components) as [s|] eqn:Hs; [| done].
  simpl in Hrun. injection Hrun as <-. simpl.
  rewrite placeLevels_fold.
  destruct (layoutMarks_ok fuel h components s Hs) as (_ & _ & Hall).
  exists s. split_and!; [done | |].
  - by rewrite placeLevels_length, length_fmap.
  - intros p n0 Hp. destruct (Hall p n0 Hp) as (_ & l & Hl & Hle).
    exists l. split_and!; [done | |].
    + rewrite (placeLevels_lookup _ _ _ p (plainNode n0)).
      * change (levelOf (plainNode n0)) with (data_level (node_data n0)).
        rewrite Hl. rewrite decide_True by (apply elem_of_seq; lia).
        do 2 f_equal. unfold levelRank. by rewrite placeLevels_levels.
      * apply NoDup_seq.
      * by rewrite list_lookup_fmap, Hp.
    + rewrite placeLevels_counters.
      by rewrite decide_True by (apply elem_of_seq; lia).
Qed.

Lemma layoutEffect_lookup (fuel : nat) (h : heap) (components : list loc)
    (E : gmap nat Z) (L : Layout) (p : nat) (n : FlowNode) :
  layoutEffect fuel h components E = Some L → layout_nodes L !! p = Some n →
  ∃ s n0 l, layoutMarks fuel h components = Some s ∧
    newNodes s !! p = Some n0 ∧ data_level (node_data n0) = Some l ∧
    n = placeMark l (levelRank (layout_nodes L) l p) (plainNode n0) ∧
    layout_levels L !! l = Some 0%Z.
Proof.
  intros Hrun Hp.
  destruct (layoutEffect_marks fuel h components E L Hrun) as (s & Hs & Hlen & Hall).
  destruct (lookup_lt_is_Some_2 (newNodes s) p) as [n0 Hn0].
  { rewrite <- Hlen. by eapply lookup_lt_Some. }
  destruct (Hall p n0 Hn0) as (l & Hl & Hp' & Hz).
  exists s, n0, l. split_and!; [done | done | done | | done]. congruence.
Qed.

(** X8. The layout effect places every mark: the mark at place [p] keeps
    the index [p] and its level [l], stands at [x = 10 + 200 l] and
    [y = 10 + 100 r], where [r] is the number of marks of level [l] before it,
    has that point as initial position and no translation, and the counter of
    expanded marks of its level is 0.  No two marks stand at the same
    point. *)
Theorem layoutEffect_positions (fuel : nat) (h : heap) (components : list loc)
    (E : gmap nat Z) (L : Layout)
    (Hrun : layoutEffect fuel h components E = Some L) :
  (∀ p n, layout_nodes L !! p = Some n →
     ∃ l, levelOf n = Some l ∧ indexOf n = Some p ∧
       node_position (base n) =
         {| pos_x := 10 + 200 * Z.of_nat l;
            pos_y := 10 + 100 * Z.of_nat (levelRank (layout_nodes L) l p) |} ∧
       data_initialPosition n = Some (node_position (base n)) ∧
       data_translatedPosition n = Some {| pos_x := 0; pos_y := 0 |} ∧
       calcNewPosition n = Some (node_position (base n)) ∧
       layout_levels L !! l = Some 0%Z) ∧
  (∀ p q n m, layout_nodes L !! p = Some n → layout_nodes L !! q = Some m →
     node_position (base n) = node_position (base m) → p = q).
Proof.
  assert (Hone : ∀ p n, layout_nodes L !! p = Some n →
     ∃ l, levelOf n = Some l ∧ indexOf n = Some p ∧
       node_position (base n) =
         {| pos_x := 10 + 200 * Z.of_nat l;
            pos_y := 10 + 100 * Z.of_nat (levelRank (layout_nodes L) l p) |} ∧
       data_initialPosition n = Some (node_position (base n)) ∧
       data_translatedPosition n = Some {| pos_x := 0; pos_y := 0 |} ∧
       calcNewPosition n = Some (node_position (base n)) ∧
       layout_levels L !! l = Some 0%Z).
  { intros p n Hp.
    destruct (layoutEffect_lookup fuel h components E L p n Hrun Hp)
      as (s & n0 & l & Hs & Hn0 & Hl & -> & Hz).
    destruct (layoutMarks_ok fuel h components s Hs) as (_ & _ & Hall).
    destruct (Hall p n0 Hn0) as (Hix & _).
    exists l. split_and!; try done.
    unfold calcNewPosition. simpl. do 2 f_equal; lia. }
  split; [exact Hone |].
  intros p q n m Hp Hq Heq.
  destruct (Hone p n Hp) as (l & Hl & _ & Hpn & _).
  destruct (Hone q m Hq) as (l' & Hl' & _ & Hqm & _).
  rewrite Hpn, Hqm in Heq.
  pose proof (f_equal pos_x Heq) as Hx. pose proof (f_equal pos_y Heq) as Hy.
  simpl in Hx, Hy. assert (l' = l) as -> by lia.
  destruct (Nat.lt_trichotomy p q) as [Hlt | [-> | Hlt]]; [| done |].
  - pose proof (levelRank_lt _ l p q n Hp Hl Hlt). lia.
  - pose proof (levelRank_lt _ l q p m Hq Hl' Hlt). lia.
Qed.

(** X9. In the layout the effect returns, when no cycle can be reached from
    a root, the mark of every child of a marked component stands at least one
    column (200) to the right of the mark of the component: every edge from a
    component to a child points from left to right. *)
Theorem layoutEffect_children_right (h : heap) (components : list loc) (fuel : nat)
    (E : gmap nat Z) (L : Layout)
    (Hclosed : closed h) (Hunique : uniqueIds h)
    (Hvalid : ∀ c, c ∈ components → c < length h)
    (Hnocycle : ∀ r, r ∈ findRoots h components → noCycleBelow h r)
    (Hrun : layoutEffect fuel h components E = Some L) :
  ∀ n c d,
    n ∈ layout_nodes L → data_component (node_data (base n)) = Some c →
    childOf h c d →
    ∃ m, m ∈ layout_nodes L ∧ data_component (node_data (base m)) = Some d ∧
         (pos_x (node_position (base n)) + 200 ≤ pos_x (node_position (base m)))%Z.
Proof.
  intros n c d Hn Hc Hd.
  apply list_elem_of_lookup in Hn as [p Hp].
  destruct (layoutEffect_lookup fuel h components E L p n Hrun Hp)
    as (s & n0 & l & Hs & Hn0 & Hl & -> & _).
  destruct (layoutMarks_deeper h components fuel s Hclosed Hunique Hvalid Hnocycle Hs
              n0 c d l) as (m0 & lm & Hm0 & Hmc & Hml & Hlt); [| done | done | done |].
  { apply list_elem_of_lookup. by exists p. }
  apply list_elem_of_lookup in Hm0 as [q Hq].
  destruct (layoutEffect_marks fuel h components E L Hrun) as (s2 & Hs2 & _ & Hall).
  assert (s2 = s) as -> by congruence.
  destruct (Hall q m0 Hq) as (lm' & Hlm' & Hq' & _).
  assert (lm' = lm) as -> by congruence.
  eexists. split_and!.
  - apply list_elem_of_lookup. exists q. exact Hq'.
  - done.
  - simpl. lia.
Qed.

(** ** Expanding and shrinking a mark *)

Lemma inPlace_positions (n : FlowNode) :
  inPlace n →
  ∃ i t, data_initialPosition n = Some i ∧ data_translatedPosition n = Some t ∧
    node_position (base n) =
      {| pos_x := pos_x i + pos_x t; pos_y := pos_y i + pos_y t |}.
Proof.
  unfold inPlace, calcNewPosition.
  destruct (data_initialPosition n) as [i|]; [| done].
  destruct (data_translatedPosition n) as [t|]; [| done].
  simpl. intros [= Heq]. by exists i, t.
Qed.

Lemma translate_Some (n : FlowNode) (dx dy : Z) :
  inPlace n →
  ∃ n', translate n dx dy = Some n' ∧ inPlace n' ∧
    node_id (base n') = node_id (base n) ∧
    node_type (base n') = node_type (base n) ∧
    node_data (base n') = node_data (base n) ∧
    data_size n' = data_size n ∧
    pos_x (node_position (base n')) = (pos_x (node_position (base n)) + dx)%Z ∧
    pos_y (node_position (base n')) = (pos_y (node_position (base n)) + dy)%Z.
Proof.
  intros (i & t & Hi & Ht & Hpos)%inPlace_positions.
  unfold translate. rewrite Hi, Ht. simpl. eexists. split; [done |].
  unfold inPlace, calcNewPosition. simpl. rewrite Hpos. simpl.
  split_and!; try done; lia.
Qed.

Lemma translate_back (n n' : FlowNode) (dx dy : Z) :
  inPlace n → translate n dx dy = Some n' → translate n' (- dx) (- dy) = Some n.
Proof.
  intros (i & t & Hi & Ht & Hpos)%inPlace_positions.
  unfold translate. rewrite Hi, Ht. simpl. intros [= <-]. simpl.
  destruct n as [b sp ip tp sz]. simpl in *. subst ip tp.
  destruct b as [bid bty bpar bz btr bd bpos]. simpl in *. subst bpos.
  destruct i as [ix iy], t as [tx ty]. simpl.
  unfold withPosition. simpl.
  do 2 f_equal; [do 2 f_equal; lia | do 2 f_equal; lia].
Qed.

Lemma shift_Some (E : gmap nat Z) (T n : FlowNode) (sign : Z) (size : MarkSize) :
  data_size T = Some size →
  ∃ dx dy, shift E T n sign = Some (dx, dy) ∧
    (dx = 0 ∨ dx = sign * (baseExpadnedWidth - baseWidth))%Z ∧
    (dy = 0 ∨ dy = sign * (size_height size - baseWidth))%Z.
Proof.
  intros Hsize. unfold shift. rewrite Hsize. simpl.
  destruct (levelIsZero _ _ && gtNumber _ _);
    destruct (bool_decide _ && gtNumber _ _); simpl;
    eexists _, _; (split; [done |]); auto.
Qed.

Lemma shift_opposite (E : gmap nat Z) (T T' n n' : FlowNode) (dx dy : Z) :
  levelOf T' = levelOf T → indexOf T' = indexOf T → data_size T' = data_size T →
  levelOf n' = levelOf n → indexOf n' = indexOf n →
  shift E T n 1 = Some (dx, dy) → shift E T' n' (-1) = Some (- dx, - dy)%Z.
Proof.
  intros HlT HiT HsT Hln Hin. unfold shift. rewrite HlT, HiT, HsT, Hln, Hin.
  destruct (levelIsZero _ _ && gtNumber _ _);
    destruct (bool_decide _ && gtNumber _ _); simpl;
    destruct (data_size T); simpl; try done;
    intros [= <- <-]; do 2 f_equal; lia.
Qed.

Lemma expandedHeight_least (component : ComponentNode) :
  (baseWidth ≤ expandedHeight component)%Z.
Proof. unfold expandedHeight. lia. Qed.

Section Expand.
Context (h : heap) (E : gmap nat Z) (targetNode : FlowNode)
  (currentNodes : list FlowNode) (t : nat) (c : loc).
Hypothesis Htarget : currentNodes !! t = Some targetNode.
Hypothesis Hnodup : NoDup ((λ n, node_id (base n)) <$> currentNodes).
Hypothesis Hcomp : data_component (node_data (base targetNode)) = Some c.
Hypothesis Hplace : ∀ n, n ∈ currentNodes → inPlace n.

Lemma target_only (p : nat) (n : FlowNode) :
  currentNodes !! p = Some n →
  node_id (base n) = node_id (base targetNode) → p = t.
Proof.
  intros Hp Hid.
  apply (NoDup_lookup _ p t (node_id (base n)) Hnodup).
  - by rewrite list_lookup_fmap, Hp.
  - by rewrite list_lookup_fmap, Htarget, Hid.
Qed.

(** The list [expandComponent] returns, place by place. *)
Lemma expandComponent_places :
  ∃ expanded, expandComponent h E targetNode currentNodes = Some expanded ∧
    length expanded = length currentNodes ∧
    expanded !! t = Some (expandedMark h c targetNode) ∧
    ∀ p n, p ≠ t → currentNodes !! p = Some n →
      ∃ dx dy n',
        shift E (expandedMark h c targetNode) n 1 = Some (dx, dy) ∧
        translate n dx dy = Some n' ∧ expanded !! p = Some n' ∧
        (dx = 0 ∨ dx = baseExpadnedWidth - baseWidth)%Z ∧
        (dy = 0 ∨ dy = expandedHeight (h !!! c) - baseWidth)%Z.
Proof.
  unfold expandComponent. rewrite Hcomp. simpl.
  set (T1 := withSize (retype targetNode "expanded") _).
  assert (HT1 : calcNewPosition T1 = Some (node_position (base targetNode))).
  { apply (Hplace targetNode). apply list_elem_of_lookup. by exists t. }
  set (f := λ node : FlowNode, if bool_decide _ then _ else _).
  assert (Hf : ∀ p n, currentNodes !! p = Some n →
    if decide (p = t) then f n = Some (expandedMark h c targetNode)
    else ∃ dx dy n',
        shift E (expandedMark h c targetNode) n 1 = Some (dx, dy) ∧
        translate n dx dy = Some n' ∧ f n = Some n' ∧
        (dx = 0 ∨ dx = baseExpadnedWidth - baseWidth)%Z ∧
        (dy = 0 ∨ dy = expandedHeight (h !!! c) - baseWidth)%Z).
  { intros p n Hp. unfold f. destruct (decide (p = t)) as [-> | Hne].
    - assert (n = targetNode) as -> by congruence.
      rewrite bool_decide_eq_true_2 by done. by rewrite HT1.
    - rewrite bool_decide_eq_false_2.
      2:{ intros Hid. apply Hne. by apply (target_only p n). }
      destruct (shift_Some E T1 n 1 (expandedSize (h !!! c)) eq_refl)
        as (dx & dy & Hshift & Hdx & Hdy).
      destruct (translate_Some n dx dy) as (n' & Hn' & _).
      { apply Hplace. apply list_elem_of_lookup. by exists p. }
      exists dx, dy, n'. rewrite Hshift. simpl.
      split_and!; [done | done | done | lia | simpl in Hdy; lia]. }
  destruct (mapM f currentNodes) as [expanded|] eqn:Hmap.
  2:{ assert (His : is_Some (mapM f currentNodes));
        [| rewrite Hmap in His; by apply is_Some_None in His].
      apply mapM_is_Some, Forall_lookup. intros p n Hp.
      specialize (Hf p n Hp). unfold compose. destruct (decide (p = t)).
      - by rewrite Hf.
      - destruct Hf as (? & ? & ? & _ & _ & -> & _). done. }
  apply mapM_Some in Hmap.
  exists expanded. split_and!; [done | | |].
  - symmetry. by eapply Forall2_length.
  - destruct (Forall2_lookup_l _ _ _ t targetNode Hmap Htarget) as (n' & Hn' & Hfn).
    specialize (Hf t targetNode Htarget). rewrite decide_True in Hf by done.
    congruence.
  - intros p n Hne Hp.
    destruct (Forall2_lookup_l _ _ _ p n Hmap Hp) as (n' & Hn' & Hfn).
    specialize (Hf p n Hp). rewrite decide_False in Hf by done.
    destruct Hf as (dx & dy & n'' & Hshift & Htr & Hfn' & Hdx & Hdy).
    exists dx, dy, n''. split_and!; try done. congruence.
Qed.

End Expand.

(** X10. Expanding a mark of a list of marks with distinct ids, each
    standing where [calcNewPosition] puts it, returns a list of the same
    length in the same order: every mark keeps its id and data and still
    stands where [calcNewPosition] puts it, no mark moves left or up, the
    target becomes ["expanded"], gets its size and stays where it is, and
    every other mark keeps its type and size. *)
Theorem expandComponent_moves (h : heap) (E : gmap nat Z) (targetNode : FlowNode)
    (currentNodes : list FlowNode) (t : nat) (c : loc)
    (Htarget : currentNodes !! t = Some targetNode)
    (Hnodup : NoDup ((λ n, node_id (base n)) <$> currentNodes))
    (Hcomp : data_component (node_data (base targetNode)) = Some c)
    (Hplace : ∀ n, n ∈ currentNodes → inPlace n) :
  ∃ expanded, expandComponent h E targetNode currentNodes = Some expanded ∧
    length expanded = length currentNodes ∧
    ∀ p n, currentNodes !! p = Some n →
      ∃ n', expanded !! p = Some n' ∧
        node_id (base n') = node_id (base n) ∧
        node_data (base n') = node_data (base n) ∧
        inPlace n' ∧
        (pos_x (node_position (base n)) ≤ pos_x (node_position (base n')))%Z ∧
        (pos_y (node_position (base n)) ≤ pos_y (node_position (base n')))%Z ∧
        if decide (p = t)
        then node_type (base n') = "expanded" ∧
             data_size n' = Some (expandedSize (h !!! c)) ∧
             node_position (base n') = node_position (base n)
        else node_type (base n') = node_type (base n) ∧
             data_size n' = data_size n.
Proof.
  destruct (expandComponent_places h E targetNode currentNodes t c
              Htarget Hnodup Hcomp Hplace) as (expanded & Hrun & Hlen & Ht & Hrest).
  exists expanded. split_and!; [done | done |].
  intros p n Hp. destruct (decide (p = t)) as [-> | Hne].
  - assert (n = targetNode) as -> by congruence.
    exists (expandedMark h c targetNode). split_and!; try done.
    apply (Hplace targetNode). apply list_elem_of_lookup. by exists t.
  - destruct (Hrest p n Hne Hp) as (dx & dy & n' & _ & Htr & Hp' & Hdx & Hdy).
    destruct (translate_Some n dx dy) as (n'' & Htr' & Hin & Hid & Hty & Hdata & Hsz & Hx & Hy).
    { apply Hplace. apply list_elem_of_lookup. by exists p. }
    assert (n'' = n') as -> by congruence.
    pose proof (expandedHeight_least (h !!! c)).
    exists n'. split_and!; try done.
    + rewrite Hx. unfold baseExpadnedWidth, baseWidth in Hdx. lia.
    + rewrite Hy. lia.
Qed.

Lemma shrinkComponent_places (h : heap) (E : gmap nat Z)
    (targetNode : FlowNode) (currentNodes expanded : list FlowNode) (t : nat) (c : loc) :
  currentNodes !! t = Some targetNode →
  NoDup ((λ n, node_id (base n)) <$> currentNodes) →
  data_component (node_data (base targetNode)) = Some c →
  (∀ n, n ∈ currentNodes → inPlace n) →
  expandComponent h E targetNode currentNodes = Some expanded →
  shrinkComponent E (expandedMark h c targetNode) expanded =
    Some (<[t := shrunkMark h c targetNode]> currentNodes).
Proof.
  intros Htarget Hnodup Hcomp Hplace Hexp.
  destruct (expandComponent_places h E targetNode currentNodes t c
              Htarget Hnodup Hcomp Hplace) as (expanded' & Hrun & Hlen & Ht & Hrest).
  assert (expanded' = expanded) as -> by congruence.
  assert (Hpos : calcNewPosition targetNode = Some (node_position (base targetNode))).
  { apply (Hplace targetNode). apply list_elem_of_lookup. by exists t. }
  unfold shrinkComponent. apply mapM_Some, Forall2_same_length_lookup.
  split; [by rewrite length_insert |].
  intros p n' n Hp' Hp. destruct (decide (p = t)) as [-> | Hne].
  - rewrite list_lookup_insert_eq in Hp by (by eapply lookup_lt_Some).
    assert (n' = expandedMark h c targetNode) as -> by congruence.
    injection Hp as <-.
    rewrite bool_decide_eq_true_2 by done.
    change (calcNewPosition (retype (expandedMark h c targetNode) "component"))
      with (calcNewPosition targetNode).
    by rewrite Hpos.
  - rewrite list_lookup_insert_ne in Hp by done.
    destruct (Hrest p n Hne Hp) as (dx & dy & n'' & Hshift & Htr & Hp'' & _).
    assert (n'' = n') as -> by congruence.
    assert (Hn : inPlace n). { apply Hplace. apply list_elem_of_lookup. by exists p. }
    destruct (translate_Some n dx dy Hn) as (n'' & Htr' & _ & Hid & _ & Hdata & _).
    assert (n'' = n') as -> by congruence.
    rewrite bool_decide_eq_false_2.
    2:{ rewrite Hid. intros Heq. apply Hne.
        by apply (target_only targetNode currentNodes t Htarget Hnodup p n). }
    rewrite (shift_opposite E (expandedMark h c targetNode) _ n n' dx dy);
      try done.
    + simpl. by apply translate_back.
    + unfold levelOf. by rewrite Hdata.
    + unfold indexOf. by rewrite Hdata.
Qed.

(** X11. Shrinking the expanded mark undoes the expansion.  For a list of
    marks with distinct ids, each standing where [calcNewPosition] puts it,
    [shrinkComponent] applied to what [expandComponent] returned, with the
    counters of [expandedLevels] as they were, gives every mark but the target
    back as it was; the target is back at its place with the type
    ["component"], and keeps the size the expansion gave it. *)
Theorem shrinkComponent_undoes_expandComponent (h : heap) (E : gmap nat Z)
    (targetNode : FlowNode) (currentNodes : list FlowNode) (t : nat) (c : loc)
    (Htarget : currentNodes !! t = Some targetNode)
    (Hnodup : NoDup ((λ n, node_id (base n)) <$> currentNodes))
    (Hcomp : data_component (node_data (base targetNode)) = Some c)
    (Hplace : ∀ n, n ∈ currentNodes → inPlace n) :
  ∃ expanded, expandComponent h E targetNode currentNodes = Some expanded ∧
    expanded !! t = Some (expandedMark h c targetNode) ∧
    shrinkComponent E (expandedMark h c targetNode) expanded =
      Some (<[t := shrunkMark h c targetNode]> currentNodes).
Proof.
  destruct (expandComponent_places h E targetNode currentNodes t c
              Htarget Hnodup Hcomp Hplace) as (expanded & Hrun & _ & Ht & _).
  exists expanded. split_and!; [done | done |].
  by apply (shrinkComponent_places h E targetNode currentNodes expanded t c).
Qed.

(** ** A cycle below a root *)

Lemma forEachM_None {S A : Type} (body : S → A → option S) (I : S → Prop)
    (l : list A) (s : S) (x : A) :
  x ∈ l → I s →
  (∀ t y t', y ∈ l → I t → body t y = Some t' → I t') →
  (∀ t, I t → body t x = None) →
  forEachM body s l = None.
Proof.
  revert s. induction l as [|y l IH]; intros s Hx Hs Hstep Hnone.
  - by apply elem_of_nil in Hx.
  - simpl. destruct (body s y) as [s1|] eqn:Hb; [| done].
    apply elem_of_cons in Hx as [-> | Hx].
    + by rewrite Hnone in Hb.
    + apply IH; [done | | |done].
      * apply (Hstep s y s1); [by left | done | done].
      * intros t z t' Hz. apply Hstep. by right.
Qed.

(** From a component that reaches a cycle, a child reaches the cycle. *)
Lemma cycle_below_child (h : heap) (c d : loc) :
  rtc (childOf h) c d → descendant h d d →
  ∃ k, childOf h c k ∧ rtc (childOf h) k d.
Proof.
  intros Hcd Hdd. destruct Hcd as [x | x k y Hck Hkd].
  - inversion Hdd as [? ? Hstep | ? k ? Hstep Hrest]; subst.
    + exists x. split; [done | apply rtc_refl].
    + exists k. split; [done | by apply tc_rtc].
  - by exists k.
Qed.

Section Cycle.
Variable h0 : heap.
Hypothesis Hclosed : closed h0.
Hypothesis Hunique : uniqueIds h0.

Lemma convertComponentToMark_cycle (fuel : nat) (node d : loc) (level : nat)
    (s : LayoutState) :
  tidy h0 (graph s) → rtc (childOf h0) node d → descendant h0 d d →
  convertComponentToMark fuel node level s = None.
Proof.
  revert node level s.
  induction fuel as [|fuel IH]; intros node level s Htidy Hd Hcyc; [done |].
  rewrite (convertComponentToMark_unfold h0 Hclosed Hunique) by done.
  destruct (cycle_below_child h0 node d Hd Hcyc) as (k & Hk & Hkd).
  apply (forEachM_None _ (λ t, tidy h0 (graph t)) _ _ k).
  - by apply sorted_kids.
  - rewrite enterMark_graph.
    by destruct (sortChildren_tidy h0 Hclosed Hunique (graph s) node Htidy).
  - intros t y t' _ Ht Hbody.
    by apply (convertComponentToMark_settles h0 Hclosed Hunique) in Hbody as [? _].
  - intros t Ht. by apply IH.
Qed.

End Cycle.

(** X12. When a cycle of [children] can be reached from a root, the
    conversion of the roots never returns, whatever the bound on the depth of
    the recursion: [convertComponentToMark] has no visited check and descends
    along the cycle for ever.  So the layout effect returns nothing either. *)
Theorem layoutEffect_cycle_never_returns (h : heap) (components : list loc)
    (r d : loc)
    (Hclosed : closed h) (Hunique : uniqueIds h)
    (Hroot : r ∈ findRoots h components)
    (Hreach : rtc (childOf h) r d) (Hcycle : descendant h d d) :
  ∀ fuel E,
    layoutMarks fuel h components = None ∧
    layoutEffect fuel h components E = None.
Proof.
  intros fuel E.
  assert (Hnone : layoutMarks fuel h components = None).
  { unfold layoutMarks.
    apply (forEachM_None _ (λ t, tidy h (graph t)) _ _ r); [done | | |].
    - split; [apply sameFrame_refl | by left].
    - intros t y t' _ Ht Hbody.
      by apply (convertComponentToMark_settles h Hclosed Hunique) in Hbody as [? _].
    - intros t Ht. by apply (convertComponentToMark_cycle h Hclosed Hunique _ _ d). }
  split; [done |]. unfold layoutEffect. by rewrite Hnone.
Qed.

(** ** The component edges and the marks *)

Lemma acyclic_belowRoots (h : heap) (components : list loc) (c : loc) :
  closed h → uniqueIds h → (∀ c, c ∈ components → c < length h) → acyclic h →
  c ∈ components → belowRoots h components c.
Proof.
  intros Hclosed Hunique Hvalid Hac Hc.
  destruct (decide (c ∈ findRoots h components)) as [Hroot | Hroot].
  - exists c. split; [done | apply rtc_refl].
  - destruct (findRoots_cover h Hclosed Hunique components Hvalid Hac c Hc Hroot)
      as (r & Hr & Hd).
    exists r. split; [done | by apply tc_rtc].
Qed.

Lemma layoutMarks_mark_of (h : heap) (components : list loc) (fuel : nat)
    (s : LayoutState) (c : loc) :
  closed h → uniqueIds h → (∀ c, c ∈ components → c < length h) →
  layoutMarks fuel h components = Some s →
  belowRoots h components c →
  ∃ p n0, newNodes s !! p = Some n0 ∧
    data_component (node_data n0) = Some c ∧ node_id n0 = idOf h c.
Proof.
  intros Hclosed Hunique Hvalid Hrun Hc.
  destruct (layoutMarks_covers h components fuel s Hclosed Hunique Hrun)
    as [Hwithin Hcover].
  destruct (proj1 (list_elem_of_fmap _ _ _) (Hcover c Hc)) as (n & Hid & Hn).
  destruct (Hwithin n Hn) as (c' & Hb' & Hc' & Hid' & _).
  apply list_elem_of_lookup in Hn as [p Hp].
  exists p, n. split_and!; [done | | done].
  rewrite Hc'. f_equal. apply (idOf_inj h); [done | | | congruence].
  - by apply (belowRoots_valid h components).
  - by apply (belowRoots_valid h components).
Qed.

Lemma layoutEffect_edges (fuel : nat) (h : heap) (components : list loc)
    (E : gmap nat Z) (L : Layout) :
  layoutEffect fuel h components E = Some L →
  ∃ s, layoutMarks fuel h components = Some s ∧
    layout_edges L = componentEdges (graph s) components ∧
    layout_graph L = graph s.
Proof.
  unfold layoutEffect. intros Hrun.
  destruct (layoutMarks fuel h components) as [s|] eqn:Hs; [| done].
  simpl in Hrun. injection Hrun as <-. by exists s.
Qed.

(** X13. In an acyclic graph whose [falseChildren] are components of the
    list, every edge the layout effect builds joins two marks of the layout:
    its source and its target are ids of marks.  An edge for a child (not
    animated) points from left to right: the mark of its target stands at least
    one column to the right of the mark of its source. *)
Theorem layoutEffect_edges_join_marks (h : heap) (components : list loc)
    (fuel : nat) (E : gmap nat Z) (L : Layout)
    (Hclosed : closed h) (Hunique : uniqueIds h)
    (Hvalid : ∀ c, c ∈ components → c < length h)
    (Hacyclic : acyclic h)
    (Hfalse : ∀ c k, c ∈ components → k ∈ falseChildren (h !!! c) → k ∈ components)
    (Hrun : layoutEffect fuel h components E = Some L) :
  ∀ e, e ∈ layout_edges L →
    ∃ n m, n ∈ layout_nodes L ∧ m ∈ layout_nodes L ∧
      node_id (base n) = edge_source e ∧ node_id (base m) = edge_target e ∧
      (edge_animated e = false →
       (pos_x (node_position (base n)) + 200 ≤ pos_x (node_position (base m)))%Z).
Proof.
  intros e He.
  destruct (layoutEffect_edges fuel h components E L Hrun) as (s & Hs & Hedges & _).
  destruct (layoutEffect_marks fuel h components E L Hrun) as (s2 & Hs2 & _ & Hall).
  assert (s2 = s) as -> by congruence.
  pose proof (layoutMarks_frame fuel h components s Hs) as Hframe.
  assert (Hmark : ∀ c, belowRoots h components c →
    ∃ p n0 l, newNodes s !! p = Some n0 ∧ data_component (node_data n0) = Some c ∧
      data_level (node_data n0) = Some l ∧
      layout_nodes L !! p =
        Some (placeMark l (levelRank (layout_nodes L) l p) (plainNode n0)) ∧
      node_id n0 = idOf h c).
  { intros c Hc.
    destruct (layoutMarks_mark_of h components fuel s c Hclosed Hunique Hvalid Hs Hc)
      as (p & n0 & Hp & Hn0 & Hid).
    destruct (Hall p n0 Hp) as (l & Hl & Hp' & _).
    by exists p, n0, l. }
  rewrite Hedges in He. unfold componentEdges in He.
  rewrite falseChildEdges_app in He.
  apply elem_of_app in He as [He | He].
  - apply childEdges_elem in He as (c & k & Hc & Hk & ->).
    assert (Hck : childOf h c k).
    { unfold childOf, kids. by rewrite <- (sf_children _ _ Hframe c). }
    pose proof (acyclic_belowRoots h components c Hclosed Hunique Hvalid Hacyclic Hc)
      as Hbc.
    destruct (Hmark c Hbc) as (p & n0 & l & Hp & Hn0 & Hl & Hp' & Hid).
    destruct (layoutMarks_deeper h components fuel s Hclosed Hunique Hvalid
                (λ r _, acyclic_noCycleBelow h r Hacyclic) Hs n0 c k l)
      as (m0 & lm & Hm0 & Hmk & Hlm & Hlt); [| done | done | done |].
    { apply list_elem_of_lookup. by exists p. }
    destruct (layoutMarks_covers h components fuel s Hclosed Hunique Hs)
      as [Hwithin _].
    destruct (Hwithin m0 Hm0) as (k' & _ & Hk' & Hmid & _).
    assert (k' = k) as -> by congruence.
    apply list_elem_of_lookup in Hm0 as [q Hq].
    destruct (Hall q m0 Hq) as (lm' & Hlm' & Hq' & _).
    assert (lm' = lm) as -> by congruence.
    eexists _, _. split_and!.
    + apply list_elem_of_lookup. exists p. exact Hp'.
    + apply list_elem_of_lookup. exists q. exact Hq'.
    + simpl. by rewrite Hid, (sameFrame_idOf _ _ Hframe).
    + simpl. by rewrite Hmid, (sameFrame_idOf _ _ Hframe).
    + intros _. simpl. lia.
  - apply falseChildEdges_elem in He as (c & k & Hc & Hk & ->).
    rewrite (sf_falseChildren _ _ Hframe) in Hk.
    pose proof (acyclic_belowRoots h components c Hclosed Hunique Hvalid Hacyclic Hc)
      as Hbc.
    pose proof (acyclic_belowRoots h components k Hclosed Hunique Hvalid Hacyclic
                  (Hfalse c k Hc Hk)) as Hbk.
    destruct (Hmark c Hbc) as (p & n0 & l & Hp & Hn0 & Hl & Hp' & Hid).
    destruct (Hmark k Hbk) as (q & m0 & lm & Hq & Hm0 & Hlm & Hq' & Hmid).
    eexists _, _. split_and!.
    + apply list_elem_of_lookup. exists p. exact Hp'.
    + apply list_elem_of_lookup. exists q. exact Hq'.
    + simpl. by rewrite Hid, (sameFrame_idOf _ _ Hframe).
    + simpl. by rewrite Hmid, (sameFrame_idOf _ _ Hframe).
    + done.
Qed.

(** ** The first click after the layout *)

Lemma shift_levels (E : gmap nat Z) (T n : FlowNode) (sign : Z)
    (lt l it i : nat) (size : MarkSize) :
  levelOf T = Some lt → indexOf T = Some it → data_size T = Some size →
  E !! lt = Some 0%Z → levelOf n = Some l → indexOf n = Some i →
  shift E T n sign =
    Some ((if decide (lt < l)%nat then sign * (baseExpadnedWidth - baseWidth) else 0)%Z,
          (if decide (l = lt ∧ it < i)%nat
           then sign * (size_height size - baseWidth) else 0)%Z).
Proof.
  intros HlT HiT Hsz HE Hl Hi. unfold shift, levelIsZero, gtNumber.
  rewrite HlT, HiT, Hsz, Hl, Hi. simpl. rewrite HE.
  rewrite (bool_decide_eq_true_2 (Some 0%Z = Some 0%Z)) by done. simpl.
  destruct (decide (lt < l)%nat) as [Hlt | Hlt].
  - rewrite (bool_decide_eq_true_2 (lt < l)) by done.
    rewrite (bool_decide_eq_false_2 (Some l = Some lt)) by (intros [= ->]; lia).
    simpl. by rewrite decide_False by lia.
  - rewrite (bool_decide_eq_false_2 (lt < l)) by done.
    destruct (decide (l = lt ∧ it < i)%nat) as [[-> Hit] | Hno].
    + rewrite (bool_decide_eq_true_2 (Some lt = Some lt)) by done.
      by rewrite (bool_decide_eq_true_2 (it < i)) by done.
    + destruct (decide (l = lt)) as [-> | Hne].
      * rewrite (bool_decide_eq_true_2 (Some lt = Some lt)) by done.
        by rewrite (bool_decide_eq_false_2 (it < i)) by (intros ?; by apply Hno).
      * by rewrite (bool_decide_eq_false_2 (Some l = Some lt)) by congruence.
Qed.

(** X14. Any mark of the layout the effect returns can be expanded, and
    shrinking it then gives the layout back (the target keeps the size it was
    given).  The expansion moves exactly the marks of deeper levels, by 300 to
    the right, and the marks of the level of the target that were made after
    it, down by the growth of the target; all other marks stay. *)
Theorem layoutEffect_first_expansion (h : heap) (components : list loc)
    (fuel : nat) (E : gmap nat Z) (L : Layout) (t : nat) (targetNode : FlowNode)
    (Hclosed : closed h) (Hunique : uniqueIds h)
    (Hrun : layoutEffect fuel h components E = Some L)
    (Htarget : layout_nodes L !! t = Some targetNode) :
  ∃ c lt expanded,
    data_component (node_data (base targetNode)) = Some c ∧
    levelOf targetNode = Some lt ∧
    expandComponent (layout_graph L) (layout_levels L) targetNode (layout_nodes L)
      = Some expanded ∧
    (∀ p n l, p ≠ t → layout_nodes L !! p = Some n → levelOf n = Some l →
       ∃ n', expanded !! p = Some n' ∧
         pos_x (node_position (base n')) =
           (pos_x (node_position (base n)) + if decide (lt < l)%nat then 300 else 0)%Z ∧
         pos_y (node_position (base n')) =
           (pos_y (node_position (base n)) +
            if decide (l = lt ∧ t < p)%nat
            then expandedHeight (layout_graph L !!! c) - 25 else 0)%Z) ∧
    shrinkComponent (layout_levels L)
        (expandedMark (layout_graph L) c targetNode) expanded =
      Some (<[t := shrunkMark (layout_graph L) c targetNode]> (layout_nodes L)).
Proof.
  assert (Hfacts : ∀ p n, layout_nodes L !! p = Some n →
    inPlace n ∧ indexOf n = Some p ∧
    ∃ s n0 l c, layoutMarks fuel h components = Some s ∧
      newNodes s !! p = Some n0 ∧ node_id (base n) = node_id n0 ∧
      levelOf n = Some l ∧ layout_levels L !! l = Some 0%Z ∧
      data_component (node_data (base n)) = Some c).
  { intros p n Hp.
    destruct (layoutEffect_lookup fuel h components E L p n Hrun Hp)
      as (s & n0 & l & Hs & Hn0 & Hl & -> & Hz).
    destruct (layoutMarks_ok fuel h components s Hs) as (_ & _ & Hall).
    destruct (Hall p n0 Hn0) as (Hix & _).
    destruct (layoutMarks_covers h components fuel s Hclosed Hunique Hs)
      as [Hwithin _].
    destruct (Hwithin n0) as (c & _ & Hc & _).
    { apply list_elem_of_lookup. by exists p. }
    split_and!.
    - unfold inPlace, calcNewPosition. simpl. do 2 f_equal; lia.
    - done.
    - by exists s, n0, l, c. }
  destruct (Hfacts t targetNode Htarget)
    as (_ & Hit & s & t0 & lt & c & Hs & Ht0 & _ & Hlt & Hz & Hc).
  assert (Hnodup : NoDup ((λ n, node_id (base n)) <$> layout_nodes L)).
  { destruct (layoutMarks_ok fuel h components s Hs) as (Hnd & _ & _).
    replace ((λ n, node_id (base n)) <$> layout_nodes L)
      with (node_id <$> newNodes s); [done |].
    destruct (layoutEffect_marks fuel h components E L Hrun) as (s2 & Hs2 & Hlen & _).
    assert (s2 = s) as -> by congruence.
    apply list_eq_same_length with (length (newNodes s));
      [by rewrite length_fmap | by rewrite length_fmap |].
    intros p x y _. rewrite !list_lookup_fmap.
    destruct (layout_nodes L !! p) as [n|] eqn:Hp;
      destruct (newNodes s !! p) as [n0|] eqn:Hp0; simpl; try done.
    intros [= <-] [= <-].
    destruct (Hfacts p n Hp) as (_ & _ & s3 & n1 & ? & ? & Hs3 & Hn1 & Hid & _).
    assert (s3 = s) as -> by congruence. congruence. }
  assert (Hplace : ∀ n, n ∈ layout_nodes L → inPlace n).
  { intros n [p Hp]%list_elem_of_lookup. by destruct (Hfacts p n Hp). }
  destruct (expandComponent_places (layout_graph L) (layout_levels L) targetNode
              (layout_nodes L) t c Htarget Hnodup Hc Hplace)
    as (expanded & Hexp & _ & _ & Hrest).
  exists c, lt, expanded. split_and!; [done | done | done | |].
  - intros p n l Hne Hp Hl.
    destruct (Hrest p n Hne Hp) as (dx & dy & n' & Hshift & Htr & Hp' & _).
    destruct (Hfacts p n Hp) as (Hin & Hip & _).
    destruct (translate_Some n dx dy Hin)
      as (n'' & Htr' & _ & _ & _ & _ & _ & Hx & Hy).
    assert (n'' = n') as -> by congruence.
    rewrite (shift_levels _ _ n 1 lt l t p (expandedSize (layout_graph L !!! c)))
      in Hshift; try done.
    injection Hshift as <- <-.
    exists n'. split_and!; [done | |].
    + rewrite Hx. destruct (decide (lt < l)%nat); unfold baseExpadnedWidth, baseWidth; lia.
    + rewrite Hy. destruct (decide (l = lt ∧ t < p)%nat); simpl; unfold baseWidth; lia.
  - by apply (shrinkComponent_places (layout_graph L) (layout_levels L) targetNode
                (layout_nodes L) expanded t c).
Qed.

(** * The statements on sample inputs *)

Lemma diamondGraph_closed : closed diamondGraph.
Proof. apply closedb_closed. reflexivity. Qed.

Lemma diamondGraph_unique : uniqueIds diamondGraph.
Proof. apply (bool_decide_unpack _). vm_compute. exact I. Qed.

Lemma diamondGraph_acyclic : acyclic diamondGraph.
Proof.
  apply acyclicb_acyclic;
    [apply diamondGraph_closed | apply diamondGraph_unique | reflexivity].
Qed.

Lemma diamondGraph_valid : ∀ c, c ∈ [0; 1; 2; 3] → c < length diamondGraph.
Proof. intros c Hc. apply elem_of_seq with (j := 0) (n := 4). exact Hc. Qed.

Lemma diamondGraph_noCycle :
  ∀ r, r ∈ findRoots diamondGraph [0; 1; 2; 3] → noCycleBelow diamondGraph r.
Proof. intros r _. apply acyclic_noCycleBelow, diamondGraph_acyclic. Qed.

Lemma lassoGraph_closed : closed lassoGraph.
Proof. apply closedb_closed. reflexivity. Qed.

Lemma lassoGraph_unique : uniqueIds lassoGraph.
Proof. apply (bool_decide_unpack _). vm_compute. exact I. Qed.

Lemma sampleGraph_acyclic : acyclic sampleGraph.
Proof.
  apply acyclicb_acyclic;
    [apply (eg_closed _ _ sampleGraph_extraction)
    | apply (eg_unique _ _ sampleGraph_extraction) | reflexivity].
Qed.

Lemma diamondMarks_inPlace : ∀ n, n ∈ diamondMarks → inPlace n.
Proof.
  apply Forall_forall. unfold diamondMarks. repeat constructor.
Qed.

Lemma diamondMarks_ids : NoDup ((λ n, node_id (base n)) <$> diamondMarks).
Proof. apply (bool_decide_unpack _). vm_compute. exact I. Qed.

Lemma remove_undoes_convert_nodes_witness :
  removePropNodes callbackComponent ([draftNode] ++ convertPropNodes callbackComponent)
    = [draftNode] ∧
  removeStateNodes callbackComponent ([draftNode] ++ convertStateNodes callbackComponent)
    = [draftNode] ∧
  removeEffectNodes callbackComponent
    ([draftNode] ++ convertEffectNodes callbackComponent) = [draftNode].
Proof.
  apply (remove_undoes_convert_nodes callbackComponent [draftNode] [draftNode] [draftNode]).
  - intros n ->%list_elem_of_singleton. apply (bool_decide_unpack _). vm_compute. exact I.
  - intros n ->%list_elem_of_singleton. apply (bool_decide_unpack _). vm_compute. exact I.
  - intros n ->%list_elem_of_singleton. apply (bool_decide_unpack _). vm_compute. exact I.
Defined.

Lemma innerNodes_apart_witness :
  node_parentId (base onChangeNode) = Some (comp_id callbackComponent) ∧
  (node_position (base onChangeNode) = node_position (base callbackEffectNode) → 0 = 2).
Proof.
  apply (innerNodes_apart callbackComponent 0 2 onChangeNode callbackEffectNode);
    reflexivity.
Defined.

Lemma removePropEdges_convert_witness :
  removePropEdges (setterGraph "state-1" !!! 0)
    (convertPropEdges (setterGraph "state-1") [expandedForm] [] [stateNode1] []) =
  convertPropEdges (setterGraph "state-1")
    (filter (λ node, ¬ markOf (setterGraph "state-1") (setterGraph "state-1" !!! 0) node)
       [expandedForm])
    [] [stateNode1] [].
Proof.
  apply (removePropEdges_convert (setterGraph "state-1") (setterGraph "state-1" !!! 0)
           [expandedForm] [] [stateNode1] []).
  intros n ->%list_elem_of_singleton. discriminate.
Defined.

Lemma layoutMarks_marksOk_witness :
  ∃ s', layoutMarks (visitFuel diamondGraph) diamondGraph [0; 1; 2; 3] = Some s' ∧
    NoDup (node_id <$> newNodes s') ∧ index s' = 4 ∧ maxLevel s' = 2.
Proof.
  eexists. split; [vm_compute; reflexivity |].
  destruct (layoutMarks_marksOk (visitFuel diamondGraph) diamondGraph [0; 1; 2; 3] _
              ltac:(vm_compute; reflexivity)) as (Hnodup & _ & _).
  split; [exact Hnodup | split; reflexivity].
Defined.

Lemma layoutMarks_one_mark_each_witness :
  ∃ s', layoutMarks (visitFuel diamondGraph) diamondGraph [0; 1; 2; 3] = Some s' ∧
    ∃ i n, newNodes s' !! i = Some n ∧ data_component (node_data n) = Some 3 ∧
      ∀ j m, newNodes s' !! j = Some m → data_component (node_data m) = Some 3 → j = i.
Proof.
  eexists. split; [vm_compute; reflexivity |].
  destruct (layoutMarks_one_mark_each diamondGraph [0; 1; 2; 3] (visitFuel diamondGraph) _
              diamondGraph_closed diamondGraph_unique diamondGraph_valid
              ltac:(vm_compute; reflexivity)) as (_ & Hone & Hall).
  apply Hone, (Hall diamondGraph_acyclic).
  apply elem_of_seq with (j := 0) (n := 4). lia.
Defined.

Lemma layoutMarks_children_deeper_witness :
  ∃ s' n, layoutMarks (visitFuel diamondGraph) diamondGraph [0; 1; 2; 3] = Some s' ∧
    newNodes s' !! 3 = Some n ∧ data_component (node_data n) = Some 2 ∧
    ∃ m lm, m ∈ newNodes s' ∧ data_component (node_data m) = Some 3 ∧
            data_level (node_data m) = Some lm ∧ 1 < lm.
Proof.
  eexists _, _. split; [vm_compute; reflexivity |].
  split; [reflexivity |]. split; [reflexivity |].
  eapply (layoutMarks_children_deeper diamondGraph [0; 1; 2; 3] (visitFuel diamondGraph) _
           diamondGraph_closed diamondGraph_unique diamondGraph_valid
           diamondGraph_noCycle ltac:(vm_compute; reflexivity) _ 2 3 1).
  - apply list_elem_of_lookup. exists 3. reflexivity.
  - reflexivity.
  - reflexivity.
  - apply list_elem_of_In. vm_compute. auto.
Defined.

Lemma layoutEffect_positions_witness :
  ∃ L, layoutEffect (visitFuel diamondGraph) diamondGraph [0; 1; 2; 3] ∅ = Some L ∧
    layout_nodes L = diamondMarks ∧
    ∀ p q n m, layout_nodes L !! p = Some n → layout_nodes L !! q = Some m →
      node_position (base n) = node_position (base m) → p = q.
Proof.
  eexists. split; [vm_compute; reflexivity |].
  split; [vm_compute; reflexivity |].
  apply (layoutEffect_positions (visitFuel diamondGraph) diamondGraph [0; 1; 2; 3] ∅ _
           ltac:(vm_compute; reflexivity)).
Defined.

Lemma layoutEffect_children_right_witness :
  ∃ L, layoutEffect (visitFuel diamondGraph) diamondGraph [0; 1; 2; 3] ∅ = Some L ∧
    ∃ m, m ∈ layout_nodes L ∧ data_component (node_data (base m)) = Some 3 ∧
         (210 + 200 ≤ pos_x (node_position (base m)))%Z.
Proof.
  eexists. split; [vm_compute; reflexivity |].
  apply (layoutEffect_children_right diamondGraph [0; 1; 2; 3] (visitFuel diamondGraph) ∅ _
           diamondGraph_closed diamondGraph_unique diamondGraph_valid
           diamondGraph_noCycle ltac:(vm_compute; reflexivity)
           (placeMark 1 1 (plainNode (componentMark diamondGraph 2 1 3))) 2 3).
  - apply list_elem_of_lookup. exists 3. reflexivity.
  - reflexivity.
  - apply list_elem_of_In. vm_compute. auto.
Defined.

Lemma expandComponent_moves_witness :
  ∃ expanded,
    expandComponent diamondGraph diamondLevels
      (placeMark 1 0 (plainNode (componentMark diamondGraph 1 1 1))) diamondMarks
      = Some expanded ∧
    length expanded = 4.
Proof.
  destruct (expandComponent_moves diamondGraph diamondLevels
              (placeMark 1 0 (plainNode (componentMark diamondGraph 1 1 1)))
              diamondMarks 1 1 eq_refl diamondMarks_ids eq_refl diamondMarks_inPlace)
    as (expanded & Hrun & Hlen & _).
  exists expanded. split; [exact Hrun | exact Hlen].
Defined.

Lemma shrinkComponent_undoes_expandComponent_witness :
  ∃ expanded,
    expandComponent diamondGraph diamondLevels
      (placeMark 1 0 (plainNode (componentMark diamondGraph 1 1 1))) diamondMarks
      = Some expanded ∧
    shrinkComponent diamondLevels
      (expandedMark diamondGraph 1
         (placeMark 1 0 (plainNode (componentMark diamondGraph 1 1 1)))) expanded =
      Some (<[1 := shrunkMark diamondGraph 1
                     (placeMark 1 0 (plainNode (componentMark diamondGraph 1 1 1)))]>
              diamondMarks).
Proof.
  destruct (shrinkComponent_undoes_expandComponent diamondGraph diamondLevels
              (placeMark 1 0 (plainNode (componentMark diamondGraph 1 1 1)))
              diamondMarks 1 1 eq_refl diamondMarks_ids eq_refl diamondMarks_inPlace)
    as (expanded & Hrun & _ & Hback).
  exists expanded. split; [exact Hrun | exact Hback].
Defined.

Lemma layoutEffect_cycle_never_returns_witness :
  layoutMarks 1000 lassoGraph [0; 1; 2] = None ∧
  layoutEffect 1000 lassoGraph [0; 1; 2] ∅ = None.
Proof.
  apply (layoutEffect_cycle_never_returns lassoGraph [0; 1; 2] 0 1
           lassoGraph_closed lassoGraph_unique).
  - apply list_elem_of_In. vm_compute. auto.
  - apply rtc_once. apply list_elem_of_In. vm_compute. auto.
  - apply (tc_l _ 1 2 1).
    + apply list_elem_of_In. vm_compute. auto.
    + apply tc_once. apply list_elem_of_In. vm_compute. auto.
Defined.

Lemma layoutEffect_edges_join_marks_witness :
  ∃ L, layoutEffect (visitFuel sampleGraph) sampleGraph [0; 1; 2] ∅ = Some L ∧
    length (layout_edges L) = 2 ∧
    ∀ e, e ∈ layout_edges L →
      ∃ n m, n ∈ layout_nodes L ∧ m ∈ layout_nodes L ∧
        node_id (base n) = edge_source e ∧ node_id (base m) = edge_target e ∧
        (edge_animated e = false →
         (pos_x (node_position (base n)) + 200 ≤ pos_x (node_position (base m)))%Z).
Proof.
  eexists. split; [vm_compute; reflexivity |]. split; [reflexivity |].
  apply (layoutEffect_edges_join_marks sampleGraph [0; 1; 2] (visitFuel sampleGraph) ∅ _
           (eg_closed _ _ sampleGraph_extraction) (eg_unique _ _ sampleGraph_extraction)
           (eg_components _ _ sampleGraph_extraction) sampleGraph_acyclic).
  - intros c k Hc Hk. apply elem_of_seq with (j := 0) (n := 3).
    apply elem_of_seq with (j := 0) (n := 3) in Hc.
    destruct c as [|[|[|c]]]; [| | | lia];
      apply list_elem_of_In in Hk; vm_compute in Hk;
      destruct Hk as [<- | []] || destruct Hk; lia.
  - vm_compute. reflexivity.
Defined.

Lemma layoutEffect_first_expansion_witness :
  ∃ L targetNode,
    layoutEffect (visitFuel diamondGraph) diamondGraph [0; 1; 2; 3] ∅ = Some L ∧
    layout_nodes L !! 1 = Some targetNode ∧
    ∃ expanded,
      expandComponent (layout_graph L) (layout_levels L) targetNode (layout_nodes L)
        = Some expanded ∧
      shrinkComponent (layout_levels L)
          (expandedMark (layout_graph L) 1 targetNode) expanded =
        Some (<[1 := shrunkMark (layout_graph L) 1 targetNode]> (layout_nodes L)).
Proof.
  eexists _, _. split; [vm_compute; reflexivity |]. split; [reflexivity |].
  destruct (layoutEffect_first_expansion diamondGraph [0; 1; 2; 3]
              (visitFuel diamondGraph) ∅ _ 1 _
              diamondGraph_closed diamondGraph_unique
              ltac:(vm_compute; reflexivity) eq_refl)
    as (c & lt & expanded & Hc & _ & Hrun & _ & Hback).
  injection Hc as <-.
  exists expanded. split; [exact Hrun | exact Hback].
Defined.
